(** * The API key pool manager (lib/key-pool): a shallow embedding

    The pool manager holds a fixed array of key records, a round-robin
    cursor and an exhaustion counter.  [execute] is an [async] function:
    between two [await]s its body runs to completion, so it is embedded
    as a resumable machine whose states are the three [await] points of
    the source and whose transitions are the synchronous segments between
    them.  Every segment receives the clock reading ([Date.now()]) of the
    moment it runs, all readings within one segment being equal; the
    environment decides when a timer fires and how the caller's operation
    settles, and which of the suspended calls runs next.

    Numbers are JavaScript numbers holding integers (counters, epoch
    milliseconds) and are embedded as [Z]; array positions are [nat].
    Strings are sequences of code units below 256, embedded as [string].
    Console output is not part of the state and is left out.

    The client library (rettiwt-api) is not part of the repository.  The
    manager calls its constructor once per key, in [initialize]; the
    constructor may throw, and on which keys it does is a parameter of
    the model, the class [RettiwtLibrary].  What is proved of
    [initialize], and of the states the manager can reach, holds for
    every such library. *)

From Stdlib Require Import ZArith Ascii String.
From stdpp Require Import base tactics option list gmap sets strings pretty.

Local Open Scope string_scope.
Local Open Scope Z_scope.

(* ================================================================== *)
(** ** Strings: the built-ins the manager calls *)
(* ================================================================== *)

Module Js.

(** [String.prototype.toLowerCase] on one code unit below 256: the basic
    Latin capitals and the Latin-1 capitals (all of 192..222 but the
    multiplication sign 215) move up by 32. *)
Definition toLowerChar (c : ascii) : ascii :=
  let n := nat_of_ascii c in
  if ((65 <=? n) && (n <=? 90)
      || (192 <=? n) && (n <=? 214)
      || (216 <=? n) && (n <=? 222))%nat
  then ascii_of_nat (n + 32) else c.

Fixpoint toLowerCase (s : string) : string :=
  match s with
  | EmptyString => EmptyString
  | String c s' => String (toLowerChar c) (toLowerCase s')
  end.

(** Is [pat] a prefix of [s]? *)
Fixpoint startsWith (pat s : string) : bool :=
  match pat, s with
  | EmptyString, _ => true
  | String _ _, EmptyString => false
  | String a pat', String b s' =>
      if Ascii.eqb a b then startsWith pat' s' else false
  end.

(** [s.includes(pat)]: does [pat] occur at some position of [s]? *)
Fixpoint includes (pat s : string) : bool :=
  if startsWith pat s then true
  else match s with
       | EmptyString => false
       | String _ s' => includes pat s'
       end.

(** White space and line terminators of ECMAScript among the code units
    below 256: TAB, LF, VT, FF, CR, SP and NBSP. *)
Definition isWhiteSpace (c : ascii) : bool :=
  let n := nat_of_ascii c in
  ((9 <=? n) && (n <=? 13) || (n =? 32) || (n =? 160))%nat.

Fixpoint trimStart (s : string) : string :=
  match s with
  | EmptyString => EmptyString
  | String c s' => if isWhiteSpace c then trimStart s' else s
  end.

Fixpoint trimEnd (s : string) : string :=
  match s with
  | EmptyString => EmptyString
  | String c s' =>
      match trimEnd s' with
      | EmptyString => if isWhiteSpace c then EmptyString
                       else String c EmptyString
      | t => String c t
      end
  end.

(** [s.trim()] *)
Definition trim (s : string) : string := trimEnd (trimStart s).

(** [s.split(sep)] for a one-character separator: the pieces between the
    separators, empty pieces included; the empty string gives one empty
    piece. *)
Fixpoint split (sep : ascii) (s : string) : list string :=
  match s with
  | EmptyString => [EmptyString]
  | String c s' =>
      if Ascii.eqb c sep then EmptyString :: split sep s'
      else match split sep s' with
           | piece :: rest => String c piece :: rest
           | [] => [String c EmptyString]
           end
  end.

(** [s.substring(start, end)]: both bounds are clamped to [0, length],
    swapped when out of order; a missing [end] is the length. *)
Definition substring (start : Z) (end_ : option Z) (s : string) : string :=
  let len := Z.of_nat (String.length s) in
  let clamp x := Z.max 0 (Z.min x len) in
  let a := clamp start in
  let b := match end_ with Some e => clamp e | None => len end in
  String.substring (Z.to_nat (Z.min a b)) (Z.to_nat (Z.max a b - Z.min a b)) s.

(** The double-quote character, for messages that quote a name. *)
Definition dquote : string := String (ascii_of_nat 34) EmptyString.

End Js.

(* ================================================================== *)
(** ** Types *)
(* ================================================================== *)

(** The client handle bound to one key: [new Rettiwt({ apiKey, logging })]. *)
Record Rettiwt := mkRettiwt { apiKey : string; logging : bool }.

(** [interface KeyState] *)
Record KeyState := mkKeyState {
  key : string;
  index : nat;
  instance : Rettiwt;
  totalRequests : Z;
  successCount : Z;
  failCount : Z;
  rateLimitHits : Z;
  cooldownUntil : Z;     (* timestamp, 0 = not cooling down *)
  lastUsedAt : Z;
  lastErrorAt : Z;
  lastError : option string;
  isHealthy : bool
}.

(** The private fields of [class KeyPoolManager]. *)
Record KeyPoolManager := mkPool {
  keys : list KeyState;
  currentIndex : nat;
  initialized : bool;
  consecutiveAllExhausted : Z
}.

(** What the caller's operation may throw ([error: any]).  The manager
    reads [error.message], [error.code] and [String(error)] only.  The
    operation's errors are objects whose message, when present, is a
    string; the code may be absent, a number or anything else (compared
    with [===], only a number can equal 88 or 429). *)
Inductive JsCode :=
| CodeUndefined
| CodeNumber (n : Z)
| CodeString (s : string).

Record JsError := mkJsError {
  message : option string;   (* [None]: no message property *)
  code : JsCode;
  toStr : string             (* [String(error)] *)
}.

(** [throw new Error(msg)] *)
Inductive Exn := JsErrorThrown (msg : string).

(* ================================================================== *)
(** ** Config *)
(* ================================================================== *)

Definition RATE_LIMIT_COOLDOWN_MS : Z := 15 * 60 * 1000.
Definition ERROR_COOLDOWN_MS : Z := 2 * 60 * 1000.
Definition MAX_CONSECUTIVE_FAILS : Z := 5.
Definition ALL_KEYS_EXHAUSTED_WAIT_MS : Z := 30 * 1000.
Definition REQUEST_DELAY_MS : Z := 1500.

(* ================================================================== *)
(** ** Private helpers *)
(* ================================================================== *)

(** [error.message || ''] and [error.message || String(error)]: an absent
    or empty message is falsy. *)
Definition orElse (m : option string) (dflt : string) : string :=
  match m with
  | Some (String c s) => String c s
  | _ => dflt
  end.

Definition isRateLimitError (error : JsError) : bool :=
  let message := Js.toLowerCase (orElse (message error) EmptyString) in
  let code := code error in
  Js.includes "rate limit" message
  || Js.includes "too many requests" message
  || match code with CodeNumber n => (n =? 88)%Z | _ => false end
  || match code with CodeNumber n => (n =? 429)%Z | _ => false end.

Definition maskKey (key : string) : string :=
  if (Z.of_nat (String.length key) <=? 12)%Z then "***"
  else Js.substring 0 (Some 6) key +:+ "..."
       +:+ Js.substring (Z.of_nat (String.length key) - 6) None key.

Definition isCoolingDown (now : Z) (key : KeyState) : bool :=
  (cooldownUntil key >? now)%Z.

(** [Math.min(...xs)] for the non-empty spread [x :: xs]. *)
Definition Math_min (x : Z) (xs : list Z) : Z := foldl Z.min x xs.

(* ------------------------------------------------------------------ *)
(** *** Field assignments

    The source mutates key records and the manager in place; each
    assignment [k.f = v] is one setter. *)

Definition set_totalRequests (v : Z) (k : KeyState) : KeyState :=
  mkKeyState (key k) (index k) (instance k) v (successCount k) (failCount k)
    (rateLimitHits k) (cooldownUntil k) (lastUsedAt k) (lastErrorAt k)
    (lastError k) (isHealthy k).
Definition set_successCount (v : Z) (k : KeyState) : KeyState :=
  mkKeyState (key k) (index k) (instance k) (totalRequests k) v (failCount k)
    (rateLimitHits k) (cooldownUntil k) (lastUsedAt k) (lastErrorAt k)
    (lastError k) (isHealthy k).
Definition set_failCount (v : Z) (k : KeyState) : KeyState :=
  mkKeyState (key k) (index k) (instance k) (totalRequests k) (successCount k) v
    (rateLimitHits k) (cooldownUntil k) (lastUsedAt k) (lastErrorAt k)
    (lastError k) (isHealthy k).
Definition set_rateLimitHits (v : Z) (k : KeyState) : KeyState :=
  mkKeyState (key k) (index k) (instance k) (totalRequests k) (successCount k)
    (failCount k) v (cooldownUntil k) (lastUsedAt k) (lastErrorAt k)
    (lastError k) (isHealthy k).
Definition set_cooldownUntil (v : Z) (k : KeyState) : KeyState :=
  mkKeyState (key k) (index k) (instance k) (totalRequests k) (successCount k)
    (failCount k) (rateLimitHits k) v (lastUsedAt k) (lastErrorAt k)
    (lastError k) (isHealthy k).
Definition set_lastUsedAt (v : Z) (k : KeyState) : KeyState :=
  mkKeyState (key k) (index k) (instance k) (totalRequests k) (successCount k)
    (failCount k) (rateLimitHits k) (cooldownUntil k) v (lastErrorAt k)
    (lastError k) (isHealthy k).
Definition set_lastErrorAt (v : Z) (k : KeyState) : KeyState :=
  mkKeyState (key k) (index k) (instance k) (totalRequests k) (successCount k)
    (failCount k) (rateLimitHits k) (cooldownUntil k) (lastUsedAt k) v
    (lastError k) (isHealthy k).
Definition set_lastError (v : option string) (k : KeyState) : KeyState :=
  mkKeyState (key k) (index k) (instance k) (totalRequests k) (successCount k)
    (failCount k) (rateLimitHits k) (cooldownUntil k) (lastUsedAt k)
    (lastErrorAt k) v (isHealthy k).
Definition set_isHealthy (v : bool) (k : KeyState) : KeyState :=
  mkKeyState (key k) (index k) (instance k) (totalRequests k) (successCount k)
    (failCount k) (rateLimitHits k) (cooldownUntil k) (lastUsedAt k)
    (lastErrorAt k) (lastError k) v.

Definition set_keys (v : list KeyState) (p : KeyPoolManager) : KeyPoolManager :=
  mkPool v (currentIndex p) (initialized p) (consecutiveAllExhausted p).
Definition set_currentIndex (v : nat) (p : KeyPoolManager) : KeyPoolManager :=
  mkPool (keys p) v (initialized p) (consecutiveAllExhausted p).
Definition set_initialized (v : bool) (p : KeyPoolManager) : KeyPoolManager :=
  mkPool (keys p) (currentIndex p) v (consecutiveAllExhausted p).
Definition set_consecutiveAllExhausted (v : Z) (p : KeyPoolManager)
  : KeyPoolManager :=
  mkPool (keys p) (currentIndex p) (initialized p) v.

(** A mutation through the reference [keyState], which aliases the
    record stored at position [idx] of [this.keys]. *)
Definition onKey (idx : nat) (f : KeyState -> KeyState) (p : KeyPoolManager)
  : KeyPoolManager :=
  set_keys (alter f idx (keys p)) p.

(* ------------------------------------------------------------------ *)
(** *** Selection *)

(** The [for] loop of [getNextAvailableKey], from iteration [attempt]
    with [n] iterations left.  The record read at [idx] always exists,
    [idx] being a remainder modulo the length. *)
Fixpoint scanKeys (now : Z) (ks : list KeyState) (triedKeys : gset nat)
    (startIndex attempt n : nat) : option (nat * KeyState) :=
  match n with
  | O => None
  | S n' =>
      let idx := ((startIndex + attempt) mod length ks)%nat in
      match ks !! idx with
      | None => None
      | Some key =>
          if bool_decide (idx ∈ triedKeys)
          then scanKeys now ks triedKeys startIndex (S attempt) n'
          else if negb (isHealthy key)
          then scanKeys now ks triedKeys startIndex (S attempt) n'
          else if isCoolingDown now key
          then scanKeys now ks triedKeys startIndex (S attempt) n'
          else Some (idx, key)
      end
  end.

(** Returns the position and the record found, with the manager after
    the cursor update. *)
Definition getNextAvailableKey (now : Z) (triedKeys : gset nat)
    (p : KeyPoolManager) : option (nat * KeyState) * KeyPoolManager :=
  let startIndex := currentIndex p in
  match scanKeys now (keys p) triedKeys startIndex 0 (length (keys p)) with
  | Some (idx, key) =>
      (Some (idx, key), set_currentIndex ((idx + 1) mod length (keys p))%nat p)
  | None => (None, p)
  end.

Definition getNextCooldownEnd (now : Z) (p : KeyPoolManager) : Z :=
  let coolingKeys := List.filter (fun k => cooldownUntil k >? now) (keys p) in
  match map cooldownUntil coolingKeys with
  | [] => 0
  | c :: cs => let earliest := Math_min c cs in earliest - now
  end.

(* ------------------------------------------------------------------ *)
(** *** Initialization and manual reset *)

(** How a synchronous call completes: normally or by a [throw]. *)
Inductive Completion (A : Type) :=
| Normal (a : A)
| Abrupt (e : Exn).
Arguments Normal {A} a.
Arguments Abrupt {A} e.

(** [new Rettiwt({ apiKey, logging })].  The client library is not part
    of the repository.  Its constructor inspects the key and throws on
    one it cannot use; which keys those are, and what is thrown, is a
    parameter of the model: [constructorThrows key] is [None] when the
    constructor returns the client. *)
Class RettiwtLibrary := { constructorThrows : string -> option Exn }.

Definition newRettiwt {lib : RettiwtLibrary} (apiKey : string) (logging : bool)
  : Completion Rettiwt :=
  match constructorThrows apiKey with
  | Some e => Abrupt e
  | None => Normal (mkRettiwt apiKey logging)
  end.

(** The object literal of the [map] callback, its client being built. *)
Definition keyStateOf (index : nat) (key : string) (instance : Rettiwt)
  : KeyState :=
  {| key := key; index := index; instance := instance;
     totalRequests := 0; successCount := 0; failCount := 0;
     rateLimitHits := 0; cooldownUntil := 0; lastUsedAt := 0;
     lastErrorAt := 0; lastError := None; isHealthy := true |}.

(** The [map] callback: [(key, index) => ({ key, index, instance: new
    Rettiwt(...), ... })]. *)
Definition newKeyState {lib : RettiwtLibrary} (index : nat) (key : string)
  : Completion KeyState :=
  match newRettiwt key false with
  | Normal instance => Normal (keyStateOf index key instance)
  | Abrupt e => Abrupt e
  end.

(** [keyList.map(...)]: the callback runs on the entries in order, from
    position [index] on; the first [throw] ends the [map]. *)
Fixpoint mapKeys {lib : RettiwtLibrary} (index : nat) (keyList : list string)
  : Completion (list KeyState) :=
  match keyList with
  | [] => Normal []
  | key :: rest =>
      match newKeyState index key with
      | Abrupt e => Abrupt e
      | Normal keyState =>
          match mapKeys (S index) rest with
          | Abrupt e => Abrupt e
          | Normal keyStates => Normal (keyState :: keyStates)
          end
      end
  end.

Definition parseKeyList (apiKeys : string) : list string :=
  List.filter (fun k => (0 <? String.length k)%nat)
    (map Js.trim (Js.split "," apiKeys)).

Definition noKeysError : Exn :=
  JsErrorThrown
    "No RETTIWT_API_KEYS found. Set them in .env as comma-separated values.".

(** [initialize(apiKeys)].  A [throw], of the manager or of the
    client's constructor, leaves the fields as they were: [this.keys]
    and [this.initialized] are assigned after the [map]. *)
Definition initialize {lib : RettiwtLibrary} (apiKeys : string)
    (p : KeyPoolManager) : Completion unit * KeyPoolManager :=
  if initialized p then (Normal tt, p)
  else
    let keyList := parseKeyList apiKeys in
    if (length keyList =? 0)%nat then (Abrupt noKeysError, p)
    else
      match mapKeys 0 keyList with
      | Abrupt e => (Abrupt e, p)
      | Normal keyStates =>
          (Normal tt, set_initialized true (set_keys keyStates p))
      end.

(** A library whose constructor accepts every key, and one whose
    constructor refuses every key.  In the examples below the keys
    stand for keys that the constructor accepts. *)
Definition acceptingLibrary : RettiwtLibrary :=
  {| constructorThrows := fun _ => None |}.

Definition invalidAuthenticationData : Exn :=
  JsErrorThrown "Invalid authentication data".

Definition refusingLibrary : RettiwtLibrary :=
  {| constructorThrows := fun _ => Some invalidAuthenticationData |}.

Definition manualReset (k : KeyState) : KeyState :=
  set_isHealthy true (set_failCount 0 (set_cooldownUntil 0 k)).

(** [resetKey(index)]: [this.keys[index]] is [undefined] for a negative
    or too large index, and nothing happens then. *)
Definition resetKey (index : Z) (p : KeyPoolManager) : KeyPoolManager :=
  if (index <? 0)%Z then p
  else match keys p !! Z.to_nat index with
       | Some _ => onKey (Z.to_nat index) manualReset p
       | None => p
       end.

Definition resetAll (p : KeyPoolManager) : KeyPoolManager :=
  set_consecutiveAllExhausted 0 (set_keys (map manualReset (keys p)) p).

(** The pool of a freshly constructed manager. *)
Definition newKeyPoolManager : KeyPoolManager :=
  {| keys := []; currentIndex := 0%nat; initialized := false;
     consecutiveAllExhausted := 0 |}.

(* ================================================================== *)
(** ** [execute]: the resumable retry loop *)
(* ================================================================== *)

(** The three [await]s of [execute], each with the local variables that
    are live across it. *)
Inductive Await :=
| SleepAllExhausted (waitTime : Z)
    (* [await this.sleep(waitTime)], all keys tried or cooling down *)
| SleepRequestDelay (idx : nat) (ms : Z)
    (* [await this.sleep(REQUEST_DELAY_MS - timeSinceLastUse)] *)
| OperationCall (idx : nat).
    (* [await operation(keyState.instance)], [keyState] at position [idx] *)

Section Execute.
Context {T : Type}.

Inductive Status :=
| Awaiting (a : Await)
| Settled (c : Completion T).

(** One invocation of [execute]: its arguments, its local [triedKeys]
    and where it stands. *)
Record Call := mkCall {
  operationName : string;
  triedKeys : gset nat;
  status : Status
}.

(** What the environment delivers to a suspended call. *)
Inductive Event :=
| TimerFired
| Resolved (result : T)
| Rejected (error : JsError).

Definition notInitializedError : Exn :=
  JsErrorThrown "Key pool not initialized. Call initialize() first.".

(** The text of the error thrown after the loop, with its two
    interpolations. *)
Definition allKeysExhaustedText (keysLength : nat) (operationName : string)
  : string :=
  "[KEY POOL] All " +:+ pretty keysLength +:+ " keys exhausted for "
  +:+ Js.dquote +:+ operationName +:+ Js.dquote
  +:+ ". Check your API keys and rate limits.".

Definition allKeysExhaustedError (p : KeyPoolManager) (operationName : string)
  : Exn :=
  JsErrorThrown (allKeysExhaustedText (length (keys p)) operationName).

(** [keyState.lastUsedAt = Date.now(); keyState.totalRequests++;] *)
Definition noteRequest (now : Z) (keyState : KeyState) : KeyState :=
  let keyState := set_lastUsedAt now keyState in
  set_totalRequests (totalRequests keyState + 1) keyState.

(** The assignments to [keyState] after the operation has succeeded. *)
Definition noteSuccess (keyState : KeyState) : KeyState :=
  let keyState := set_successCount (successCount keyState + 1) keyState in
  let keyState := set_isHealthy true keyState in
  set_failCount 0 keyState.

(** The assignments to [keyState] in the [catch] block. *)
Definition noteFailure (now : Z) (error : JsError) (keyState : KeyState)
  : KeyState :=
  let isRateLimit := isRateLimitError error in
  let keyState := set_lastErrorAt now keyState in
  let keyState :=
    set_lastError (Some (orElse (message error) (toStr error))) keyState in
  if isRateLimit then
    (* Rate limit: put key on cooldown *)
    let keyState := set_rateLimitHits (rateLimitHits keyState + 1) keyState in
    set_cooldownUntil (now + RATE_LIMIT_COOLDOWN_MS) keyState
  else
    (* Other error: shorter cooldown *)
    let keyState := set_failCount (failCount keyState + 1) keyState in
    let keyState := set_cooldownUntil (now + ERROR_COOLDOWN_MS) keyState in
    if failCount keyState >=? MAX_CONSECUTIVE_FAILS
    then set_isHealthy false keyState
    else keyState.

(** The bookkeeping before the operation is called, and the call. *)
Definition sendRequest (now : Z) (idx : nat) (p : KeyPoolManager)
    (name : string) (tried : gset nat) : KeyPoolManager * Call :=
  (onKey idx (noteRequest now) p,
   mkCall name tried (Awaiting (OperationCall idx))).

(** From the test of the [while] loop to the next [await], or to the
    [throw] after the loop. *)
Definition loopHead (now : Z) (p : KeyPoolManager) (name : string)
    (tried : gset nat) : KeyPoolManager * Call :=
  if bool_decide (size tried < length (keys p))%nat then
    match getNextAvailableKey now tried p with
    | (None, p) =>
        let nextAvailableIn := getNextCooldownEnd now p in
        if nextAvailableIn >? 0 then
          let waitTime := Z.min nextAvailableIn ALL_KEYS_EXHAUSTED_WAIT_MS in
          let p := set_consecutiveAllExhausted
                     (consecutiveAllExhausted p + 1) p in
          (p, mkCall name tried (Awaiting (SleepAllExhausted waitTime)))
        else
          (p, mkCall name tried (Settled (Abrupt (allKeysExhaustedError p name))))
    | (Some (idx, keyState), p) =>
        let tried := {[index keyState]} ∪ tried in
        let timeSinceLastUse := now - lastUsedAt keyState in
        if (timeSinceLastUse <? REQUEST_DELAY_MS) && (lastUsedAt keyState >? 0)
        then
          (p, mkCall name tried
                (Awaiting (SleepRequestDelay idx
                             (REQUEST_DELAY_MS - timeSinceLastUse))))
        else sendRequest now idx p name tried
    end
  else (p, mkCall name tried (Settled (Abrupt (allKeysExhaustedError p name)))).

(** After the operation's promise is fulfilled: the bookkeeping and
    [return result]. *)
Definition onSuccess (idx : nat) (result : T) (p : KeyPoolManager)
    (name : string) (tried : gset nat) : KeyPoolManager * Call :=
  let p := onKey idx noteSuccess p in
  let p := set_consecutiveAllExhausted 0 p in
  (p, mkCall name tried (Settled (Normal result))).

(** The [catch] block: bookkeeping, then [continue]. *)
Definition onFailure (now : Z) (idx : nat) (error : JsError)
    (p : KeyPoolManager) (name : string) (tried : gset nat)
  : KeyPoolManager * Call :=
  loopHead now (onKey idx (noteFailure now error) p) name tried.

(** The call [execute(operation, operationName)] at time [now], up to
    its first [await]; an omitted name defaults to ['request']. *)
Definition execute (now : Z) (operationName : option string)
    (p : KeyPoolManager) : KeyPoolManager * Call :=
  let name := default "request" operationName in
  if negb (initialized p) || (length (keys p) =? 0)%nat then
    (p, mkCall name ∅ (Settled (Abrupt notInitializedError)))
  else loopHead now p name ∅.

(** The continuation of a suspended call when its awaited promise
    settles at time [now].  A settled call has no continuation, and a
    timer does not settle an operation nor the converse. *)
Definition resume (now : Z) (ev : Event) (p : KeyPoolManager) (c : Call)
  : KeyPoolManager * Call :=
  match status c, ev with
  | Awaiting (SleepAllExhausted _), TimerFired =>
      (* triedKeys.clear(); continue; *)
      loopHead now p (operationName c) ∅
  | Awaiting (SleepRequestDelay idx _), TimerFired =>
      sendRequest now idx p (operationName c) (triedKeys c)
  | Awaiting (OperationCall idx), Resolved result =>
      onSuccess idx result p (operationName c) (triedKeys c)
  | Awaiting (OperationCall idx), Rejected error =>
      onFailure now idx error p (operationName c) (triedKeys c)
  | _, _ => (p, c)
  end.

(* ------------------------------------------------------------------ *)
(** *** Calls sharing the singleton pool

    [keyPool] is one object; every invocation of [execute] runs on it,
    and invocations overlap whenever one of them is suspended. *)

Record System := mkSystem {
  pool : KeyPoolManager;
  calls : list Call
}.

Inductive Action :=
| Invoke (now : Z) (operationName : option string)
    (* a caller invokes [keyPool.execute] *)
| Deliver (cid : nat) (now : Z) (ev : Event).
    (* the promise awaited by call number [cid] settles *)

Definition act (s : System) (a : Action) : System :=
  match a with
  | Invoke now name =>
      let '(p, c) := execute now name (pool s) in
      mkSystem p (calls s ++ [c])
  | Deliver cid now ev =>
      match calls s !! cid with
      | Some c =>
          let '(p, c') := resume now ev (pool s) c in
          mkSystem p (<[cid := c']> (calls s))
      | None => s
      end
  end.

Definition run (s : System) (schedule : list Action) : System :=
  foldl act s schedule.

(** Is call [c] between selecting the record at [idx] and the
    settlement of its operation? *)
Definition holdsKey (idx : nat) (c : Call) : Prop :=
  match status c with
  | Awaiting (SleepRequestDelay i _) | Awaiting (OperationCall i) => i = idx
  | _ => False
  end.

End Execute.

Arguments Status : clear implicits.
Arguments Call : clear implicits.
Arguments Event : clear implicits.
Arguments System : clear implicits.
Arguments Action : clear implicits.

(* ================================================================== *)
(** ** Notions used to state the properties *)
(* ================================================================== *)

(** Two strings of equal length whose characters agree up to case. *)
Inductive equalIgnoringCase : string -> string -> Prop :=
| eic_nil : equalIgnoringCase EmptyString EmptyString
| eic_cons a b s t :
    Js.toLowerChar a = Js.toLowerChar b ->
    equalIgnoringCase s t ->
    equalIgnoringCase (String a s) (String b t).

(** [pat] occurs in [s] up to case. *)
Definition containsIgnoringCase (pat s : string) : Prop :=
  exists pre mid post, s = pre +:+ mid +:+ post /\ equalIgnoringCase mid pat.

Fixpoint allWhiteSpace (s : string) : bool :=
  match s with
  | EmptyString => true
  | String c s' => Js.isWhiteSpace c && allWhiteSpace s'
  end.

(** The record at position [i] may be selected at time [now] by a call
    that has tried the positions in [tried]. *)
Definition eligible (now : Z) (tried : gset nat) (ks : list KeyState)
    (i : nat) : Prop :=
  (i ∉ tried) /\
  exists k, ks !! i = Some k /\ isHealthy k = true /\ cooldownUntil k <= now.

(** [d] is the least remaining cooldown among the records cooling down
    at time [now]. *)
Definition leastRemainingCooldown (now : Z) (ks : list KeyState) (d : Z)
  : Prop :=
  (exists k, k ∈ ks /\ cooldownUntil k > now /\ d = cooldownUntil k - now) /\
  (forall k, k ∈ ks -> cooldownUntil k > now -> d <= cooldownUntil k - now).

(** The health of every record: its flag and its count of consecutive
    failures. *)
Definition healthOf (p : KeyPoolManager) : list (bool * Z) :=
  map (fun k => (isHealthy k, failCount k)) (keys p).

(** All failures delivered by a schedule are classified as rate limits. *)
Definition onlyRateLimitFailures {T} (a : Action T) : Prop :=
  match a with
  | Deliver _ _ (Rejected error) => isRateLimitError error = true
  | _ => True
  end.

(* ------------------------------------------------------------------ *)
(** *** Two concrete histories of a one-key pool *)

Definition oneKeyPool : KeyPoolManager :=
  snd (initialize (lib := acceptingLibrary) "k1" newKeyPoolManager).

(** Its only record, as built. *)
Definition k1Record : KeyState := keyStateOf 0 "k1" (mkRettiwt "k1" false).

Definition genericError : JsError :=
  mkJsError (Some "socket hang up") CodeUndefined "Error: socket hang up".

(** Call number [cid], invoked at [now], fails on its only attempt a
    tenth of a second later. *)
Definition failingCall (cid : nat) (now : Z) : list (Action string) :=
  [Invoke now (Some "op"); Deliver cid (now + 100) (Rejected genericError)].

(** Five calls, each after the cooldown left by the one before, all
    failing: the key ends unhealthy.  A sixth call comes after the last
    cooldown has run out. *)
Definition fiveFailures : list (Action string) :=
  failingCall 0 1000 ++ failingCall 1 201000 ++ failingCall 2 401000
  ++ failingCall 3 601000 ++ failingCall 4 801000.

Definition sixthCall : Action string := Invoke 1001000 (Some "op").

(** Four failing calls, then two calls that overlap on the key: the
    first is still waiting for its operation when the second is invoked,
    and the second fails first. *)
Definition overlappingCalls : list (Action string) :=
  failingCall 0 1000 ++ failingCall 1 201000 ++ failingCall 2 401000
  ++ failingCall 3 601000
  ++ [Invoke 801000 (Some "first");
      Invoke 803000 (Some "second");
      Deliver 5 803100 (Rejected genericError)].

Definition firstSucceeds : Action string :=
  Deliver 4 803200 (Resolved "tweets").

(** The one-key pool while its key cools down after a first failure,
    and the first call in flight on a fresh pool. *)
Definition coolingPool : KeyPoolManager :=
  pool (run (mkSystem oneKeyPool []) (failingCall 0 1000)).

Definition firstAttempt : KeyPoolManager * Call string :=
  execute 1000 (Some "op") oneKeyPool.

(* ------------------------------------------------------------------ *)
(** *** Invariants of the shared pool *)

(** Every call that has thrown has thrown the exhaustion error, for a
    pool of [N] keys. *)
Definition onlyExhaustion {T} (N : nat) (s : System T) : Prop :=
  initialized (pool s) = true /\ length (keys (pool s)) = N /\ N <> 0%nat /\
  forall c e, c ∈ calls s -> status c = Settled (Abrupt e) ->
    e = JsErrorThrown (allKeysExhaustedText N (operationName c)).

(** The record at [i] is unhealthy and no call holds it. *)
Definition unhealthyAndFree {T} (i : nat) (s : System T) : Prop :=
  (exists f, healthOf (pool s) !! i = Some (false, f)) /\
  forall c, c ∈ calls s -> ~ holdsKey i c.

(** From [h] to [h']: no flag is cleared and no failure count grows. *)
Definition noDemotion (h h' : list (bool * Z)) : Prop :=
  forall i b f, h !! i = Some (b, f) ->
    exists b' f', h' !! i = Some (b', f') /\
      (b = true -> b' = true) /\ (f' = f \/ f' = 0).

Definition rateLimitError : JsError :=
  mkJsError (Some "Too Many Requests") (CodeNumber 429)
    "Error: Too Many Requests".

(** Every record carries its own position as its index. *)
Definition wellIndexed (p : KeyPoolManager) : Prop :=
  forall i k, keys p !! i = Some k -> index k = i.

(* ================================================================== *)
(** ** Status reporting *)
(* ================================================================== *)

(** One entry of [KeyPoolStats.keys]. *)
Record KeyStats := mkKeyStats {
  stat_index : nat;
  maskedKey : string;
  stat_isHealthy : bool;
  stat_isCoolingDown : bool;
  cooldownRemainingSec : Z;
  stat_totalRequests : Z;
  successRate : string;
  stat_rateLimitHits : Z;
  lastUsedAgo : string
}.

(** [interface KeyPoolStats] *)
Record KeyPoolStats := mkKeyPoolStats {
  totalKeys : nat;
  healthyKeys : nat;
  coolingDownKeys : nat;
  stats_currentIndex : nat;
  stats_keys : list KeyStats
}.

Section GetStats.

(** The three roundings of [getStats] divide in floating point; they are
    left to the two functions below, on which nothing proved here
    depends: [roundSeconds ms] stands for [Math.round(ms / 1000)] and
    [roundPercent a b] for [Math.round((a / b) * 100)]. *)
Variable roundSeconds : Z -> Z.
Variable roundPercent : Z -> Z -> Z.

Definition keyStats (now : Z) (k : KeyState) : KeyStats :=
  {| stat_index := index k;
     maskedKey := maskKey (key k);
     stat_isHealthy := isHealthy k;
     stat_isCoolingDown := isCoolingDown now k;
     cooldownRemainingSec :=
       if isCoolingDown now k then roundSeconds (cooldownUntil k - now) else 0;
     stat_totalRequests := totalRequests k;
     successRate :=
       if totalRequests k >? 0
       then pretty (roundPercent (successCount k) (totalRequests k)) +:+ "%"
       else "N/A";
     stat_rateLimitHits := rateLimitHits k;
     lastUsedAgo :=
       if lastUsedAt k >? 0
       then pretty (roundSeconds (now - lastUsedAt k)) +:+ "s ago"
       else "never" |}.

Definition getStats (now : Z) (p : KeyPoolManager) : KeyPoolStats :=
  {| totalKeys := length (keys p);
     healthyKeys :=
       length (List.filter
                 (fun k => isHealthy k && negb (isCoolingDown now k)) (keys p));
     coolingDownKeys := length (List.filter (isCoolingDown now) (keys p));
     stats_currentIndex := currentIndex p;
     stats_keys := map (keyStats now) (keys p) |}.

(** [POST /api/keys/reset]: [keyPool.resetAll()], then the report that
    goes into the response. *)
Definition postKeysReset (now : Z) (p : KeyPoolManager)
  : KeyPoolManager * KeyPoolStats :=
  let p := resetAll p in
  (p, getStats now p).

End GetStats.

(* ================================================================== *)
(** ** Configuration *)
(* ================================================================== *)

(** [process.env.X || '']: an unset or empty variable gives the empty
    string. *)
Definition envOrEmpty (v : option string) : string := orElse v EmptyString.

(** [config.twitterListIds]: [(env || '').split(',').filter(Boolean)];
    the empty string is the only falsy string. *)
Definition twitterListIds (env : option string) : list string :=
  List.filter (fun s => negb (String.eqb s EmptyString))
    (Js.split "," (envOrEmpty env)).

(** The service module initializes the pool when it is first imported:
    [keyPool.initialize(config.rettiwtApiKeys)]. *)
Definition initializeFromEnv {lib : RettiwtLibrary} (env : option string)
    (p : KeyPoolManager)
  : Completion unit * KeyPoolManager :=
  initialize (envOrEmpty env) p.

(* ================================================================== *)
(** ** Everything that can happen to the singleton pool *)
(* ================================================================== *)

(** Besides the steps of [execute] calls, the public methods that write
    to the manager. *)
Inductive Request (T : Type) :=
| FromCall (a : Action T)
| Initialize (apiKeys : string)
| ResetKey (index : Z)
| ResetAll.
Arguments FromCall {T} a.
Arguments Initialize {T} apiKeys.
Arguments ResetKey {T} index.
Arguments ResetAll {T}.

Definition serve {T} {lib : RettiwtLibrary} (s : System T) (r : Request T)
  : System T :=
  match r with
  | FromCall a => act s a
  | Initialize apiKeys =>
      mkSystem (snd (initialize apiKeys (pool s))) (calls s)
  | ResetKey index => mkSystem (resetKey index (pool s)) (calls s)
  | ResetAll => mkSystem (resetAll (pool s)) (calls s)
  end.

Definition serveAll {T} {lib : RettiwtLibrary} (s : System T)
    (requests : list (Request T)) : System T :=
  foldl serve s requests.

(** The states the process can be in: whatever a sequence of requests
    makes of the freshly constructed manager. *)
Definition reachable {T} {lib : RettiwtLibrary} (s : System T) : Prop :=
  exists requests, s = serveAll (mkSystem newKeyPoolManager []) requests.

(** Is call [c] waiting for its operation on the record at [i]? *)
Definition awaitsOperation {T} (i : nat) (c : Call T) : bool :=
  match status c with
  | Awaiting (OperationCall idx) => bool_decide (idx = i)
  | _ => false
  end.

(** The number of operations in flight on the record at [i]. *)
Definition inFlight {T} (i : nat) (cs : list (Call T)) : nat :=
  length (List.filter (awaitsOperation i) cs).

(** Every record of the pool is healthy and none is cooling down at
    time [now]. *)
Definition allAvailable (now : Z) (p : KeyPoolManager) : Prop :=
  forall k, k ∈ keys p -> isHealthy k = true /\ cooldownUntil k <= now.

(** One call that succeeds on its first attempt: invoked at [start],
    its request-delay timer, if it set one, fires at [wake], and its
    operation is fulfilled at [finish]. *)
Record CallData (T : Type) := mkCallData {
  cd_start : Z;
  cd_wake : Z;
  cd_finish : Z;
  cd_name : option string;
  cd_result : T
}.
Arguments mkCallData {T}.
Arguments cd_start {T}.
Arguments cd_wake {T}.
Arguments cd_finish {T}.
Arguments cd_name {T}.
Arguments cd_result {T}.

Definition successfulCall {T} (cid : nat) (d : CallData T) : list (Action T) :=
  [Invoke (cd_start d) (cd_name d);
   Deliver cid (cd_wake d) TimerFired;
   Deliver cid (cd_finish d) (Resolved (cd_result d))].

(** Calls one after the other, numbered from [cid]. *)
Fixpoint successfulCalls {T} (cid : nat) (ds : list (CallData T))
  : list (Action T) :=
  match ds with
  | [] => []
  | d :: ds' => successfulCall cid d ++ successfulCalls (S cid) ds'
  end.

(** How many of the offsets [0 .. m-1] from [start] land on position
    [i] of an array of length [N]. *)
Definition landings (N start m i : nat) : nat :=
  length (List.filter (fun j => ((start + j) mod N =? i)%nat) (seq 0 m)).

(** Is every character of [s] a comma or white space? *)
Fixpoint onlyCommasAndBlanks (s : string) : bool :=
  match s with
  | EmptyString => true
  | String c s' =>
      (Ascii.eqb c "," || Js.isWhiteSpace c) && onlyCommasAndBlanks s'
  end.

(** Is every character of [s] a comma? *)
Fixpoint onlyCommas (s : string) : bool :=
  match s with
  | EmptyString => true
  | String c s' => Ascii.eqb c "," && onlyCommas s'
  end.

(** The first and the last character of [s], if any, are not white
    space. *)
Definition noSurroundingBlanks (s : string) : Prop := Js.trim s = s.

(** What holds of every record at all times. *)
Definition recordSound (k : KeyState) : Prop :=
  0 <= failCount k /\ (isHealthy k = false <-> 5 <= failCount k) /\
  0 <= successCount k /\ 0 <= rateLimitHits k /\
  apiKey (instance k) = key k /\
  key k <> EmptyString /\ Js.includes "," (key k) = false /\
  noSurroundingBlanks (key k).

(** Every request sent on a record is accounted for: it has succeeded,
    hit a rate limit, failed otherwise, or is still in flight. *)
Definition accounted {T} (s : System T) : Prop :=
  forall i k, keys (pool s) !! i = Some k ->
    successCount k + rateLimitHits k + Z.of_nat (inFlight i (calls s))
    <= totalRequests k.

(** The tried-set of a call holds positions of the array, among them
    the position of the record the call holds. *)
Definition triedWithin {T} (N : nat) (c : Call T) : Prop :=
  (forall j, j ∈ triedKeys c -> (j < N)%nat) /\
  (forall idx, holdsKey idx c -> idx ∈ triedKeys c).

(** What holds of the pool and of the calls running on it at all
    times. *)
Definition sound {T} (s : System T) : Prop :=
  let p := pool s in
  let N := length (keys p) in
  Forall recordSound (keys p) /\
  wellIndexed p /\
  (initialized p = true -> keys p <> []) /\
  (initialized p = false ->
     keys p = [] /\ currentIndex p = 0%nat /\
     forall c, c ∈ calls s -> exists o, status c = Settled o) /\
  (keys p <> [] -> (currentIndex p < N)%nat) /\
  accounted s /\
  (forall c, c ∈ calls s -> triedWithin N c).

(** The only record of the one-key pool after its fifth failure in a
    row, and after the overlapping calls. *)
Definition unhealthyKey : KeyState :=
  mkKeyState "k1" 0 (mkRettiwt "k1" false) 5 0 5 0 921100 801000 801100
    (Some "socket hang up") false.

Definition overlappedKey : KeyState :=
  mkKeyState "k1" 0 (mkRettiwt "k1" false) 6 0 5 0 923100 803000 803100
    (Some "socket hang up") false.

Definition afterFiveFailures : System string :=
  serveAll (lib := acceptingLibrary) (mkSystem newKeyPoolManager [])
    (Initialize "k1" :: map FromCall fiveFailures).

Definition afterOverlappingCalls : System string :=
  serveAll (lib := acceptingLibrary) (mkSystem newKeyPoolManager [])
    (Initialize "k1" :: map FromCall overlappingCalls).

(** The pool after a call has taken the record under the cursor, sent
    its request at time [t] and seen it succeed. *)
Definition served (t : Z) (p : KeyPoolManager) : KeyPoolManager :=
  let N := length (keys p) in
  let idx := (currentIndex p mod N)%nat in
  set_consecutiveAllExhausted 0
    (onKey idx noteSuccess
       (onKey idx (noteRequest t)
          (set_currentIndex ((idx + 1) mod N)%nat p))).


(** A fresh pool of three keys and three calls in a row. *)
Definition threeKeyPool : KeyPoolManager :=
  snd (initialize (lib := acceptingLibrary) "a,b,c" newKeyPoolManager).

Definition threeCalls : list (CallData string) :=
  [mkCallData 1000 1000 1100 None "r0";
   mkCallData 2000 2000 2100 None "r1";
   mkCallData 3000 3000 3100 None "r2"].

(* ------------------------------------------------------------------ *)
(** *** One call failing over from key to key *)

(** An attempt that fails: the request-delay timer, if the call set
    one, fires at [wake], and the operation is rejected at [finish]
    with [error]. *)
Record Attempt := mkAttempt {
  at_wake : Z;
  at_finish : Z;
  at_error : JsError
}.

Definition failedAttempt {T} (cid : nat) (a : Attempt) : list (Action T) :=
  [Deliver cid (at_wake a) TimerFired;
   Deliver cid (at_finish a) (Rejected (at_error a))].

Fixpoint failedAttempts {T} (cid : nat) (fs : list Attempt)
  : list (Action T) :=
  match fs with
  | [] => []
  | a :: fs' => failedAttempt cid a ++ failedAttempts cid fs'
  end.

(** The attempt that succeeds. *)
Definition succeedingAttempt {T} (cid : nat) (wake finish : Z) (result : T)
  : list (Action T) :=
  [Deliver cid wake TimerFired; Deliver cid finish (Resolved result)].

(** When the request goes out, for a record taken at [now]: at once,
    or when the request-delay timer fires. *)
Definition sentAt (now wake : Z) (k : KeyState) : Z :=
  if (now - lastUsedAt k <? REQUEST_DELAY_MS) && (lastUsedAt k >? 0)
  then wake else now.

(** The pool after a call has taken, at [now], the record under the
    cursor, sent its request and seen it fail. *)
Definition failedOn (now : Z) (a : Attempt) (p : KeyPoolManager)
  : KeyPoolManager :=
  let N := length (keys p) in
  let idx := (currentIndex p mod N)%nat in
  match keys p !! idx with
  | Some k =>
      onKey idx (noteFailure (at_finish a) (at_error a))
        (onKey idx (noteRequest (sentAt now (at_wake a) k))
           (set_currentIndex ((idx + 1) mod N)%nat p))
  | None => p
  end.

(** The clock reading, the pool and the tried-set with which the loop
    test is reached after the attempts [fs] have failed in turn. *)
Fixpoint afterFailures (now : Z) (p : KeyPoolManager) (tried : gset nat)
    (fs : list Attempt) : Z * KeyPoolManager * gset nat :=
  match fs with
  | [] => (now, p, tried)
  | a :: fs' =>
      afterFailures (at_finish a) (failedOn now a p)
        ({[currentIndex p]} ∪ tried) fs'
  end.

(** A fresh pool of three keys, a call that fails on all of them, and
    one that fails on the first two. *)
Definition threeFailures : list Attempt :=
  [mkAttempt 1000 1100 genericError;
   mkAttempt 1200 1300 rateLimitError;
   mkAttempt 1400 1500 genericError].

Definition twoFailures : list Attempt :=
  [mkAttempt 1000 1100 genericError;
   mkAttempt 1200 1300 rateLimitError].

(** While the manager is not initialized it is as it was constructed,
    and every call made on it has thrown. *)
Definition pristine {T} (s : System T) : Prop :=
  initialized (pool s) = false ->
  pool s = newKeyPoolManager /\
  forall c, c ∈ calls s ->
    status c = Settled (Abrupt notInitializedError) /\ triedKeys c = ∅.

(** A manager whose initialization failed, then used all the same. *)
Definition neverInitialized : System string :=
  serveAll (lib := acceptingLibrary) (mkSystem newKeyPoolManager [])
    [Initialize " , "; FromCall (Invoke 1000 None); ResetAll; ResetKey 0;
     FromCall (Deliver 0 1100 TimerFired)].

(** One key, cooling down after a failure, and a second call that
    finds it so. *)
Definition sleepingSystem : System string :=
  serveAll (lib := acceptingLibrary) (mkSystem newKeyPoolManager [])
    [Initialize "k1"; FromCall (Invoke 1000 None);
     FromCall (Deliver 0 1100 (Rejected genericError));
     FromCall (Invoke 1200 (Some "timeline"))].

Definition sleepingCall : Call string :=
  mkCall "timeline" ∅ (Awaiting (SleepAllExhausted 30000)).

(** The first attempt of a call on the fresh pool of three keys. *)
Definition threeKeyAttempt : KeyPoolManager * Call string :=
  execute 1000 (Some "op") threeKeyPool.

(** The clock reading at which an action runs. *)
Definition actionTime {T} (a : Action T) : Z :=
  match a with
  | Invoke now _ => now
  | Deliver _ now _ => now
  end.

(** The record at [i] is [k], and no call holds it. *)
Definition untouchedAndFree {T} (i : nat) (k : KeyState) (s : System T)
  : Prop :=
  keys (pool s) !! i = Some k /\ forall c, c ∈ calls s -> ~ holdsKey i c.

(** The first call in flight on the one-key pool, and what other calls
    do while its key cools down after the failure. *)
Definition firstInFlight : System string :=
  mkSystem (fst firstAttempt) [snd firstAttempt].

Definition whileCooling : list (Action string) :=
  [Invoke 50000 None; Deliver 1 80000 TimerFired; Invoke 90000 (Some "b")].

(* ================================================================== *)
(** ** String lemmas *)
(* ================================================================== *)

#[local] Arguments String.append : simpl nomatch.

Section StringFacts.

Lemma append_assoc (a b c : string) : (a +:+ b) +:+ c = a +:+ b +:+ c.
Proof. induction a as [|x a IH]; simpl; [done | by rewrite IH]. Qed.

Lemma append_empty_r (a : string) : a +:+ EmptyString = a.
Proof. induction a as [|x a IH]; simpl; [done | by rewrite IH]. Qed.

Lemma length_append (a b : string) :
  String.length (a +:+ b) = (String.length a + String.length b)%nat.
Proof. induction a as [|x a IH]; simpl; [done | by rewrite IH]. Qed.

Lemma startsWith_spec pat s :
  Js.startsWith pat s = true <-> exists post, s = pat +:+ post.
Proof.
  revert s. induction pat as [|a pat IH]; intros s; simpl.
  - split; [intros _; by exists s | done].
  - destruct s as [|b s].
    + split; [done | intros [post H]; discriminate H].
    + destruct (Ascii.eqb_spec a b) as [->|Hne].
      * rewrite IH. split; intros [post H]; exists post; [by rewrite H | by injection H].
      * split; [done | intros [post H]; injection H; intros _ E; by destruct Hne].
Qed.

Lemma includes_spec pat s :
  Js.includes pat s = true <-> exists pre post, s = pre +:+ pat +:+ post.
Proof.
  induction s as [|c s IH].
  - simpl. destruct (Js.startsWith pat EmptyString) eqn:E.
    + apply startsWith_spec in E as [post E]. split; [intros _|done].
      by exists EmptyString, post.
    + split; [done|]. intros (pre & post & H).
      destruct pre; simpl in H; [|discriminate H].
      assert (Js.startsWith pat EmptyString = true) by (apply startsWith_spec; eauto).
      congruence.
  - cbn [Js.includes]. destruct (Js.startsWith pat (String c s)) eqn:E.
    + apply startsWith_spec in E as [post E]. split; [intros _|done].
      by exists EmptyString, post.
    + rewrite IH. split.
      * intros (pre & post & ->). by exists (String c pre), post.
      * intros (pre & post & H). destruct pre as [|x pre]; simpl in H.
        -- assert (Js.startsWith pat (String c s) = true)
             by (apply startsWith_spec; eauto).
           congruence.
        -- injection H as _ ->. by exists pre, post.
Qed.

Lemma toLowerCase_append a b :
  Js.toLowerCase (a +:+ b) = Js.toLowerCase a +:+ Js.toLowerCase b.
Proof. induction a as [|x a IH]; simpl; [done | by rewrite IH]. Qed.

Lemma toLowerCase_split s a b :
  Js.toLowerCase s = a +:+ b ->
  exists a' b', s = a' +:+ b' /\ Js.toLowerCase a' = a /\ Js.toLowerCase b' = b.
Proof.
  revert s. induction a as [|x a IH]; intros s H; simpl in H.
  - by exists EmptyString, s.
  - destruct s as [|c s]; simpl in H; [discriminate H|].
    injection H as Hc H. apply IH in H as (a' & b' & -> & <- & <-).
    exists (String c a'), b'. by rewrite <- Hc.
Qed.

Lemma equalIgnoringCase_lower s t :
  equalIgnoringCase s t <-> Js.toLowerCase s = Js.toLowerCase t.
Proof.
  split.
  - induction 1; simpl; congruence.
  - revert t. induction s as [|a s IH]; intros [|b t] H; simpl in H;
      try discriminate H.
    + constructor.
    + injection H as Hc H. constructor; auto.
Qed.

(** Searching the lower-cased text for a lower-case pattern finds the
    occurrences up to case. *)
Lemma includes_toLowerCase pat s :
  Js.toLowerCase pat = pat ->
  Js.includes pat (Js.toLowerCase s) = true <-> containsIgnoringCase pat s.
Proof.
  intros Hpat. rewrite includes_spec. split.
  - intros (pre & post & H).
    apply toLowerCase_split in H as (pre' & rest & -> & _ & H).
    apply toLowerCase_split in H as (mid & post' & -> & H & _).
    exists pre', mid, post'. split; [done|].
    apply equalIgnoringCase_lower. by rewrite Hpat.
  - intros (pre & mid & post & -> & H).
    apply equalIgnoringCase_lower in H. rewrite Hpat in H.
    exists (Js.toLowerCase pre), (Js.toLowerCase post).
    by rewrite !toLowerCase_append, H.
Qed.




End StringFacts.

(* ================================================================== *)
(** ** The classifier and the mask *)
(* ================================================================== *)

(** C5. [isRateLimitError] answers [true] exactly for the errors whose
    message contains, up to case, "rate limit" or "too many requests",
    or whose code is the number 88 or the number 429; for every other
    error, among them those whose code is not a number or whose message
    is absent, it answers [false]. *)
Theorem isRateLimitError_iff (error : JsError) :
  isRateLimitError error = true <->
    (exists m, message error = Some m /\ containsIgnoringCase "rate limit" m)
    \/ (exists m, message error = Some m
                  /\ containsIgnoringCase "too many requests" m)
    \/ code error = CodeNumber 88
    \/ code error = CodeNumber 429.
Proof.
  assert (Hmsg : forall pat, pat <> EmptyString -> Js.toLowerCase pat = pat ->
            Js.includes pat (Js.toLowerCase (orElse (message error) EmptyString)) = true
            <-> exists m, message error = Some m /\ containsIgnoringCase pat m).
  { intros pat Hne Hlow. rewrite (includes_toLowerCase _ _ Hlow).
    destruct (message error) as [[|c m]|]; simpl.
    - split.
      + intros (pre & mid & post & H & Hmid).
        destruct pre, mid; simpl in H; try discriminate H.
        inversion Hmid; subst. by destruct Hne.
      + intros (m & [= <-] & H). exact H.
    - split; [intros H; eauto | intros (m' & [= <-] & H); exact H].
    - split.
      + intros (pre & mid & post & H & Hmid).
        destruct pre, mid; simpl in H; try discriminate H.
        inversion Hmid; subst. by destruct Hne.
      + intros (m & [=] & _). }
  unfold isRateLimitError.
  rewrite !orb_true_iff, !Hmsg by done.
  destruct (code error) as [|n|s].
  - intuition discriminate.
  - rewrite !Z.eqb_eq. intuition (try congruence).
  - intuition discriminate.
Qed.



(* ================================================================== *)
(** ** The selector *)
(* ================================================================== *)

Section Selector.

Lemma isCoolingDown_false now k :
  isCoolingDown now k = false <-> cooldownUntil k <= now.
Proof. unfold isCoolingDown. rewrite Z.gtb_ltb, Z.ltb_ge. done. Qed.

Lemma isCoolingDown_true now k :
  isCoolingDown now k = true <-> cooldownUntil k > now.
Proof. unfold isCoolingDown. rewrite Z.gtb_ltb, Z.ltb_lt. lia. Qed.

(** Every position is met by a circular scan of the whole array. *)
Lemma circular_scan_covers (N start i : nat) :
  (i < N)%nat -> exists b, (b < N)%nat /\ ((start + b) mod N)%nat = i.
Proof.
  intros Hi.
  assert (Hr : (start mod N < N)%nat) by (apply Nat.mod_upper_bound; lia).
  destruct (le_lt_dec (start mod N) i) as [Hle|Hlt].
  - exists (i - start mod N)%nat. split; [lia|].
    rewrite <- Nat.Div0.add_mod_idemp_l.
    replace (start mod N + (i - start mod N))%nat with i by lia.
    by apply Nat.mod_small.
  - exists (i + N - start mod N)%nat. split; [lia|].
    rewrite <- Nat.Div0.add_mod_idemp_l.
    replace (start mod N + (i + N - start mod N))%nat with (i + 1 * N)%nat by lia.
    rewrite Nat.Div0.mod_add. by apply Nat.mod_small.
Qed.

Lemma scanKeys_spec now ks tried start n attempt :
  match scanKeys now ks tried start attempt n with
  | Some (idx, k) =>
      exists a, (attempt <= a < attempt + n)%nat /\
        idx = ((start + a) mod length ks)%nat /\
        ks !! idx = Some k /\
        eligible now tried ks idx /\
        forall b, (attempt <= b < a)%nat ->
          ~ eligible now tried ks ((start + b) mod length ks)%nat
  | None =>
      forall b, (attempt <= b < attempt + n)%nat ->
        ~ eligible now tried ks ((start + b) mod length ks)%nat
  end.
Proof.
  revert attempt. induction n as [|n IH]; intros attempt; simpl.
  - intros b Hb. lia.
  - set (idx := ((start + attempt) mod length ks)%nat).
    assert (Hskip : ~ eligible now tried ks idx ->
      match scanKeys now ks tried start (S attempt) n with
      | Some (idx', k) =>
          exists a, (attempt <= a < attempt + S n)%nat /\
            idx' = ((start + a) mod length ks)%nat /\
            ks !! idx' = Some k /\
            eligible now tried ks idx' /\
            forall b, (attempt <= b < a)%nat ->
              ~ eligible now tried ks ((start + b) mod length ks)%nat
      | None =>
          forall b, (attempt <= b < attempt + S n)%nat ->
            ~ eligible now tried ks ((start + b) mod length ks)%nat
      end).
    { intros Hne. specialize (IH (S attempt)).
      destruct (scanKeys now ks tried start (S attempt) n) as [[idx' k']|].
      - destruct IH as (a & Ha & Hidx & Hk & Hel & Hmin).
        exists a. split_and!; try done; try lia.
        intros b Hb. destruct (decide (b = attempt)) as [->|]; [done|].
        apply Hmin. lia.
      - intros b Hb. destruct (decide (b = attempt)) as [->|]; [done|].
        apply IH. lia. }
    destruct (ks !! idx) as [k|] eqn:Hk.
    + case_bool_decide as Htried.
      { apply Hskip. intros [Hnot _]. done. }
      destruct (isHealthy k) eqn:Hh; simpl.
      2:{ apply Hskip. intros (_ & k' & Hk' & Hh' & _). congruence. }
      destruct (isCoolingDown now k) eqn:Hc.
      { apply Hskip. intros (_ & k' & Hk' & _ & Hc').
        apply isCoolingDown_true in Hc. assert (k' = k) by congruence.
        subst. lia. }
      exists attempt. split_and!; try done; try lia.
      split; [done|]. exists k. split_and!; try done.
      by apply isCoolingDown_false.
    + intros b _ (_ & k & Hb & _).
      apply lookup_ge_None in Hk. apply lookup_lt_Some in Hb.
      destruct (decide (length ks = 0%nat)) as [E|E]; [lia|].
      pose proof (Nat.mod_upper_bound (start + attempt) _ E). fold idx in H. lia.
Qed.

End Selector.

(** C1. [getNextAvailableKey] scans the positions in circular order from
    the cursor and returns the first one that is not in the tried-set,
    healthy and not cooling down, moving the cursor to the position after
    it before returning; it returns nothing exactly when no position of
    the array is eligible, and leaves the manager as it was then. *)
Theorem getNextAvailableKey_spec (now : Z) (tried : gset nat)
    (p : KeyPoolManager) :
  let N := length (keys p) in
  match getNextAvailableKey now tried p with
  | (Some (idx, k), p') =>
      exists a, (a < N)%nat /\
        idx = ((currentIndex p + a) mod N)%nat /\
        keys p !! idx = Some k /\
        eligible now tried (keys p) idx /\
        (forall b, (b < a)%nat ->
           ~ eligible now tried (keys p) ((currentIndex p + b) mod N)%nat) /\
        p' = set_currentIndex ((idx + 1) mod N)%nat p
  | (None, p') =>
      (forall i, (i < N)%nat -> ~ eligible now tried (keys p) i) /\ p' = p
  end.
Proof.
  intros N. unfold getNextAvailableKey.
  pose proof (scanKeys_spec now (keys p) tried (currentIndex p)
                (length (keys p)) 0) as H.
  destruct (scanKeys now (keys p) tried (currentIndex p) 0 (length (keys p)))
    as [[idx k]|].
  - destruct H as (a & Ha & Hidx & Hk & Hel & Hmin).
    exists a. split_and!; try done; try lia.
    intros b Hb. apply Hmin. lia.
  - split; [|done]. intros i Hi.
    destruct (circular_scan_covers N (currentIndex p) i Hi) as (b & Hb & <-).
    apply H. fold N. lia.
Qed.

(* ================================================================== *)
(** ** Initialization *)
(* ================================================================== *)

Section Parsing.

(** [split] always returns at least one piece. *)
Lemma split_cons sep s : exists piece rest, Js.split sep s = piece :: rest.
Proof.
  destruct s as [|c s]; simpl; [by eexists _, _|].
  destruct (Ascii.eqb c sep); [by eexists _, _|].
  destruct (Js.split sep s); by eexists _, _.
Qed.

(** Joining the pieces with the separator gives the text back. *)
Lemma split_concat sep s :
  String.concat (String sep EmptyString) (Js.split sep s) = s.
Proof.
  induction s as [|c s IH]; [done|].
  cbn [Js.split]. destruct (split_cons sep s) as (piece & rest & E).
  rewrite E in *. destruct (Ascii.eqb_spec c sep) as [->|Hne].
  - transitivity (String sep (String.concat (String sep EmptyString) (piece :: rest)));
      [reflexivity | by rewrite IH].
  - transitivity (String c (String.concat (String sep EmptyString) (piece :: rest)));
      [by destruct rest | by rewrite IH].
Qed.

Lemma trimStart_spec s :
  exists ws, s = ws +:+ Js.trimStart s /\ allWhiteSpace ws = true.
Proof.
  induction s as [|c s (ws & IH & Hws)]; simpl.
  - by exists EmptyString.
  - destruct (Js.isWhiteSpace c) eqn:Hc.
    + exists (String c ws). simpl. rewrite Hc, Hws. by rewrite <- IH.
    + by exists EmptyString.
Qed.

Lemma trimEnd_spec s :
  exists ws, s = Js.trimEnd s +:+ ws /\ allWhiteSpace ws = true.
Proof.
  induction s as [|c s (ws & IH & Hws)]; simpl.
  - by exists EmptyString.
  - destruct (Js.trimEnd s) as [|d t] eqn:E.
    + destruct (Js.isWhiteSpace c) eqn:Hc.
      * exists (String c ws). simpl in *. rewrite Hc, Hws.
        split; [congruence | done].
      * exists ws. simpl in *. split; [congruence | done].
    + exists ws. simpl in *. split; [congruence | done].
Qed.

(** [trim] removes white space at both ends and nothing else. *)
Lemma trim_spec s :
  exists l r, s = l +:+ Js.trim s +:+ r /\
              allWhiteSpace l = true /\ allWhiteSpace r = true.
Proof.
  destruct (trimStart_spec s) as (l & Hs & Hl).
  destruct (trimEnd_spec (Js.trimStart s)) as (r & Ht & Hr).
  exists l, r. unfold Js.trim. by rewrite <- Ht, <- Hs.
Qed.

Lemma trim_allWhiteSpace s : allWhiteSpace s = true -> Js.trim s = EmptyString.
Proof.
  unfold Js.trim. induction s as [|c s IH]; simpl; [done|].
  intros [Hc Hs]%andb_true_iff. rewrite Hc. auto.
Qed.

Lemma split_allWhiteSpace s :
  allWhiteSpace s = true -> Js.split "," s = [s].
Proof.
  induction s as [|c s IH]; simpl; [done|].
  intros [Hc Hs]%andb_true_iff.
  destruct (Ascii.eqb_spec c ",") as [->|_]; [discriminate Hc|].
  by rewrite IH.
Qed.

Lemma parseKeyList_allWhiteSpace s :
  allWhiteSpace s = true -> parseKeyList s = [].
Proof.
  intros Hs. unfold parseKeyList.
  rewrite split_allWhiteSpace by done. simpl.
  by rewrite trim_allWhiteSpace.
Qed.

End Parsing.

Section Construction.
Context {lib : RettiwtLibrary}.

Lemma newKeyState_Normal i entry k :
  newKeyState i entry = Normal k
  <-> constructorThrows entry = None /\
      k = keyStateOf i entry (mkRettiwt entry false).
Proof.
  unfold newKeyState, newRettiwt.
  destruct (constructorThrows entry); split.
  - done.
  - by intros [? _].
  - intros [= <-]. by split.
  - by intros [_ ->].
Qed.

Lemma newKeyState_Abrupt i entry e :
  newKeyState i entry = Abrupt e <-> constructorThrows entry = Some e.
Proof.
  unfold newKeyState, newRettiwt.
  destruct (constructorThrows entry); split; congruence.
Qed.

(** The records built when the constructor accepts every entry. *)
Lemma mapKeys_accepted keyList :
  forall i,
    Forall (fun entry => constructorThrows entry = None) keyList ->
    mapKeys i keyList
    = Normal (imap (fun j entry =>
                      keyStateOf (i + j) entry (mkRettiwt entry false))
                keyList).
Proof.
  induction keyList as [|entry rest IH]; intros i Hall; [done|].
  apply Forall_cons in Hall as [Hentry Hrest].
  cbn [mapKeys]. unfold newKeyState, newRettiwt. rewrite Hentry.
  rewrite (IH (S i) Hrest). cbn [imap]. rewrite Nat.add_0_r.
  do 2 f_equal. apply imap_ext. intros j x _. cbn. f_equal. lia.
Qed.

(** The first entry the constructor refuses ends the [map]. *)
Lemma mapKeys_refused before entry after e :
  forall i,
    Forall (fun entry' => constructorThrows entry' = None) before ->
    constructorThrows entry = Some e ->
    mapKeys i (before ++ entry :: after)%list = Abrupt e.
Proof.
  induction before as [|b before IH]; intros i Hall He.
  - cbn [app mapKeys]. unfold newKeyState, newRettiwt. by rewrite He.
  - apply Forall_cons in Hall as [Hb Hrest].
    cbn [app mapKeys]. unfold newKeyState, newRettiwt. rewrite Hb.
    by rewrite (IH (S i) Hrest He).
Qed.

Lemma mapKeys_cases (keyList : list string) :
  Forall (fun entry => constructorThrows entry = None) keyList \/
  exists before entry after e,
    keyList = (before ++ entry :: after)%list /\
    Forall (fun entry' => constructorThrows entry' = None) before /\
    constructorThrows entry = Some e.
Proof.
  induction keyList as [|entry rest IH]; [by left|].
  destruct (constructorThrows entry) as [e|] eqn:He.
  - right. by exists [], entry, rest, e.
  - destruct IH as [Hall|(before & x & after & e & -> & Hb & Hx)].
    + left. by constructor.
    + right. exists (entry :: before), x, after, e. split_and!; try done.
      by constructor.
Qed.

(** The three ways [initialize] can end. *)
Lemma initialize_cases apiKeys p :
  (initialized p = true /\ initialize apiKeys p = (Normal tt, p)) \/
  (initialized p = false /\ exists e, initialize apiKeys p = (Abrupt e, p)) \/
  (initialized p = false /\ parseKeyList apiKeys <> [] /\
   Forall (fun entry => constructorThrows entry = None) (parseKeyList apiKeys) /\
   initialize apiKeys p
   = (Normal tt,
      set_initialized true
        (set_keys
           (imap (fun j entry => keyStateOf j entry (mkRettiwt entry false))
              (parseKeyList apiKeys)) p))).
Proof.
  unfold initialize. destruct (initialized p); [by left|]. right.
  destruct (parseKeyList apiKeys) as [|entry rest] eqn:E.
  { left. split; [done|]. by eexists. }
  cbn [length Nat.eqb].
  destruct (mapKeys_cases (entry :: rest))
    as [Hall|(before & x & after & e & Hl & Hb & Hx)].
  - right. rewrite (mapKeys_accepted _ 0 Hall). by split_and!.
  - left. rewrite Hl, (mapKeys_refused _ _ _ _ 0 Hb Hx).
    split; [done|]. by eexists.
Qed.

End Construction.

(** C7, the case the claim leaves out: the constructor of the client
    refuses a key.  The text holds two entries, yet no record is
    created: [initialize] throws what the constructor has thrown, which
    is not the configuration error, and the manager stays as it was. *)
Lemma initialize_fails_when_a_key_is_refused :
  parseKeyList " k1, ,k2 " = ["k1"; "k2"] /\
  initialize (lib := refusingLibrary) " k1, ,k2 " newKeyPoolManager
  = (Abrupt invalidAuthenticationData, newKeyPoolManager) /\
  invalidAuthenticationData <> noKeysError.
Proof. split_and!; [reflexivity | reflexivity | discriminate]. Qed.

(** C7. [initialize] on an initialized manager returns without changing
    anything.  Otherwise it splits the text at the commas, trims the
    pieces and drops the empty ones; when nothing is left, as for an
    empty or all-blank text, it throws the configuration error and the
    manager stays as it was, uninitialized; else, when the constructor
    of the client accepts every entry, it stores one record per entry,
    in order, the record at position [i] carrying entry [i], index [i],
    the healthy flag, no cooldown and zeroed counters; and when the
    constructor refuses an entry, it throws what the constructor has
    thrown on the first such entry, and the manager stays as it was. *)
Theorem initialize_spec {lib : RettiwtLibrary} (apiKeys : string)
    (p : KeyPoolManager) :
  (initialized p = true -> initialize apiKeys p = (Normal tt, p)) /\
  (initialized p = false ->
     let keyList :=
       List.filter (fun k => negb (String.eqb k EmptyString))
         (map Js.trim (Js.split "," apiKeys)) in
     (allWhiteSpace apiKeys = true -> keyList = []) /\
     (keyList = [] ->
        initialize apiKeys p = (Abrupt noKeysError, p)) /\
     (keyList <> [] ->
      (forall entry, entry ∈ keyList -> constructorThrows entry = None) ->
        exists p', initialize apiKeys p = (Normal tt, p') /\
          initialized p' = true /\
          currentIndex p' = currentIndex p /\
          consecutiveAllExhausted p' = consecutiveAllExhausted p /\
          length (keys p') = length keyList /\
          forall i entry, keyList !! i = Some entry ->
            exists k, keys p' !! i = Some k /\
              key k = entry /\ index k = i /\ apiKey (instance k) = entry /\
              isHealthy k = true /\ cooldownUntil k = 0 /\
              totalRequests k = 0 /\ successCount k = 0 /\ failCount k = 0 /\
              rateLimitHits k = 0 /\ lastUsedAt k = 0 /\ lastErrorAt k = 0 /\
              lastError k = None) /\
     (forall before entry after e,
        keyList = (before ++ entry :: after)%list ->
        (forall entry', entry' ∈ before -> constructorThrows entry' = None) ->
        constructorThrows entry = Some e ->
        initialize apiKeys p = (Abrupt e, p))).
Proof.
  assert (Hlist : List.filter (fun k => negb (String.eqb k EmptyString))
                    (map Js.trim (Js.split "," apiKeys)) = parseKeyList apiKeys).
  { unfold parseKeyList. apply List.filter_ext. by intros [|c s]. }
  unfold initialize. split; intros Hinit; rewrite Hinit; [done|].
  cbv zeta. rewrite Hlist. split_and!.
  - apply parseKeyList_allWhiteSpace.
  - by intros ->.
  - intros Hne Hall. destruct (parseKeyList apiKeys) as [|e l] eqn:E; [done|].
    cbn [length Nat.eqb]. rewrite (mapKeys_accepted _ 0).
    2:{ by apply Forall_forall. }
    eexists. split; [done|]. split_and!; try done.
    + cbn [set_initialized set_keys keys]. by rewrite length_imap.
    + intros i entry Hi.
      exists (keyStateOf i entry (mkRettiwt entry false)).
      split; [|done]. cbn [set_initialized set_keys keys].
      by rewrite list_lookup_imap, Hi.
  - intros before entry after e Hl Hb He. rewrite Hl.
    rewrite (mapKeys_refused _ _ _ _ 0 (proj2 (Forall_forall _ _) Hb) He).
    by destruct before.
Qed.

Lemma initialize_spec_witness :
  initialize (lib := acceptingLibrary) "k1"
    (set_initialized true newKeyPoolManager)
  = (Normal tt, set_initialized true newKeyPoolManager)
  /\ initialize (lib := acceptingLibrary) " ,  " newKeyPoolManager
     = (Abrupt noKeysError, newKeyPoolManager)
  /\ (exists p',
        initialize (lib := acceptingLibrary) " k1, ,k2 " newKeyPoolManager
        = (Normal tt, p')
        /\ length (keys p') = 2%nat)
  /\ initialize (lib := refusingLibrary) " k1, ,k2 " newKeyPoolManager
     = (Abrupt invalidAuthenticationData, newKeyPoolManager).
Proof.
  split_and!.
  - apply (proj1 (initialize_spec (lib := acceptingLibrary) "k1"
                    (set_initialized true newKeyPoolManager))).
    reflexivity.
  - apply (proj2 (initialize_spec (lib := acceptingLibrary) " ,  "
                    newKeyPoolManager)); reflexivity.
  - destruct (proj2 (initialize_spec (lib := acceptingLibrary) " k1, ,k2 "
                       newKeyPoolManager))
      as (_ & _ & H & _); [reflexivity|].
    destruct H as (p' & Hp' & _ & _ & _ & Hlen & _);
      [discriminate | reflexivity |].
    exists p'. split; [exact Hp' | exact Hlen].
  - destruct (proj2 (initialize_spec (lib := refusingLibrary) " k1, ,k2 "
                       newKeyPoolManager))
      as (_ & _ & _ & H); [reflexivity|].
    apply (H [] "k1" ["k2"]); [reflexivity | | reflexivity].
    intros entry Hentry. by apply elem_of_nil in Hentry.
Defined.

(* ================================================================== *)
(** ** The retry loop: what each segment does to the pool *)
(* ================================================================== *)

Section Segments.
Context {T : Type}.
Implicit Types (p : KeyPoolManager) (c : Call T) (tried : gset nat).

Lemma lookup_onKey idx f p :
  keys (onKey idx f p) !! idx = f <$> keys p !! idx.
Proof. apply list_lookup_alter_eq. Qed.

Lemma lookup_onKey_ne idx j f p :
  idx <> j -> keys (onKey idx f p) !! j = keys p !! j.
Proof. intros. by apply list_lookup_alter_ne. Qed.

Lemma length_onKey idx f p : length (keys (onKey idx f p)) = length (keys p).
Proof. apply length_alter. Qed.

(** A mutation that touches neither the flag nor the failure count. *)
Lemma healthOf_onKey_same idx f p :
  (forall k, isHealthy (f k) = isHealthy k /\ failCount (f k) = failCount k) ->
  healthOf (onKey idx f p) = healthOf p.
Proof.
  intros Hf. unfold healthOf. apply list_eq. intros j.
  rewrite !list_lookup_fmap.
  destruct (decide (idx = j)) as [<-|Hne].
  - rewrite lookup_onKey. destruct (keys p !! idx) as [k|]; [|done].
    simpl. by destruct (Hf k) as [-> ->].
  - by rewrite lookup_onKey_ne.
Qed.

Lemma healthOf_onKey idx f g p :
  (forall k, (isHealthy (f k), failCount (f k)) = g (isHealthy k, failCount k)) ->
  healthOf (onKey idx f p) = alter g idx (healthOf p).
Proof.
  intros Hf. unfold healthOf, onKey. cbn [keys set_keys].
  apply list_fmap_alter, Forall_forall. intros k _. apply Hf.
Qed.

Lemma healthOf_lookup p i :
  healthOf p !! i = (fun k => (isHealthy k, failCount k)) <$> keys p !! i.
Proof. unfold healthOf. apply list_lookup_fmap. Qed.

(** What the selector returns is a healthy record of the array that the
    call has not tried and that is not cooling down; only the cursor
    moves. *)
Lemma getNextAvailableKey_inv now tried p o p' :
  getNextAvailableKey now tried p = (o, p') ->
  keys p' = keys p /\ initialized p' = initialized p /\
  consecutiveAllExhausted p' = consecutiveAllExhausted p /\
  match o with
  | Some (idx, k) =>
      keys p !! idx = Some k /\ eligible now tried (keys p) idx /\
      isHealthy k = true /\
      currentIndex p' = ((idx + 1) mod length (keys p))%nat
  | None =>
      currentIndex p' = currentIndex p /\
      forall i, (i < length (keys p))%nat -> ~ eligible now tried (keys p) i
  end.
Proof.
  unfold getNextAvailableKey.
  pose proof (scanKeys_spec now (keys p) tried (currentIndex p)
                (length (keys p)) 0) as H.
  destruct (scanKeys now (keys p) tried (currentIndex p) 0 (length (keys p)))
    as [[idx k]|]; intros [= <- <-]; split_and!; try done.
  - destruct H as (a & _ & _ & Hk & _). done.
  - destruct H as (a & _ & _ & _ & Hel & _). done.
  - destruct H as (a & _ & _ & Hk & (_ & k' & Hk' & Hh & _) & _). congruence.
  - intros i Hi.
    destruct (circular_scan_covers _ (currentIndex p) i Hi) as (b & Hb & <-).
    apply H. lia.
Qed.

Lemma sendRequest_inv now idx p name tried p' c' :
  sendRequest now idx p name tried = (p', c') ->
  length (keys p') = length (keys p) /\ initialized p' = initialized p /\
  healthOf p' = healthOf p /\
  c' = mkCall name tried (Awaiting (OperationCall idx)).
Proof.
  unfold sendRequest. intros [= <- <-]. split_and!; try done.
  - by rewrite length_onKey.
  - by rewrite healthOf_onKey_same.
Qed.

(** One pass from the loop test to the next suspension: the health of
    every record is left alone, the call cannot complete normally, can
    only throw the exhaustion error, and can only take hold of a healthy
    record. *)
Lemma loopHead_inv now p name tried p' c' :
  loopHead now p name tried = (p', c') ->
  length (keys p') = length (keys p) /\ initialized p' = initialized p /\
  healthOf p' = healthOf p /\
  operationName c' = name /\
  match status c' with
  | Settled (Normal _) => False
  | Settled (Abrupt e) => e = allKeysExhaustedError p name
  | Awaiting (SleepAllExhausted _) => True
  | Awaiting (SleepRequestDelay idx _) | Awaiting (OperationCall idx) =>
      exists k, keys p !! idx = Some k /\ isHealthy k = true
  end.
Proof.
  unfold loopHead. case_bool_decide as Hsize.
  2:{ intros [= <- <-]. by split_and!. }
  destruct (getNextAvailableKey now tried p) as [o p1] eqn:Hsel.
  apply getNextAvailableKey_inv in Hsel as (Hkeys & Hinit & Hexh & Ho).
  assert (Herr : forall name, allKeysExhaustedError p1 name
                              = allKeysExhaustedError p name).
  { intros. unfold allKeysExhaustedError. by rewrite Hkeys. }
  assert (Hhealth : healthOf p1 = healthOf p).
  { unfold healthOf. by rewrite Hkeys. }
  destruct o as [[idx k]|].
  - destruct Ho as (Hk & _ & Hh & _).
    destruct (_ && _).
    + intros [= <- <-]. cbn [status operationName].
      split_and!; try done; try congruence. by exists k.
    + intros (Hlen & Hi & Hhp & ->)%sendRequest_inv. cbn [status operationName].
      split_and!; try congruence. by exists k.
  - destruct (getNextCooldownEnd now p1 >? 0).
    + intros [= <- <-]. cbn [status operationName].
      split_and!; try done; try congruence; try exact Hhealth.
      by rewrite <- Hkeys.
    + intros [= <- <-]. cbn [status operationName].
      split_and!; try done; try congruence.
Qed.

End Segments.

(* ================================================================== *)
(** ** Waiting for the earliest cooldown *)
(* ================================================================== *)

Section Cooldowns.

Lemma Math_min_spec x xs :
  In (Math_min x xs) (x :: xs) /\
  forall y, In y (x :: xs) -> Math_min x xs <= y.
Proof.
  unfold Math_min. revert x. induction xs as [|z xs IH]; intros x.
  - simpl. split; [by left | intros y [<-|[]]; lia].
  - cbn [foldl]. destruct (IH (Z.min x z)) as [Hin Hle]. split.
    + destruct Hin as [Hin|Hin].
      * rewrite <- Hin. destruct (Z.min_spec x z) as [[_ ->]|[_ ->]];
          [by left | by right; left].
      * by right; right.
    + intros y Hy.
      assert (Hm : foldl Z.min (Z.min x z) xs <= Z.min x z) by (apply Hle; by left).
      destruct Hy as [<-|[<-|Hy]]; [lia | lia | apply Hle; by right].
Qed.

Lemma getNextCooldownEnd_none now p :
  (forall k, k ∈ keys p -> cooldownUntil k <= now) ->
  getNextCooldownEnd now p = 0.
Proof.
  intros Hnone. unfold getNextCooldownEnd.
  destruct (List.filter _ (keys p)) as [|k l] eqn:E; [done|].
  assert (Hk : In k (List.filter (fun k => cooldownUntil k >? now) (keys p)))
    by (rewrite E; by left).
  apply List.filter_In in Hk as [Hk Hc%isCoolingDown_true].
  apply list_elem_of_In, Hnone in Hk. lia.
Qed.

Lemma getNextCooldownEnd_cooling now p :
  (exists k, k ∈ keys p /\ cooldownUntil k > now) ->
  getNextCooldownEnd now p > 0 /\
  leastRemainingCooldown now (keys p) (getNextCooldownEnd now p).
Proof.
  intros (k0 & Hk0 & Hc0). unfold getNextCooldownEnd.
  set (cooling := List.filter (fun k => cooldownUntil k >? now) (keys p)).
  assert (Hcooling : forall k, In k cooling <-> k ∈ keys p /\ cooldownUntil k > now).
  { intros k. unfold cooling. rewrite List.filter_In, <- list_elem_of_In.
    by rewrite (isCoolingDown_true now k). }
  assert (H0 : In (cooldownUntil k0) (map cooldownUntil cooling)).
  { apply in_map. by apply Hcooling. }
  destruct (map cooldownUntil cooling) as [|c cs] eqn:E; [destruct H0|].
  destruct (Math_min_spec c cs) as [Hin Hle]. rewrite <- E in Hin, Hle.
  apply in_map_iff in Hin as (k & Hk & [Hkin Hkc]%Hcooling).
  split; [lia|]. split.
  - exists k. split_and!; [done | done | lia].
  - intros k' Hk' Hc'.
    assert (Math_min c cs <= cooldownUntil k'); [|lia].
    apply Hle, in_map. by apply Hcooling.
Qed.

End Cooldowns.

(** C3. When the loop is entered and the selector finds nothing: if some
    record is cooling down, the call increments the exhaustion counter
    and sleeps for the least remaining cooldown, capped at 30 seconds,
    and when the timer fires it goes back to the loop test with an empty
    tried-set instead of failing; if no record is cooling down, it leaves
    the loop and throws the exhaustion error. *)
Theorem all_keys_exhausted_wait {T : Type} (now : Z) (p : KeyPoolManager)
    (name : string) (tried : gset nat) :
  (size tried < length (keys p))%nat ->
  fst (getNextAvailableKey now tried p) = None ->
  ((exists k, k ∈ keys p /\ cooldownUntil k > now) ->
     exists d, leastRemainingCooldown now (keys p) d /\
       loopHead (T := T) now p name tried =
         (set_consecutiveAllExhausted (consecutiveAllExhausted p + 1) p,
          mkCall name tried (Awaiting (SleepAllExhausted (Z.min d 30000)))) /\
       forall now' p' (c : Call T),
         status c = Awaiting (SleepAllExhausted (Z.min d 30000)) ->
         resume now' TimerFired p' c = loopHead now' p' (operationName c) ∅) /\
  ((forall k, k ∈ keys p -> cooldownUntil k <= now) ->
     loopHead (T := T) now p name tried =
       (p, mkCall name tried
             (Settled (Abrupt (JsErrorThrown
                (allKeysExhaustedText (length (keys p)) name)))))).
Proof.
  intros Hsize Hnone. unfold loopHead.
  rewrite bool_decide_eq_true_2 by done.
  destruct (getNextAvailableKey now tried p) as [o p1] eqn:Hsel.
  simpl in Hnone. subst o.
  apply getNextAvailableKey_inv in Hsel as (Hkeys & Hinit & Hexh & Hcur & _).
  assert (p1 = p) as -> by (destruct p1, p; simpl in *; congruence).
  split.
  - intros Hcool. destruct (getNextCooldownEnd_cooling now p Hcool) as [Hpos Hmin].
    exists (getNextCooldownEnd now p). split; [done|].
    rewrite (proj2 (Z.gtb_gt _ _)) by lia. split; [done|].
    intros now' p' c Hc. unfold resume. by rewrite Hc.
  - intros Hnocool. by rewrite (getNextCooldownEnd_none now p Hnocool).
Qed.

Lemma all_keys_exhausted_wait_witness :
  (exists d, leastRemainingCooldown 2000 (keys coolingPool) d /\
     loopHead (T := string) 2000 coolingPool "op" ∅ =
       (set_consecutiveAllExhausted 1 coolingPool,
        mkCall "op" ∅ (Awaiting (SleepAllExhausted (Z.min d 30000))))).
Proof.
  destruct (all_keys_exhausted_wait (T := string) 2000 coolingPool "op" ∅)
    as [H _].
  - vm_compute. lia.
  - reflexivity.
  - destruct H as (d & Hd & Hloop & _).
    + eexists. split; [apply (list_elem_of_lookup_2 _ 0%nat); reflexivity|].
      vm_compute. reflexivity.
    + exists d. split; [exact Hd | exact Hloop].
Defined.

(* ================================================================== *)
(** ** The shape of every segment *)
(* ================================================================== *)

Section Shapes.
Context {T : Type}.
Implicit Types (p : KeyPoolManager) (c : Call T) (tried : gset nat).

(** The two outcomes of the selector, with everything known in each. *)
Lemma selector_cases now tried p :
  let N := length (keys p) in
  (getNextAvailableKey now tried p = (None, p) /\
   forall i, (i < N)%nat -> ~ eligible now tried (keys p) i) \/
  (exists a idx k, (a < N)%nat /\
     idx = ((currentIndex p + a) mod N)%nat /\
     keys p !! idx = Some k /\
     eligible now tried (keys p) idx /\
     (forall b, (b < a)%nat ->
        ~ eligible now tried (keys p) ((currentIndex p + b) mod N)%nat) /\
     getNextAvailableKey now tried p
     = (Some (idx, k), set_currentIndex ((idx + 1) mod N)%nat p)).
Proof.
  intros N. unfold getNextAvailableKey.
  pose proof (scanKeys_spec now (keys p) tried (currentIndex p)
                (length (keys p)) 0) as H.
  destruct (scanKeys now (keys p) tried (currentIndex p) 0 (length (keys p)))
    as [[idx k]|].
  - right. destruct H as (a & Ha & Hidx & Hk & Hel & Hmin).
    exists a, idx, k. split_and!; try done; try lia.
    intros b Hb. apply Hmin. lia.
  - left. split; [done|]. intros i Hi.
    destruct (circular_scan_covers N (currentIndex p) i Hi) as (b & Hb & <-).
    apply H. fold N. lia.
Qed.

(** Everything one pass of the loop can do, from its test to the next
    suspension or to the [throw]. *)
Lemma loopHead_cases now p name tried :
  let N := length (keys p) in
  let thrown := mkCall (T := T) name tried
                  (Settled (Abrupt (allKeysExhaustedError p name))) in
  ((N <= size tried)%nat /\ loopHead (T := T) now p name tried = (p, thrown)) \/
  ((size tried < N)%nat /\
   (forall i, (i < N)%nat -> ~ eligible now tried (keys p) i) /\
   (forall k, k ∈ keys p -> cooldownUntil k <= now) /\
   loopHead (T := T) now p name tried = (p, thrown)) \/
  ((size tried < N)%nat /\
   (forall i, (i < N)%nat -> ~ eligible now tried (keys p) i) /\
   exists d, leastRemainingCooldown now (keys p) d /\ 0 < d /\
     loopHead (T := T) now p name tried
     = (set_consecutiveAllExhausted (consecutiveAllExhausted p + 1) p,
        mkCall name tried (Awaiting (SleepAllExhausted (Z.min d 30000))))) \/
  ((size tried < N)%nat /\
   exists a idx k, (a < N)%nat /\
     idx = ((currentIndex p + a) mod N)%nat /\
     keys p !! idx = Some k /\
     eligible now tried (keys p) idx /\
     (forall b, (b < a)%nat ->
        ~ eligible now tried (keys p) ((currentIndex p + b) mod N)%nat) /\
     let p1 := set_currentIndex ((idx + 1) mod N)%nat p in
     let tried' := {[index k]} ∪ tried in
     ((now - lastUsedAt k < 1500 /\ 0 < lastUsedAt k /\
       loopHead (T := T) now p name tried
       = (p1, mkCall name tried'
                (Awaiting (SleepRequestDelay idx
                             (1500 - (now - lastUsedAt k)))))) \/
      (~ (now - lastUsedAt k < 1500 /\ 0 < lastUsedAt k) /\
       loopHead (T := T) now p name tried
       = (onKey idx (noteRequest now) p1,
          mkCall name tried' (Awaiting (OperationCall idx)))))).
Proof.
  intros N thrown. unfold loopHead. case_bool_decide as Hsize.
  2:{ left. split; [fold N; lia | done]. }
  right. fold N in Hsize.
  destruct (selector_cases now tried p) as [[-> Hnone]|Hsome].
  - destruct (decide (Forall (fun k => cooldownUntil k <= now) (keys p)))
      as [Hall|Hcool].
    + left. rewrite Forall_forall in Hall. split_and!; try done.
      by rewrite (getNextCooldownEnd_none now p Hall).
    + right. left. apply not_Forall_Exists in Hcool; [|apply _].
      apply Exists_exists in Hcool as (k & Hk & Hc). unfold compose in Hc.
      assert (Hcool : exists k, k ∈ keys p /\ cooldownUntil k > now)
        by (exists k; split; [done | lia]).
      destruct (getNextCooldownEnd_cooling now p Hcool) as [Hpos Hmin].
      split_and!; try done. exists (getNextCooldownEnd now p).
      split_and!; try done; try lia.
      by rewrite (proj2 (Z.gtb_gt _ _)) by lia.
  - right. right. split; [done|].
    destruct Hsome as (a & idx & k & Ha & Hidx & Hk & Hel & Hmin & ->).
    exists a, idx, k. split_and!; try done. cbv zeta.
    unfold REQUEST_DELAY_MS.
    destruct (Z.ltb_spec (now - lastUsedAt k) 1500);
      destruct (Z.gtb_spec (lastUsedAt k) 0); cbn [andb].
    + left. split_and!; try done; lia.
    + right. split; [lia | done].
    + right. split; [lia | done].
    + right. split; [lia | done].
Qed.

(** A property of the records that none of the assignments of [execute]
    breaks is kept by every pass of the loop. *)
Lemma loopHead_Forall (P : KeyState -> Prop) now p name tried :
  (forall t k, P k -> P (noteRequest t k)) ->
  Forall P (keys p) ->
  Forall P (keys (fst (loopHead (T := T) now p name tried))).
Proof.
  intros HP Hp.
  destruct (loopHead_cases now p name tried)
    as [[_ ->]|[(_ & _ & _ & ->)|[(_ & _ & d & _ & _ & ->)
       |(_ & a & idx & k & _ & _ & _ & _ & _ & [(_ & _ & ->)|(_ & ->)])]]];
    try done.
  cbn. apply Forall_alter; [done|]. intros k' _. by apply HP.
Qed.

(** A view of the records that none of the assignments before a request
    changes is the same after every pass of the loop. *)
Lemma loopHead_fmap {A} (g : KeyState -> A) now p name tried :
  (forall t k, g (noteRequest t k) = g k) ->
  map g (keys (fst (loopHead (T := T) now p name tried))) = map g (keys p).
Proof.
  intros Hg.
  destruct (loopHead_cases now p name tried)
    as [[_ ->]|[(_ & _ & _ & ->)|[(_ & _ & d & _ & _ & ->)
       |(_ & a & idx & k & _ & _ & _ & _ & _ & [(_ & _ & ->)|(_ & ->)])]]];
    try done.
  cbn. rewrite (list_fmap_alter g (noteRequest now) id).
  - by rewrite list_alter_id.
  - apply Forall_forall. intros k' _. apply Hg.
Qed.

End Shapes.

(* ================================================================== *)
(** ** One attempt *)
(* ================================================================== *)

(** C2. When the operation of an attempt fails, the record used gets the
    time and the text of the error; for a rate limit its hit counter
    grows by one and it cools down for 15 minutes, its failure count and
    its flag untouched; for any other error its failure count grows by
    one, it cools down for 2 minutes, and its flag is cleared exactly
    when the new count has reached 5; nothing else in the record and no
    other record changes.  The loop then goes on: the record that has
    failed is out of the selection; when every record has been tried
    the call throws the exhaustion error; otherwise the call takes the
    first record eligible in circular order from the cursor, adds its
    index to the tried-set, moves the cursor behind it, and sends the
    request on it, at once or after the request delay; and when no
    record is eligible it counts an exhaustion and waits for the
    earliest cooldown, 30 seconds at most. *)
Theorem failed_attempt_bookkeeping {T : Type} (now : Z) (idx : nat)
    (error : JsError) (p : KeyPoolManager) (c : Call T) (k : KeyState) :
  status c = Awaiting (OperationCall idx) ->
  keys p !! idx = Some k ->
  exists p1 k',
    resume now (Rejected error) p c
      = loopHead now p1 (operationName c) (triedKeys c) /\
    keys p1 !! idx = Some k' /\
    (forall j, j <> idx -> keys p1 !! j = keys p !! j) /\
    currentIndex p1 = currentIndex p /\
    consecutiveAllExhausted p1 = consecutiveAllExhausted p /\
    initialized p1 = initialized p /\
    lastErrorAt k' = now /\
    lastError k' = Some (orElse (message error) (toStr error)) /\
    (if isRateLimitError error then
       rateLimitHits k' = rateLimitHits k + 1 /\
       cooldownUntil k' = now + 15 * 60 * 1000 /\
       failCount k' = failCount k /\
       isHealthy k' = isHealthy k
     else
       failCount k' = failCount k + 1 /\
       cooldownUntil k' = now + 2 * 60 * 1000 /\
       rateLimitHits k' = rateLimitHits k /\
       isHealthy k' = if decide (5 <= failCount k + 1) then false
                      else isHealthy k) /\
    (key k', index k', instance k', totalRequests k', successCount k',
     lastUsedAt k')
    = (key k, index k, instance k, totalRequests k, successCount k,
       lastUsedAt k) /\
    length (keys p1) = length (keys p) /\
    ~ eligible now (triedKeys c) (keys p1) idx /\
    ((length (keys p) <= size (triedKeys c))%nat ->
     resume now (Rejected error) p c
     = (p1, mkCall (operationName c) (triedKeys c)
              (Settled (Abrupt (allKeysExhaustedError p (operationName c)))))) /\
    ((size (triedKeys c) < length (keys p))%nat ->
     forall a j kj,
       (a < length (keys p))%nat ->
       j = ((currentIndex p + a) mod length (keys p))%nat ->
       keys p1 !! j = Some kj ->
       eligible now (triedKeys c) (keys p1) j ->
       (forall b, (b < a)%nat ->
          ~ eligible now (triedKeys c) (keys p1)
              ((currentIndex p + b) mod length (keys p))%nat) ->
       j <> idx /\
       let p2 := set_currentIndex ((j + 1) mod length (keys p))%nat p1 in
       let tried' := {[index kj]} ∪ triedKeys c in
       (now - lastUsedAt kj < 1500 /\ 0 < lastUsedAt kj /\
        resume now (Rejected error) p c
        = (p2, mkCall (operationName c) tried'
                 (Awaiting (SleepRequestDelay j
                              (1500 - (now - lastUsedAt kj)))))) \/
       (~ (now - lastUsedAt kj < 1500 /\ 0 < lastUsedAt kj) /\
        resume now (Rejected error) p c
        = (onKey j (noteRequest now) p2,
           mkCall (operationName c) tried' (Awaiting (OperationCall j))))) /\
    ((size (triedKeys c) < length (keys p))%nat ->
     (forall i, (i < length (keys p))%nat ->
        ~ eligible now (triedKeys c) (keys p1) i) ->
     exists d, leastRemainingCooldown now (keys p1) d /\ 0 < d /\
       resume now (Rejected error) p c
       = (set_consecutiveAllExhausted (consecutiveAllExhausted p + 1) p1,
          mkCall (operationName c) (triedKeys c)
            (Awaiting (SleepAllExhausted (Z.min d 30000))))).
Proof.
  intros Hc Hk.
  set (p1 := onKey idx (noteFailure now error) p).
  set (k' := noteFailure now error k).
  assert (Hk' : keys p1 !! idx = Some k').
  { subst p1 k'. by rewrite lookup_onKey, Hk. }
  assert (Hcool : now < cooldownUntil k').
  { subst k'. unfold noteFailure, RATE_LIMIT_COOLDOWN_MS, ERROR_COOLDOWN_MS.
    destruct (isRateLimitError error); cbn; [lia|].
    destruct (_ >=? _); cbn; lia. }
  assert (Hnot : ~ eligible now (triedKeys c) (keys p1) idx).
  { intros (_ & k0 & Hk0 & _ & Hle). rewrite Hk' in Hk0.
    injection Hk0 as <-. lia. }
  assert (Hres : resume now (Rejected error) p c
                 = loopHead now p1 (operationName c) (triedKeys c)).
  { unfold resume. by rewrite Hc. }
  assert (Hlen : length (keys p1) = length (keys p)) by apply length_onKey.
  assert (Hcur : currentIndex p1 = currentIndex p) by done.
  pose proof (loopHead_cases (T := T) now p1 (operationName c) (triedKeys c))
    as Hcases.
  cbv zeta in Hcases. rewrite Hlen, Hcur in Hcases.
  exists p1, k'. split_and!.
  - exact Hres.
  - exact Hk'.
  - intros j Hj. by apply lookup_onKey_ne.
  - done.
  - done.
  - done.
  - subst k'. unfold noteFailure. destruct (isRateLimitError error); [done|].
    cbn. by destruct (_ >=? _).
  - subst k'. unfold noteFailure. destruct (isRateLimitError error); [done|].
    cbn. by destruct (_ >=? _).
  - subst k'. unfold noteFailure. destruct (isRateLimitError error); [done|].
    cbn. rewrite Z.geb_leb. unfold MAX_CONSECUTIVE_FAILS.
    destruct (Z.leb_spec 5 (failCount k + 1)); case_decide; try lia; done.
  - subst k'. unfold noteFailure. destruct (isRateLimitError error); [done|].
    cbn. by destruct (_ >=? _).
  - exact Hlen.
  - exact Hnot.
  - intros Hsz. rewrite Hres.
    destruct Hcases as [[_ ->]|[(H & _)|[(H & _)|(H & _)]]]; try lia.
    unfold allKeysExhaustedError. by rewrite Hlen.
  - intros Hsz a j kj Ha Hj Hkj Hel Hmin. split.
    { intros ->. by apply Hnot. }
    rewrite Hres.
    destruct Hcases as [[H _]|[(_ & Hnone & _)|[(_ & Hnone & _)
       |(_ & a' & j' & kj' & Ha' & Hj' & Hkj' & Hel' & Hmin' & Hgo)]]].
    + lia.
    + destruct (Hnone j); [|done]. subst j. by apply Nat.mod_upper_bound; lia.
    + destruct (Hnone j); [|done]. subst j. by apply Nat.mod_upper_bound; lia.
    + assert (a' = a) as ->.
      { destruct (Nat.lt_trichotomy a' a) as [Hlt|[Heq|Hgt]]; [|done|].
        - destruct (Hmin a' Hlt). by rewrite <- Hj'.
        - destruct (Hmin' a Hgt). by rewrite <- Hj. }
      assert (j' = j) as -> by congruence.
      assert (kj' = kj) as -> by congruence.
      exact Hgo.
  - intros Hsz Hnone. rewrite Hres.
    destruct Hcases as [[H _]|[(_ & _ & Hall & _)|[(_ & _ & Hwait)
       |(_ & a' & j' & kj' & Ha' & Hj' & _ & Hel' & _)]]].
    + lia.
    + specialize (Hall k' (list_elem_of_lookup_2 _ _ _ Hk')). lia.
    + exact Hwait.
    + destruct (Hnone j'); [|done]. subst j'. by apply Nat.mod_upper_bound; lia.
Qed.

Lemma failed_attempt_bookkeeping_witness :
  (exists p1 k',
     resume 1100 (Rejected genericError) (fst firstAttempt) (snd firstAttempt)
       = loopHead 1100 p1 "op" {[0%nat]} /\
     keys p1 !! 0%nat = Some k' /\
     failCount k' = 1 /\ cooldownUntil k' = 121100 /\ isHealthy k' = true /\
     resume 1100 (Rejected genericError) (fst firstAttempt) (snd firstAttempt)
     = (p1, mkCall "op" {[0%nat]}
              (Settled (Abrupt (allKeysExhaustedError oneKeyPool "op"))))) /\
  status (snd (resume 1100 (Rejected genericError) (fst threeKeyAttempt)
                 (snd threeKeyAttempt)))
  = Awaiting (OperationCall 1).
Proof.
  split.
  - destruct (failed_attempt_bookkeeping 1100 0 genericError
                (fst firstAttempt) (snd firstAttempt)
                (noteRequest 1000 k1Record))
      as (p1 & k' & Hres & Hk' & _ & _ & _ & _ & _ & _ & Hgen & _ & _ & _
          & Hthrown & _);
      [reflexivity | reflexivity |].
    exists p1, k'. cbn in Hgen. destruct Hgen as (Hf & Hc & _ & Hh).
    split_and!; [exact Hres | exact Hk' | exact Hf | exact Hc | exact Hh |].
    apply Hthrown. vm_compute. lia.
  - destruct (failed_attempt_bookkeeping 1100 0 genericError
                (fst threeKeyAttempt) (snd threeKeyAttempt)
                (noteRequest 1000 (keyStateOf 0 "a" (mkRettiwt "a" false))))
      as (p1 & k' & _ & _ & Hframe & _ & _ & _ & _ & _ & _ & _ & _ & _
          & _ & Htaken & _);
      [reflexivity | reflexivity |].
    assert (Hb : keys p1 !! 1%nat
                 = Some (keyStateOf 1 "b" (mkRettiwt "b" false))).
    { rewrite Hframe by done. reflexivity. }
    destruct (Htaken ltac:(vm_compute; lia) 0%nat 1%nat
                (keyStateOf 1 "b" (mkRettiwt "b" false)))
      as [_ [(H1 & H2 & _)|(_ & ->)]].
    + vm_compute. lia.
    + reflexivity.
    + exact Hb.
    + split.
      * change (triedKeys (snd threeKeyAttempt)) with ({[0%nat]} ∪ ∅ : gset nat).
        rewrite elem_of_union, elem_of_singleton. intros [?|H]; [done|].
        by apply not_elem_of_empty in H.
      * eexists. split; [exact Hb|]. split; [reflexivity | cbn; lia].
    + intros b Hlt. lia.
    + cbn in H2. lia.
    + reflexivity.
Defined.

(** C4. When the operation of an attempt succeeds, the record used has
    its success count grown by one, its failure count reset to 0 and its
    flag set; the exhaustion counter of the pool is reset to 0; the call
    completes with the operation's result, and a completed call does
    nothing more, whatever is delivered to it: the operation is not
    invoked again. *)
Theorem successful_attempt_returns {T : Type} (now : Z) (idx : nat)
    (result : T) (p : KeyPoolManager) (c : Call T) (k : KeyState) :
  status c = Awaiting (OperationCall idx) ->
  keys p !! idx = Some k ->
  exists p' c' k',
    resume now (Resolved result) p c = (p', c') /\
    status c' = Settled (Normal result) /\
    keys p' !! idx = Some k' /\
    successCount k' = successCount k + 1 /\
    failCount k' = 0 /\
    isHealthy k' = true /\
    consecutiveAllExhausted p' = 0 /\
    (forall j, j <> idx -> keys p' !! j = keys p !! j) /\
    (forall now' ev q, resume now' ev q c' = (q, c')).
Proof.
  intros Hc Hk. unfold resume at 1. rewrite Hc. unfold onSuccess.
  eexists _, _, (noteSuccess k). split_and!; try done.
  - cbn. by rewrite list_lookup_alter_eq, Hk.
  - intros j Hj. cbn. by apply list_lookup_alter_ne.
Qed.

Lemma successful_attempt_returns_witness :
  exists p' c' k',
    resume 1100 (Resolved "tweets") (fst firstAttempt) (snd firstAttempt)
      = (p', c') /\
    status c' = Settled (Normal "tweets") /\
    keys p' !! 0%nat = Some k' /\ successCount k' = 1 /\
    (forall now' ev q, resume now' ev q c' = (q, c')).
Proof.
  destruct (successful_attempt_returns 1100 0 "tweets"
              (fst firstAttempt) (snd firstAttempt)
              (noteRequest 1000 k1Record))
    as (p' & c' & k' & Hres & Hst & Hk' & Hs & _ & _ & _ & _ & Hend);
    [reflexivity | reflexivity |].
  exists p', c', k'.
  split_and!; [exact Hres | exact Hst | exact Hk' | exact Hs | exact Hend].
Defined.

(* ================================================================== *)
(** ** Calls sharing the pool: invariants of every schedule *)
(* ================================================================== *)

Section Schedules.
Context {T : Type}.
Implicit Types (p : KeyPoolManager) (c : Call T) (s : System T)
  (a : Action T) (schedule : list (Action T)).

Lemma run_cons s a schedule : run s (a :: schedule) = run (act s a) schedule.
Proof. reflexivity. Qed.

Lemma healthOf_noteRequest now idx p :
  healthOf (onKey idx (noteRequest now) p) = healthOf p.
Proof. by apply healthOf_onKey_same. Qed.

Lemma healthOf_noteSuccess idx p :
  healthOf (onKey idx noteSuccess p) = alter (fun _ => (true, 0)) idx (healthOf p).
Proof. by apply healthOf_onKey. Qed.

Lemma healthOf_noteFailure now error idx p :
  healthOf (onKey idx (noteFailure now error) p) =
    if isRateLimitError error then healthOf p
    else alter (fun hf => (if snd hf + 1 >=? 5 then false else fst hf,
                           snd hf + 1)) idx (healthOf p).
Proof.
  destruct (isRateLimitError error) eqn:E.
  - apply healthOf_onKey_same. intros k. unfold noteFailure. by rewrite E.
  - apply healthOf_onKey. intros k. unfold noteFailure. rewrite E. cbn.
    unfold MAX_CONSECUTIVE_FAILS. by destruct (_ >=? _).
Qed.

(** Whatever is delivered to a call, the array keeps its length, the
    manager stays initialized, the call keeps its name, and the only
    error it can complete with is the exhaustion error. *)
Lemma resume_inv now ev p c p' c' :
  resume now ev p c = (p', c') ->
  length (keys p') = length (keys p) /\ initialized p' = initialized p /\
  operationName c' = operationName c /\
  forall e, status c' = Settled (Abrupt e) ->
    status c = Settled (Abrupt e) \/
    e = JsErrorThrown (allKeysExhaustedText (length (keys p)) (operationName c)).
Proof.
  unfold resume.
  destruct (status c) as [[w|idx ms|idx]|r] eqn:Hc; destruct ev as [|res|err];
    try (intros [= <- <-]; split_and!; try done; intros e; rewrite Hc; by left).
  - intros (Hlen & Hinit & _ & Hname & Hst)%loopHead_inv. split_and!; try done.
    intros e He. rewrite He in Hst. by right.
  - intros (Hlen & Hinit & _ & ->)%sendRequest_inv. by split_and!.
  - unfold onSuccess. intros [= <- <-]. split_and!; try done.
    cbn. by rewrite length_alter.
  - unfold onFailure.
    intros (Hlen & Hinit & _ & Hname & Hst)%loopHead_inv.
    rewrite length_onKey in Hlen. split_and!; try done.
    intros e He. rewrite He in Hst. right.
    unfold allKeysExhaustedError in Hst. by rewrite length_onKey in Hst.
Qed.

Lemma execute_inv now name p p' c' :
  execute now name p = (p', c') ->
  length (keys p') = length (keys p) /\ initialized p' = initialized p /\
  operationName c' = default "request" name /\
  forall e, status c' = Settled (Abrupt e) ->
    (initialized p = false \/ keys p = []) /\ e = notInitializedError \/
    e = JsErrorThrown
          (allKeysExhaustedText (length (keys p)) (default "request" name)).
Proof.
  unfold execute. destruct (negb (initialized p) || _) eqn:E.
  - intros [= <- <-]. split_and!; try done. intros e [= <-]. left.
    split; [|done]. apply orb_true_iff in E as [E|E].
    + left. by destruct (initialized p).
    + right. apply Nat.eqb_eq in E. by destruct (keys p).
  - intros (Hlen & Hinit & _ & Hname & Hst)%loopHead_inv. split_and!; try done.
    intros e He. rewrite He in Hst. by right.
Qed.

(** The health of the records along one step of a call. *)
Lemma resume_health now ev p c p' c' :
  resume now ev p c = (p', c') ->
  healthOf p' =
    match status c, ev with
    | Awaiting (OperationCall idx), Resolved _ =>
        alter (fun _ => (true, 0)) idx (healthOf p)
    | Awaiting (OperationCall idx), Rejected error =>
        if isRateLimitError error then healthOf p
        else alter (fun hf => (if snd hf + 1 >=? 5 then false else fst hf,
                               snd hf + 1)) idx (healthOf p)
    | _, _ => healthOf p
    end.
Proof.
  unfold resume.
  destruct (status c) as [[w|idx ms|idx]|r] eqn:Hc; destruct ev as [|res|err];
    try (by intros [= <- <-]).
  - by intros (_ & _ & -> & _)%loopHead_inv.
  - by intros (_ & _ & -> & _)%sendRequest_inv.
  - unfold onSuccess. intros [= <- <-]. apply healthOf_noteSuccess.
  - unfold onFailure. intros (_ & _ & -> & _)%loopHead_inv.
    apply healthOf_noteFailure.
Qed.

Lemma execute_health now name p p' c' :
  execute now name p = (p', c') -> healthOf p' = healthOf p.
Proof.
  unfold execute. destruct (negb (initialized p) || _).
  - by intros [= <- <-].
  - by intros (_ & _ & -> & _)%loopHead_inv.
Qed.

(** A record a call takes hold of is healthy at that moment. *)
Lemma loopHead_holds now p name tried p' c' idx :
  loopHead now p name tried = (p', c') ->
  holdsKey idx c' -> exists f, healthOf p !! idx = Some (true, f).
Proof.
  intros (_ & _ & _ & _ & Hst)%loopHead_inv. unfold holdsKey.
  destruct (status c') as [[w|i ms|i]|r]; try done; intros ->;
    destruct Hst as (k & Hk & Hh); exists (failCount k);
    by rewrite healthOf_lookup, Hk, <- Hh.
Qed.

Lemma execute_holds now name p p' c' idx :
  execute now name p = (p', c') ->
  holdsKey idx c' -> exists f, healthOf p !! idx = Some (true, f).
Proof.
  unfold execute. destruct (negb (initialized p) || _).
  - intros [= <- <-]. done.
  - apply loopHead_holds.
Qed.

Lemma resume_holds now ev p c p' c' idx :
  resume now ev p c = (p', c') ->
  holdsKey idx c' ->
  holdsKey idx c \/ exists f, healthOf p' !! idx = Some (true, f).
Proof.
  intros Hres. pose proof (resume_health _ _ _ _ _ _ Hres) as Hhealth.
  revert Hres Hhealth. unfold resume.
  destruct (status c) as [[w|i ms|i]|r] eqn:Hc; destruct ev as [|res|err];
    try (intros [= <- <-] _ Hh; left; exact Hh).
  - intros Hloop Hhealth Hh. right. rewrite Hhealth.
    eapply loopHead_holds; eauto.
  - intros (_ & _ & _ & ->)%sendRequest_inv _. unfold holdsKey. rewrite Hc.
    cbn. by left.
  - unfold onSuccess. intros [= <- <-] _. done.
  - unfold onFailure. intros Hloop Hhealth Hh. right.
    pose proof Hloop as (_ & _ & -> & _)%loopHead_inv.
    eapply loopHead_holds; eauto.
Qed.

End Schedules.

Section Histories.
Context {T : Type}.
Implicit Types (p : KeyPoolManager) (c : Call T) (s : System T)
  (a : Action T) (schedule : list (Action T)).

(** An invariant of every step is an invariant of every schedule whose
    actions all satisfy [Q]. *)
Lemma run_invariant (Q : Action T -> Prop) (P : System T -> Prop) :
  (forall s a, Q a -> P s -> P (act s a)) ->
  forall schedule s, Forall Q schedule -> P s -> P (run s schedule).
Proof.
  intros Hstep schedule. induction schedule as [|a rest IH]; intros s HQ HP.
  - exact HP.
  - rewrite run_cons. inversion HQ; subst. apply IH; auto.
Qed.

(** *** The error a call can end with *)

Lemma onlyExhaustion_step N s a :
  onlyExhaustion N s -> onlyExhaustion N (act s a).
Proof.
  intros (Hinit & Hlen & HN & Hcalls). destruct a as [now name|cid now ev]; simpl.
  - destruct (execute now name (pool s)) as [p' c'] eqn:E.
    apply execute_inv in E as (Hlen' & Hinit' & Hname & Herr).
    split_and!; cbn; try congruence.
    intros c e [Hc|Hc%list_elem_of_singleton]%elem_of_app He; [by eapply Hcalls|].
    subst c. destruct (Herr e He) as [[[Hi|Hk] _]| ->].
    + congruence.
    + rewrite Hk in Hlen. simpl in Hlen. congruence.
    + by rewrite Hname, Hlen.
  - destruct (calls s !! cid) as [c0|] eqn:Hc0; [|by split_and!].
    destruct (resume now ev (pool s) c0) as [p' c'] eqn:E.
    apply resume_inv in E as (Hlen' & Hinit' & Hname & Herr).
    split_and!; cbn; try congruence.
    intros c e Hc He.
    apply list_elem_of_lookup in Hc as [j Hj].
    destruct (decide (cid = j)) as [<-|Hne].
    + rewrite list_lookup_insert_eq in Hj by (by eapply lookup_lt_Some).
      injection Hj as <-. destruct (Herr e He) as [Hold| ->].
      * rewrite Hname. eapply Hcalls; [|done]. by eapply list_elem_of_lookup_2.
      * by rewrite Hname, Hlen.
    + rewrite list_lookup_insert_ne in Hj by done.
      eapply Hcalls; [|done]. by eapply list_elem_of_lookup_2.
Qed.

(** *** An unhealthy record that no call holds *)

Lemma unhealthyAndFree_step i s a :
  unhealthyAndFree i s -> unhealthyAndFree i (act s a).
Proof.
  intros ([f Hf] & Hfree). destruct a as [now name|cid now ev]; simpl.
  - destruct (execute now name (pool s)) as [p' c'] eqn:E.
    pose proof (execute_health _ _ _ _ _ E) as Hhealth.
    split; cbn.
    + exists f. by rewrite Hhealth.
    + intros c [Hc|Hc%list_elem_of_singleton]%elem_of_app; [by apply Hfree|].
      subst c. intros Hh.
      destruct (execute_holds _ _ _ _ _ _ E Hh) as [f' Hf']. congruence.
  - destruct (calls s !! cid) as [c0|] eqn:Hc0; [|by split; eauto].
    assert (Hc0free : ~ holdsKey i c0)
      by (apply Hfree; by eapply list_elem_of_lookup_2).
    destruct (resume now ev (pool s) c0) as [p' c'] eqn:E.
    pose proof (resume_health _ _ _ _ _ _ E) as Hhealth.
    assert (Hf' : exists f', healthOf p' !! i = Some (false, f')).
    { rewrite Hhealth. unfold holdsKey in Hc0free.
      destruct (status c0) as [[w|idx ms|idx]|r]; destruct ev as [|res|err];
        eauto.
      - rewrite list_lookup_alter_ne by done. eauto.
      - destruct (isRateLimitError err); [eauto|].
        rewrite list_lookup_alter_ne by done. eauto. }
    split; cbn; [done|].
    intros c Hc. apply list_elem_of_lookup in Hc as [j Hj].
    destruct (decide (cid = j)) as [<-|Hne].
    + rewrite list_lookup_insert_eq in Hj by (by eapply lookup_lt_Some).
      injection Hj as <-. intros Hh.
      destruct (resume_holds _ _ _ _ _ _ _ E Hh) as [Hold|[f'' Hf'']]; [done|].
      destruct Hf' as [f' Hf']. congruence.
    + rewrite list_lookup_insert_ne in Hj by done.
      apply Hfree. by eapply list_elem_of_lookup_2.
Qed.

(** *** Health under rate limits *)

Lemma noDemotion_refl h : noDemotion h h.
Proof. intros i b f Hi. exists b, f. auto. Qed.

Lemma noDemotion_trans h1 h2 h3 :
  noDemotion h1 h2 -> noDemotion h2 h3 -> noDemotion h1 h3.
Proof.
  intros H12 H23 i b f Hi.
  destruct (H12 _ _ _ Hi) as (b2 & f2 & Hi2 & Hb2 & Hf2).
  destruct (H23 _ _ _ Hi2) as (b3 & f3 & Hi3 & Hb3 & Hf3).
  exists b3, f3. split_and!; [done | auto | lia].
Qed.

Lemma noDemotion_success idx h :
  noDemotion h (alter (fun _ => (true, 0)) idx h).
Proof.
  intros i b f Hi. destruct (decide (idx = i)) as [<-|Hne].
  - exists true, 0. rewrite list_lookup_alter_eq, Hi. auto.
  - exists b, f. rewrite list_lookup_alter_ne by done. auto.
Qed.

Lemma noDemotion_step s a :
  onlyRateLimitFailures a ->
  noDemotion (healthOf (pool s)) (healthOf (pool (act s a))).
Proof.
  intros Ha. destruct a as [now name|cid now ev]; simpl.
  - destruct (execute now name (pool s)) as [p' c'] eqn:E. cbn.
    rewrite (execute_health _ _ _ _ _ E). apply noDemotion_refl.
  - destruct (calls s !! cid) as [c0|] eqn:Hc0; [|apply noDemotion_refl].
    destruct (resume now ev (pool s) c0) as [p' c'] eqn:E. cbn.
    rewrite (resume_health _ _ _ _ _ _ E).
    destruct (status c0) as [[w|idx ms|idx]|r]; destruct ev as [|res|err];
      try apply noDemotion_refl.
    + apply noDemotion_success.
    + simpl in Ha. rewrite Ha. apply noDemotion_refl.
Qed.

End Histories.

(* ================================================================== *)
(** ** Indices are positions *)
(* ================================================================== *)

(** The tried-set collects the [index] fields of the records used while
    the selector tests positions; the two agree, because [initialize]
    numbers the records by position and nothing ever assigns [index]. *)

Section Indices.
Context {T : Type}.

Lemma initialize_wellIndexed {lib : RettiwtLibrary} apiKeys p :
  wellIndexed p -> wellIndexed (snd (initialize apiKeys p)).
Proof.
  intros Hp.
  destruct (initialize_cases apiKeys p)
    as [[_ ->]|[(_ & e & ->)|(_ & _ & _ & ->)]]; try done.
  intros i k. cbn. rewrite list_lookup_imap.
  destruct (parseKeyList apiKeys !! i); [|done]. by intros [= <-].
Qed.

Lemma wellIndexed_onKey idx f p :
  (forall k, index (f k) = index k) ->
  wellIndexed p -> wellIndexed (onKey idx f p).
Proof.
  intros Hf Hp i k. destruct (decide (idx = i)) as [<-|Hne].
  - rewrite lookup_onKey. destruct (keys p !! idx) as [k0|] eqn:E; [|done].
    intros [= <-]. rewrite Hf. by apply Hp.
  - rewrite lookup_onKey_ne by done. apply Hp.
Qed.

Lemma index_noteFailure now error k : index (noteFailure now error k) = index k.
Proof.
  unfold noteFailure. destruct (isRateLimitError error); [done|].
  cbn. by destruct (_ >=? _).
Qed.

Lemma loopHead_wellIndexed now p name tried :
  wellIndexed p -> wellIndexed (fst (loopHead (T := T) now p name tried)).
Proof.
  intros Hp. unfold loopHead. case_bool_decide; [|done].
  destruct (getNextAvailableKey now tried p) as [o p1] eqn:Hsel.
  apply getNextAvailableKey_inv in Hsel as (Hkeys & _).
  assert (Hp1 : wellIndexed p1) by (unfold wellIndexed; by rewrite Hkeys).
  destruct o as [[idx k]|].
  - destruct (_ && _); [done|]. by apply wellIndexed_onKey.
  - by destruct (_ >? _).
Qed.

Lemma act_wellIndexed (s : System T) (a : Action T) :
  wellIndexed (pool s) -> wellIndexed (pool (act s a)).
Proof.
  intros Hs. destruct a as [now name|cid now ev]; simpl.
  - destruct (execute now name (pool s)) as [p' c'] eqn:E. cbn.
    replace p' with (fst (execute (T := T) now name (pool s)))
      by (by rewrite E).
    unfold execute. destruct (_ || _); [done|]. by apply loopHead_wellIndexed.
  - destruct (calls s !! cid) as [c0|]; [|done].
    destruct (resume now ev (pool s) c0) as [p' c'] eqn:E. cbn.
    replace p' with (fst (resume now ev (pool s) c0)) by (by rewrite E).
    unfold resume.
    destruct (status c0) as [[w|idx ms|idx]|r]; destruct ev as [|res|err];
      try done.
    + by apply loopHead_wellIndexed.
    + by apply wellIndexed_onKey.
    + by apply (wellIndexed_onKey idx noteSuccess).
    + apply loopHead_wellIndexed, wellIndexed_onKey; [|done].
      apply index_noteFailure.
Qed.

End Indices.

(* ================================================================== *)
(** ** What callers and administrators can observe *)
(* ================================================================== *)

(** C6, as stated, fails: after five failed calls have left the only key
    unhealthy and its cooldown has run out, a sixth call leaves the loop
    without trying any key, and the error it throws names the 1 key of
    the pool, not the 0 keys tried. *)
Lemma exhaustion_error_names_pool_size_not_tried_count :
  let s := act (run (mkSystem oneKeyPool []) fiveFailures) sixthCall in
  exists c, calls s !! 5%nat = Some c /\
    size (triedKeys c) = 0%nat /\
    status c = Settled (Abrupt (JsErrorThrown (allKeysExhaustedText 1 "op"))) /\
    status c <> Settled (Abrupt (JsErrorThrown
                  (allKeysExhaustedText (size (triedKeys c)) "op"))).
Proof.
  eexists. split; [vm_compute; reflexivity|].
  split; [vm_compute; reflexivity|].
  split; [vm_compute; reflexivity|].
  vm_compute. intros H. discriminate H.
Qed.

(** C6, amended. On an initialized pool, whatever the schedule of
    invocations, timers and operation outcomes, a call that throws throws
    the exhaustion error, whose text names the number of keys of the pool
    and the operation; no error of an attempt reaches the caller. *)
Theorem only_exhaustion_error_surfaces {T : Type} (p : KeyPoolManager)
    (schedule : list (Action T)) (c : Call T) (e : Exn) :
  initialized p = true ->
  keys p <> [] ->
  c ∈ calls (run (mkSystem p []) schedule) ->
  status c = Settled (Abrupt e) ->
  e = JsErrorThrown (allKeysExhaustedText (length (keys p)) (operationName c)).
Proof.
  intros Hinit Hkeys Hc He.
  assert (H : onlyExhaustion (length (keys p)) (run (mkSystem p []) schedule)).
  { apply (run_invariant (fun _ => True)).
    - intros s a _. apply onlyExhaustion_step.
    - apply Forall_forall. done.
    - split_and!; try done.
      + by destruct (keys p).
      + intros c' e' Hc'. by apply elem_of_nil in Hc'. }
  destruct H as (_ & _ & _ & H). by eapply H.
Qed.

Lemma only_exhaustion_error_surfaces_witness :
  JsErrorThrown (allKeysExhaustedText 1 "op")
  = JsErrorThrown (allKeysExhaustedText (length (keys oneKeyPool)) "op").
Proof.
  apply (only_exhaustion_error_surfaces (T := string) oneKeyPool
           (fiveFailures ++ [sixthCall])
           (mkCall "op" ∅
              (Settled (Abrupt (JsErrorThrown (allKeysExhaustedText 1 "op")))))).
  - reflexivity.
  - discriminate.
  - apply (list_elem_of_lookup_2 _ 5%nat). vm_compute. reflexivity.
  - reflexivity.
Defined.

(** C8, as stated, fails: a call that selected the key while it was
    healthy is still waiting for its operation when a second, overlapping
    call fails on the same key and marks it unhealthy; the first call's
    operation then succeeds, and the key is healthy again with no reset. *)
Lemma overlapping_success_revives_unhealthy_key :
  let s1 := run (mkSystem oneKeyPool []) overlappingCalls in
  let s2 := act s1 firstSucceeds in
  isHealthy <$> keys (pool s1) !! 0%nat = Some false /\
  isHealthy <$> keys (pool s2) !! 0%nat = Some true.
Proof. split; vm_compute; reflexivity. Qed.

(** C8, amended. A record that is unhealthy and that no call in flight
    has already selected stays unhealthy under every schedule of
    [execute] calls, overlapping or not: the selector never returns it,
    no call ever holds it, and only [resetKey] or [resetAll] sets its
    flag again. *)
Theorem unhealthy_stays_unhealthy {T : Type} (s : System T)
    (schedule : list (Action T)) (i : nat) (k : KeyState) :
  keys (pool s) !! i = Some k ->
  isHealthy k = false ->
  (forall c, c ∈ calls s -> ~ holdsKey i c) ->
  let s' := run s schedule in
  (exists k', keys (pool s') !! i = Some k' /\ isHealthy k' = false) /\
  (forall c, c ∈ calls s' -> ~ holdsKey i c) /\
  (forall now tried idx k',
     fst (getNextAvailableKey now tried (pool s')) = Some (idx, k') ->
     idx <> i) /\
  (exists k', keys (resetKey (Z.of_nat i) (pool s')) !! i = Some k'
              /\ isHealthy k' = true) /\
  (exists k', keys (resetAll (pool s')) !! i = Some k' /\ isHealthy k' = true).
Proof.
  intros Hk Hh Hfree s'.
  assert (H : unhealthyAndFree i s').
  { apply (run_invariant (fun _ => True)).
    - intros s0 a _. apply unhealthyAndFree_step.
    - apply Forall_forall. done.
    - split; [|done]. exists (failCount k).
      by rewrite healthOf_lookup, Hk, <- Hh. }
  destruct H as ([f Hf] & Hfree').
  rewrite healthOf_lookup in Hf.
  destruct (keys (pool s') !! i) as [k'|] eqn:Hk'; [|done].
  injection Hf as Hh' _.
  split_and!.
  - by exists k'.
  - done.
  - intros now tried idx k'' Hsel.
    destruct (getNextAvailableKey now tried (pool s')) as [o p1] eqn:E.
    simpl in Hsel. subst o.
    apply getNextAvailableKey_inv in E as (_ & _ & _ & Hidx & _ & Hhealthy & _).
    intros ->. congruence.
  - exists (manualReset k'). split; [|done]. unfold resetKey.
    rewrite (proj2 (Z.ltb_ge _ _)) by lia. rewrite Nat2Z.id, Hk'.
    by rewrite lookup_onKey, Hk'.
  - exists (manualReset k'). split; [|done]. unfold resetAll. cbn.
    by rewrite list_lookup_fmap, Hk'.
Qed.

Lemma unhealthy_stays_unhealthy_witness :
  exists k', keys (pool (run (run (mkSystem oneKeyPool []) fiveFailures)
                          [sixthCall; Deliver 5 1001100 TimerFired]))
             !! 0%nat = Some k' /\ isHealthy k' = false.
Proof.
  destruct (unhealthy_stays_unhealthy
              (run (mkSystem oneKeyPool []) fiveFailures)
              [sixthCall; Deliver 5 1001100 TimerFired] 0
              (mkKeyState "k1" 0 (mkRettiwt "k1" false) 5 0 5 0 921100
                 801000 801100 (Some "socket hang up") false))
    as (H & _).
  - vm_compute. reflexivity.
  - reflexivity.
  - intros c.
    set (l := calls (run (mkSystem oneKeyPool []) fiveFailures)).
    vm_compute in l. subst l. intros Hc.
    repeat (apply elem_of_cons in Hc as [->|Hc]; [intros []|]).
    by apply elem_of_nil in Hc.
  - exact H.
Defined.

(** C10. A failure classified as a rate limit leaves the failure count
    and the healthy flag of every record as they were; and along any
    schedule whose failures are all rate limits, however many, no
    healthy record becomes unhealthy and no failure count grows (a
    success resets it to 0). *)
Theorem rate_limits_never_demote {T : Type} :
  (forall now error p (c : Call T) i k,
     isRateLimitError error = true ->
     keys p !! i = Some k ->
     exists k', keys (fst (resume now (Rejected error) p c)) !! i = Some k' /\
       failCount k' = failCount k /\ isHealthy k' = isHealthy k) /\
  (forall (s : System T) schedule i k,
     Forall onlyRateLimitFailures schedule ->
     keys (pool s) !! i = Some k ->
     exists k', keys (pool (run s schedule)) !! i = Some k' /\
       (isHealthy k = true -> isHealthy k' = true) /\
       (failCount k' = failCount k \/ failCount k' = 0)).
Proof.
  split.
  - intros now error p c i k Hrl Hk.
    destruct (resume now (Rejected error) p c) as [p' c'] eqn:E.
    pose proof (resume_health _ _ _ _ _ _ E) as Hhealth.
    assert (Hsame : healthOf p' = healthOf p).
    { destruct (status c) as [[w|idx ms|idx]|r]; rewrite ?Hrl in Hhealth;
        exact Hhealth. }
    apply (f_equal (fun h => h !! i)) in Hsame.
    rewrite !healthOf_lookup, Hk in Hsame. cbn [fst].
    destruct (keys p' !! i) as [k'|]; [|done].
    injection Hsame as Hh Hf. by exists k'.
  - intros s schedule i k Hsched Hk.
    assert (H : noDemotion (healthOf (pool s)) (healthOf (pool (run s schedule)))).
    { apply (run_invariant onlyRateLimitFailures
               (fun s' => noDemotion (healthOf (pool s)) (healthOf (pool s'))));
        [|done|apply noDemotion_refl].
      intros s0 a Ha H0. eapply noDemotion_trans; [exact H0|].
      by apply noDemotion_step. }
    destruct (H i (isHealthy k) (failCount k)) as (b' & f' & Hi' & Hb & Hf).
    { by rewrite healthOf_lookup, Hk. }
    rewrite healthOf_lookup in Hi'.
    destruct (keys (pool (run s schedule)) !! i) as [k'|]; [|done].
    injection Hi' as <- <-. by exists k'.
Qed.

Lemma rate_limits_never_demote_witness :
  (exists k', keys (fst (resume 1100 (Rejected rateLimitError)
                           (fst firstAttempt) (snd firstAttempt)))
              !! 0%nat = Some k' /\
     failCount k' = 0 /\ isHealthy k' = true) /\
  (exists k', keys (pool (run (T := string) (mkSystem oneKeyPool [])
                            [Invoke 1000 (Some "op");
                             Deliver 0 1100 (Rejected rateLimitError)]))
              !! 0%nat = Some k' /\
     (true = true -> isHealthy k' = true) /\
     (failCount k' = 0 \/ failCount k' = 0)).
Proof.
  destruct (rate_limits_never_demote (T := string)) as [Hstep Hrun]. split.
  - apply (Hstep 1100 rateLimitError (fst firstAttempt) (snd firstAttempt) 0%nat
             (noteRequest 1000 k1Record)); reflexivity.
  - apply (Hrun (mkSystem oneKeyPool []) _ 0%nat k1Record);
      [|reflexivity].
    repeat constructor.
Defined.

(* ================================================================== *)
(** ** Further properties: manual reset *)
(* ================================================================== *)

Section Resets.

Lemma alter_out_of_range {A} (f : A -> A) (i : nat) (l : list A) :
  (length l <= i)%nat -> alter f i l = l.
Proof.
  intros Hi. apply list_eq. intros j. destruct (decide (i = j)) as [<-|Hne].
  - rewrite list_lookup_alter_eq. by rewrite (proj2 (lookup_ge_None l i)).
  - by rewrite list_lookup_alter_ne.
Qed.

Lemma resetKey_onKey (i : nat) p : resetKey (Z.of_nat i) p = onKey i manualReset p.
Proof.
  unfold resetKey. rewrite (proj2 (Z.ltb_ge _ _)) by lia. rewrite Nat2Z.id.
  destruct (keys p !! i) eqn:E; [done|].
  unfold onKey. rewrite alter_out_of_range by (by apply lookup_ge_None).
  by destruct p.
Qed.

Lemma foldl_resetKey n p :
  keys (foldl (fun q i => resetKey (Z.of_nat i) q) p (seq 0 n))
  = (map manualReset (take n (keys p)) ++ drop n (keys p))%list.
Proof.
  induction n as [|n IH].
  - simpl. by rewrite drop_0.
  - rewrite seq_S, foldl_app. cbn [foldl]. rewrite resetKey_onKey. cbn [Nat.add].
    unfold onKey. cbn [keys set_keys]. rewrite IH.
    destruct (keys p !! n) as [k|] eqn:E.
    + rewrite (take_S_r _ _ _ E), (drop_S _ _ _ E), map_app. cbn [map].
      rewrite <- app_assoc. cbn [app].
      assert (Hlen : length (map manualReset (take n (keys p))) = n).
      { rewrite length_map, length_take. apply lookup_lt_Some in E. lia. }
      rewrite alter_app_r_alt by lia. by rewrite Hlen, Nat.sub_diag.
    + apply lookup_ge_None in E.
      rewrite alter_out_of_range
        by (rewrite length_app, length_map, length_take, length_drop; lia).
      by rewrite !take_ge, !drop_ge by lia.
Qed.

Lemma foldl_resetKey_frame n p :
  let q := foldl (fun q i => resetKey (Z.of_nat i) q) p (seq 0 n) in
  currentIndex q = currentIndex p /\ initialized q = initialized p /\
  consecutiveAllExhausted q = consecutiveAllExhausted p.
Proof.
  induction n as [|n IH]; [done|].
  cbv zeta. rewrite seq_S, foldl_app. cbn [foldl]. by rewrite resetKey_onKey.
Qed.

End Resets.

(** X1. [resetKey] with a negative index or one past the end changes
    nothing.  With a valid index it clears the cooldown and the failure
    count of that record and sets its flag, and touches nothing else:
    the record keeps its key, its counters and its last error, the other
    records, the cursor and the exhaustion counter stay as they were. *)
Theorem resetKey_spec (idx : Z) (p : KeyPoolManager) :
  (idx < 0 \/ Z.of_nat (length (keys p)) <= idx -> resetKey idx p = p) /\
  (forall k, 0 <= idx -> keys p !! Z.to_nat idx = Some k ->
     let p' := resetKey idx p in
     keys p' !! Z.to_nat idx
       = Some (mkKeyState (key k) (index k) (instance k)
                 (totalRequests k) (successCount k) 0 (rateLimitHits k) 0
                 (lastUsedAt k) (lastErrorAt k) (lastError k) true) /\
     (forall j, j <> Z.to_nat idx -> keys p' !! j = keys p !! j) /\
     currentIndex p' = currentIndex p /\
     initialized p' = initialized p /\
     consecutiveAllExhausted p' = consecutiveAllExhausted p).
Proof.
  split.
  - intros Hout. unfold resetKey. destruct (Z.ltb_spec idx 0); [done|].
    destruct Hout as [?|Hge]; [lia|].
    rewrite (proj2 (lookup_ge_None _ _)); [done | lia].
  - intros k Hidx Hk p'. subst p'. unfold resetKey.
    rewrite (proj2 (Z.ltb_ge _ _)) by lia. rewrite Hk.
    split_and!; try done.
    + by rewrite lookup_onKey, Hk.
    + intros j Hj. by apply lookup_onKey_ne.
Qed.

Lemma resetKey_spec_witness :
  resetKey (-1) coolingPool = coolingPool /\
  resetKey 1 coolingPool = coolingPool /\
  isHealthy <$> keys (resetKey 0 coolingPool) !! 0%nat = Some true.
Proof.
  split_and!.
  - apply (proj1 (resetKey_spec (-1) coolingPool)). left. lia.
  - apply (proj1 (resetKey_spec 1 coolingPool)). right. vm_compute. discriminate.
  - destruct (proj2 (resetKey_spec 0 coolingPool)
                (mkKeyState "k1" 0 (mkRettiwt "k1" false) 1 0 1 0 121100
                   1000 1100 (Some "socket hang up") true)) as (H & _);
      [lia | reflexivity |].
    cbv zeta in H. change (Z.to_nat 0) with 0%nat in H. by rewrite H.
Defined.

(** X2. [resetAll] does what [resetKey] does, on every index in turn,
    and moreover clears the exhaustion counter, which [resetKey] leaves
    alone; resetting twice is the same as resetting once. *)
Theorem resetAll_resetKey (p : KeyPoolManager) :
  resetAll p
  = set_consecutiveAllExhausted 0
      (foldl (fun q i => resetKey (Z.of_nat i) q) p
         (seq 0 (length (keys p)))) /\
  resetAll (resetAll p) = resetAll p.
Proof.
  split.
  - pose proof (foldl_resetKey (length (keys p)) p) as Hkeys.
    destruct (foldl_resetKey_frame (length (keys p)) p) as (Hc & Hi & _).
    rewrite take_ge, drop_ge, app_nil_r in Hkeys by lia.
    destruct (foldl _ p _) as [ks c i e]. cbn in *. subst.
    reflexivity.
  - unfold resetAll, set_consecutiveAllExhausted, set_keys. cbn.
    by rewrite map_map.
Qed.

(* ================================================================== *)
(** ** Further properties: the status report *)
(* ================================================================== *)

Section Stats.
Variable roundSeconds : Z -> Z.
Variable roundPercent : Z -> Z -> Z.

Lemma filter_length_zero {A} (f : A -> bool) (l : list A) :
  length (List.filter f l) = 0%nat <-> forall x, x ∈ l -> f x = false.
Proof.
  induction l as [|a l IH]; simpl.
  - split; [intros _ x Hx; by apply elem_of_nil in Hx | done].
  - destruct (f a) eqn:Ha; simpl.
    + split; [done|]. intros H. rewrite H in Ha; [done|]. apply elem_of_cons. by left.
    + rewrite IH. split.
      * intros H x [->|Hx]%elem_of_cons; auto.
      * intros H x Hx. apply H, elem_of_cons. by right.
Qed.

Lemma filter_length_pos {A} (f : A -> bool) (l : list A) :
  (0 < length (List.filter f l))%nat <-> exists x, x ∈ l /\ f x = true.
Proof.
  split.
  - intros Hpos. destruct (List.filter f l) as [|x l'] eqn:E; [simpl in Hpos; lia|].
    assert (Hx : In x (List.filter f l)) by (rewrite E; by left).
    apply List.filter_In in Hx as [Hx Hf]. exists x.
    by rewrite list_elem_of_In.
  - intros (x & Hx & Hf). destruct (length (List.filter f l)) eqn:E; [|lia].
    pose proof (proj1 (filter_length_zero f l) E x Hx) as Hx'. congruence.
Qed.

(** [healthyKeys] counts the records a fresh call could select. *)
Lemma healthyKeys_zero now p :
  healthyKeys (getStats roundSeconds roundPercent now p) = 0%nat <->
  forall i, (i < length (keys p))%nat -> ~ eligible now ∅ (keys p) i.
Proof.
  cbn [healthyKeys getStats]. rewrite filter_length_zero. split.
  - intros H i _ (_ & k & Hk & Hh & Hc).
    specialize (H k (list_elem_of_lookup_2 _ _ _ Hk)).
    apply isCoolingDown_false in Hc. by rewrite Hh, Hc in H.
  - intros H k Hk. apply list_elem_of_lookup in Hk as [i Hi].
    destruct (isHealthy k) eqn:Hh; [|done].
    destruct (isCoolingDown now k) eqn:Hc; [done|].
    destruct (H i); [by eapply lookup_lt_Some|].
    split; [apply not_elem_of_empty|]. exists k. split_and!; try done.
    by apply isCoolingDown_false.
Qed.

Lemma coolingDownKeys_zero now p :
  coolingDownKeys (getStats roundSeconds roundPercent now p) = 0%nat <->
  forall k, k ∈ keys p -> cooldownUntil k <= now.
Proof.
  cbn [coolingDownKeys getStats]. rewrite filter_length_zero.
  split; intros H k Hk; by apply isCoolingDown_false, H.
Qed.

End Stats.

Lemma filter_map_length {A B} (f : B -> bool) (g : A -> B) (l : list A) :
  length (List.filter f (map g l))
  = length (List.filter (fun x => f (g x)) l).
Proof.
  induction l as [|a l IH]; [done|]. cbn [map List.filter].
  destruct (f (g a)); cbn [length]; by rewrite IH.
Qed.

(** X3. In the report, [healthyKeys] is the number of entries shown
    healthy and not cooling down, and [coolingDownKeys] the number of
    entries shown cooling down, healthy or not.  There is one entry per
    record, in order; the entry of a record shows its flag, shows it
    cooling down exactly when its cooldown ends after the clock
    reading, and is counted as healthy exactly when a call invoked at
    that moment could select the record.  Together with the unhealthy
    records whose cooldown is over, which the report does not count,
    the two counts make up [totalKeys]. *)
Theorem getStats_counts (roundSeconds : Z -> Z) (roundPercent : Z -> Z -> Z)
    (now : Z) (p : KeyPoolManager) :
  let st := getStats roundSeconds roundPercent now p in
  totalKeys st = length (keys p) /\
  length (stats_keys st) = totalKeys st /\
  healthyKeys st
  = length (List.filter
              (fun e => stat_isHealthy e && negb (stat_isCoolingDown e))
              (stats_keys st)) /\
  coolingDownKeys st
  = length (List.filter stat_isCoolingDown (stats_keys st)) /\
  (forall i e, stats_keys st !! i = Some e ->
     exists k, keys p !! i = Some k /\
       stat_isHealthy e = isHealthy k /\
       (stat_isCoolingDown e = true <-> now < cooldownUntil k) /\
       (stat_isHealthy e && negb (stat_isCoolingDown e) = true
        <-> eligible now ∅ (keys p) i)) /\
  totalKeys st
  = (healthyKeys st + coolingDownKeys st
     + length (List.filter
                 (fun k => negb (isHealthy k) && negb (isCoolingDown now k))
                 (keys p)))%nat /\
  (healthyKeys st + coolingDownKeys st <= totalKeys st)%nat.
Proof.
  cbn. assert (H : length (keys p)
    = (length (List.filter (fun k => isHealthy k && negb (isCoolingDown now k))
                 (keys p))
       + length (List.filter (isCoolingDown now) (keys p))
       + length (List.filter
                   (fun k => negb (isHealthy k) && negb (isCoolingDown now k))
                   (keys p)))%nat).
  { induction (keys p) as [|k l IH]; [done|]. cbn [List.filter length].
    destruct (isHealthy k), (isCoolingDown now k); cbn [andb negb length]; lia. }
  split_and!.
  - done.
  - by rewrite length_map.
  - by rewrite filter_map_length.
  - by rewrite filter_map_length.
  - intros i e. rewrite list_lookup_fmap.
    destruct (keys p !! i) as [k|] eqn:Hk; [|done]. intros [= <-].
    exists k. cbn. split_and!; try done.
    + destruct (isCoolingDown now k) eqn:Hc.
      * apply isCoolingDown_true in Hc. split; [lia | done].
      * apply isCoolingDown_false in Hc. split; [done | lia].
    + split.
      * intros [Hh Hc%negb_true_iff]%andb_true_iff.
        split; [apply not_elem_of_empty|]. exists k. split_and!; try done.
        by apply isCoolingDown_false.
      * intros (_ & k0 & Hk0 & Hh & Hc). assert (k0 = k) as -> by congruence.
        apply isCoolingDown_false in Hc. by rewrite Hh, Hc.
  - exact H.
  - lia.
Qed.

(** X4. The report sent back by [POST /api/keys/reset], at any clock
    reading that is not negative: every record is reported healthy and
    not cooling down, with no cooldown left, so that [healthyKeys] is
    [totalKeys] and [coolingDownKeys] is 0; the exhaustion counter of the
    pool is 0 and the number of records is unchanged. *)
Theorem postKeysReset_report (roundSeconds : Z -> Z)
    (roundPercent : Z -> Z -> Z) (now : Z) (p : KeyPoolManager) :
  0 <= now ->
  let p' := fst (postKeysReset roundSeconds roundPercent now p) in
  let st := snd (postKeysReset roundSeconds roundPercent now p) in
  totalKeys st = length (keys p) /\
  healthyKeys st = totalKeys st /\
  coolingDownKeys st = 0%nat /\
  (forall e, e ∈ stats_keys st ->
     stat_isHealthy e = true /\ stat_isCoolingDown e = false /\
     cooldownRemainingSec e = 0) /\
  consecutiveAllExhausted p' = 0 /\
  currentIndex p' = currentIndex p.
Proof.
  intros Hnow. cbn.
  assert (Hcool : forall k, isCoolingDown now (manualReset k) = false).
  { intros k. apply isCoolingDown_false. cbn. lia. }
  assert (H1 : forall l,
    List.filter (fun k => isHealthy k && negb (isCoolingDown now k))
      (map manualReset l) = map manualReset l).
  { induction l as [|k l IH]; [done|].
    change (map manualReset (k :: l)) with (manualReset k :: map manualReset l).
    cbn [List.filter]. rewrite Hcool.
    change (isHealthy (manualReset k)) with true. cbn [andb negb].
    by rewrite IH. }
  assert (H2 : forall l,
    List.filter (isCoolingDown now) (map manualReset l) = []).
  { induction l as [|k l IH]; [done|].
    change (map manualReset (k :: l)) with (manualReset k :: map manualReset l).
    cbn [List.filter]. by rewrite Hcool. }
  rewrite H1, H2, !length_map. split_and!; try done.
  intros e He. rewrite map_map in He.
  apply list_elem_of_In, in_map_iff in He as (k & <- & _).
  cbn [stat_isHealthy stat_isCoolingDown cooldownRemainingSec keyStats].
  by rewrite Hcool.
Qed.

Lemma postKeysReset_report_witness :
  let st := snd (postKeysReset (fun ms => ms / 1000) (fun a b => a * 100 / b)
                   2000 coolingPool) in
  healthyKeys st = totalKeys st /\ coolingDownKeys st = 0%nat.
Proof.
  destruct (postKeysReset_report (fun ms => ms / 1000) (fun a b => a * 100 / b)
              2000 coolingPool) as (_ & H1 & H2 & _); [lia|].
  split; [exact H1 | exact H2].
Defined.

(* ================================================================== *)
(** ** Further properties: what a fresh call does first *)
(* ================================================================== *)

Section FirstStep.
Context {T : Type}.
Implicit Types (p : KeyPoolManager) (c : Call T) (tried : gset nat).

Lemma execute_initialized now name p :
  initialized p = true -> keys p <> [] ->
  execute (T := T) now name p = loopHead now p (default "request" name) ∅.
Proof.
  intros Hi Hk. unfold execute. rewrite Hi.
  by destruct (keys p).
Qed.

(** When the record under the cursor is eligible, the loop takes it. *)
Lemma loopHead_at_cursor now p name tried k :
  let N := length (keys p) in
  let idx := (currentIndex p mod N)%nat in
  (size tried < N)%nat ->
  keys p !! idx = Some k ->
  eligible now tried (keys p) idx ->
  let p1 := set_currentIndex ((idx + 1) mod N)%nat p in
  let tried' := {[index k]} ∪ tried in
  (now - lastUsedAt k < 1500 /\ 0 < lastUsedAt k /\
   loopHead (T := T) now p name tried
   = (p1, mkCall name tried'
            (Awaiting (SleepRequestDelay idx (1500 - (now - lastUsedAt k)))))) \/
  (~ (now - lastUsedAt k < 1500 /\ 0 < lastUsedAt k) /\
   loopHead (T := T) now p name tried
   = (onKey idx (noteRequest now) p1,
      mkCall name tried' (Awaiting (OperationCall idx)))).
Proof.
  intros N idx Hsize Hk Hel p1 tried'.
  assert (Hidx : (idx < N)%nat) by (by eapply lookup_lt_Some).
  destruct (loopHead_cases (T := T) now p name tried)
    as [[Hge _]|[(_ & Hnone & _)|[(_ & Hnone & _)
       |(_ & a & idx' & k' & Ha & Hidx' & Hk' & _ & Hmin & Hres)]]].
  - fold N in Hge. lia.
  - by destruct (Hnone idx).
  - by destruct (Hnone idx).
  - destruct a as [|a].
    + rewrite Nat.add_0_r in Hidx'. fold N idx in Hidx'. subst idx'.
      assert (k' = k) as -> by congruence. exact Hres.
    + destruct (Hmin 0%nat); [lia|]. by rewrite Nat.add_0_r.
Qed.

End FirstStep.

(** X5. The report tells what a call invoked at the same moment on an
    initialized pool does first: with [healthyKeys] above 0 it takes
    hold of a record; with [healthyKeys] 0 and [coolingDownKeys] above 0
    it counts one exhaustion and sleeps, for at most 30 seconds; with
    both 0 it throws the exhaustion error at once, without changing the
    pool and without invoking the operation. *)
Theorem getStats_predicts_execute {T : Type} (roundSeconds : Z -> Z)
    (roundPercent : Z -> Z -> Z) (now : Z) (name : option string)
    (p : KeyPoolManager) :
  initialized p = true ->
  keys p <> [] ->
  let st := getStats roundSeconds roundPercent now p in
  let r := execute (T := T) now name p in
  ((0 < healthyKeys st)%nat -> exists idx, holdsKey idx (snd r)) /\
  (healthyKeys st = 0%nat -> (0 < coolingDownKeys st)%nat ->
     exists w, status (snd r) = Awaiting (SleepAllExhausted w) /\
       0 < w <= 30000 /\
       fst r = set_consecutiveAllExhausted (consecutiveAllExhausted p + 1) p) /\
  (healthyKeys st = 0%nat -> coolingDownKeys st = 0%nat ->
     r = (p, mkCall (default "request" name) ∅
               (Settled (Abrupt (JsErrorThrown
                  (allKeysExhaustedText (length (keys p))
                     (default "request" name))))))).
Proof.
  intros Hinit Hkeys st r. subst r. rewrite (execute_initialized now name p) by done.
  pose proof (healthyKeys_zero roundSeconds roundPercent now p) as Hh.
  pose proof (coolingDownKeys_zero roundSeconds roundPercent now p) as Hc.
  fold st in Hh, Hc.
  destruct (loopHead_cases (T := T) now p (default "request" name) ∅)
    as [[Hge _]|[(_ & Hnone & Hcold & ->)|[(_ & Hnone & d & Hd & Hpos & ->)
       |(_ & a & idx & k & _ & _ & Hk & Hel & _ & Hres)]]].
  - rewrite size_empty in Hge. destruct (keys p); [done | simpl in Hge; lia].
  - apply Hh in Hnone. apply Hc in Hcold. split_and!; [lia | lia | done].
  - apply Hh in Hnone. split_and!; [lia | | ].
    + intros _ _. eexists. split_and!; [done | lia | lia | done].
    + intros _ Hz. destruct Hd as [(k & Hk & Hcool & _) _].
      pose proof (proj1 Hc Hz k Hk). lia.
  - assert (Hpos : (0 < healthyKeys st)%nat).
    { destruct (decide (healthyKeys st = 0%nat)) as [E|E]; [|lia].
      destruct (proj1 Hh E idx); [by eapply lookup_lt_Some | done]. }
    split_and!; [|lia|lia]. intros _. exists idx. unfold holdsKey.
    destruct Hres as [(_ & _ & ->)|(_ & ->)]; done.
Qed.

Lemma getStats_predicts_execute_witness :
  exists w, status (snd (execute (T := string) 2000 None coolingPool))
            = Awaiting (SleepAllExhausted w) /\ 0 < w <= 30000.
Proof.
  destruct (getStats_predicts_execute (T := string)
              (fun ms => ms / 1000) (fun a b => a * 100 / b) 2000 None
              coolingPool) as (_ & H & _); [reflexivity | discriminate |].
  destruct H as (w & Hw & Hb & _);
    [vm_compute; reflexivity | vm_compute; lia |].
  exists w. split; [exact Hw | exact Hb].
Defined.

(** X6. When the record under the cursor is healthy and not cooling
    down, a call invoked on an initialized pool takes hold of that very
    record, whatever the state of the others, notes its index as tried,
    and moves the cursor one position on, circularly. *)
Theorem execute_takes_cursor_record {T : Type} (now : Z)
    (name : option string) (p : KeyPoolManager) (k : KeyState) :
  let N := length (keys p) in
  initialized p = true ->
  keys p !! (currentIndex p mod N)%nat = Some k ->
  isHealthy k = true ->
  cooldownUntil k <= now ->
  let r := execute (T := T) now name p in
  holdsKey (currentIndex p mod N)%nat (snd r) /\
  triedKeys (snd r) = {[index k]} /\
  currentIndex (fst r) = ((currentIndex p + 1) mod N)%nat.
Proof.
  intros N Hinit Hk Hh Hc r. subst r.
  assert (Hkeys : keys p <> []) by (intros E; by rewrite E in Hk).
  rewrite (execute_initialized now name p) by done.
  assert (Hel : eligible now ∅ (keys p) (currentIndex p mod N)%nat).
  { split; [apply not_elem_of_empty|]. by exists k. }
  assert (Hsize : (size (∅ : gset nat) < N)%nat).
  { rewrite size_empty. subst N. destruct (keys p); [done | simpl; lia]. }
  destruct (loopHead_at_cursor (T := T) now p (default "request" name) ∅ k
              Hsize Hk Hel) as [(_ & _ & ->)|(_ & ->)];
    cbn; (split_and!; [done | by rewrite (right_id_L ∅ (∪))
                       | by rewrite Nat.Div0.add_mod_idemp_l]).
Qed.

Lemma execute_takes_cursor_record_witness :
  holdsKey 0 (snd (execute (T := string) 1000 None oneKeyPool)) /\
  triedKeys (snd (execute (T := string) 1000 None oneKeyPool)) = {[0%nat]} /\
  currentIndex (fst (execute (T := string) 1000 None oneKeyPool)) = 0%nat.
Proof.
  apply (execute_takes_cursor_record (T := string) 1000 None oneKeyPool
           k1Record); try reflexivity. vm_compute. discriminate.
Defined.

(* ================================================================== *)
(** ** Further properties: sleeping and cooling down *)
(* ================================================================== *)

(** X7. Every sleep a call starts is positive and bounded.  The wait
    for a cooldown lasts between 1 ms and 30 s and, unless capped at
    30 s, ends exactly when the earliest cooldown of the pool ends; the
    spacing delay before a request is what is missing to 1500 ms since
    the record was last used, hence at most 1500 ms when the clock has
    not gone back. *)
Theorem sleeps_are_bounded {T : Type} (now : Z) (p : KeyPoolManager)
    (name : string) (tried : gset nat) :
  match status (snd (loopHead (T := T) now p name tried)) with
  | Awaiting (SleepAllExhausted w) =>
      0 < w <= 30000 /\
      exists k, k ∈ keys p /\ now < cooldownUntil k /\
        (forall k', k' ∈ keys p -> now < cooldownUntil k' ->
           cooldownUntil k <= cooldownUntil k') /\
        w = Z.min (cooldownUntil k - now) 30000
  | Awaiting (SleepRequestDelay idx ms) =>
      exists k, keys p !! idx = Some k /\
        ms = 1500 - (now - lastUsedAt k) /\ 0 < ms /\
        (lastUsedAt k <= now -> ms <= 1500)
  | _ => True
  end.
Proof.
  destruct (loopHead_cases (T := T) now p name tried)
    as [[_ ->]|[(_ & _ & _ & ->)|[(_ & _ & d & Hd & Hpos & ->)
       |(_ & a & idx & k & _ & _ & Hk & _ & _ & [(H1 & H2 & ->)|(_ & ->)])]]];
    cbn; try done.
  - destruct Hd as [(k & Hk & Hc & ->) Hmin]. split; [lia|].
    exists k. split_and!; try done; try lia.
    intros k' Hk' Hc'. specialize (Hmin k' Hk'). lia.
  - exists k. split_and!; try done; lia.
Qed.

Section Cooling.
Context {T : Type}.
Implicit Types (p : KeyPoolManager) (s : System T).

(** A pass of the loop leaves a record that is cooling down as it is,
    and does not take it. *)
Lemma loopHead_skips now p name (tried : gset nat) i k :
  keys p !! i = Some k ->
  now < cooldownUntil k ->
  keys (fst (loopHead (T := T) now p name tried)) !! i = Some k /\
  ~ holdsKey i (snd (loopHead (T := T) now p name tried)).
Proof.
  intros Hk Hcool.
  assert (Hne : forall idx, eligible now tried (keys p) idx -> idx <> i).
  { intros idx (_ & k1 & Hk1 & _ & Hle) ->.
    assert (k1 = k) by congruence. subst. lia. }
  destruct (loopHead_cases (T := T) now p name tried)
    as [[_ ->]|[(_ & _ & _ & ->)|[(_ & _ & d & _ & _ & ->)
       |(_ & a & idx & k0 & _ & _ & _ & Hel & _ & [(_ & _ & ->)|(_ & ->)])]]];
    cbn [fst snd]; try (split; [done | unfold holdsKey; cbn; by intros ?]).
  - specialize (Hne idx Hel). split; [done|]. unfold holdsKey. cbn. done.
  - specialize (Hne idx Hel). split.
    + by rewrite lookup_onKey_ne.
    + unfold holdsKey. cbn. done.
Qed.

Lemma untouchedAndFree_step i k s (a : Action T) :
  actionTime a < cooldownUntil k ->
  untouchedAndFree i k s -> untouchedAndFree i k (act s a).
Proof.
  intros Ht [Hk Hfree]. destruct a as [now name|cid now ev]; cbn in Ht.
  - cbn [act]. unfold execute.
    destruct (negb (initialized (pool s)) || _).
    + split; [done|]. cbn [calls].
      intros c [Hc|Hc%list_elem_of_singleton]%elem_of_app; [by apply Hfree|].
      subst c. unfold holdsKey. cbn. by intros ?.
    + destruct (loopHead_skips now (pool s) (default "request" name) ∅ i k
                  Hk Ht) as [Hk' Hnot].
      destruct (loopHead now (pool s) _ ∅) as [p' c']. cbn [fst snd] in *.
      split; [done|]. cbn [calls].
      intros c [Hc|Hc%list_elem_of_singleton]%elem_of_app; [by apply Hfree|].
      by subst c.
  - cbn [act]. destruct (calls s !! cid) as [c0|] eqn:Hc0; [|by split].
    assert (Hc0free : ~ holdsKey i c0)
      by (apply Hfree; by eapply list_elem_of_lookup_2).
    assert (Hres : keys (fst (resume now ev (pool s) c0)) !! i = Some k /\
                   ~ holdsKey i (snd (resume now ev (pool s) c0))).
    { unfold resume. unfold holdsKey in Hc0free.
      destruct (status c0) as [[w|idx ms|idx]|r] eqn:Hst;
        destruct ev as [|res|err]; unfold sendRequest, onSuccess;
        cbn [fst snd];
        try (split; [done | unfold holdsKey; by rewrite Hst]).
      - by apply loopHead_skips.
      - split; [by rewrite lookup_onKey_ne | unfold holdsKey; cbn; done].
      - split; [|unfold holdsKey; cbn; by intros ?].
        cbn [keys set_consecutiveAllExhausted]. by rewrite lookup_onKey_ne.
      - unfold onFailure. apply loopHead_skips; [|done].
        by rewrite lookup_onKey_ne. }
    destruct (resume now ev (pool s) c0) as [p' c'].
    cbn [fst snd] in Hres. destruct Hres as [Hk' Hnot].
    split; [done|]. cbn [calls].
    intros c Hc. apply list_elem_of_lookup in Hc as [j Hj].
    destruct (decide (cid = j)) as [<-|Hne].
    + rewrite list_lookup_insert_eq in Hj by (by eapply lookup_lt_Some).
      by injection Hj as <-.
    + rewrite list_lookup_insert_ne in Hj by done.
      apply Hfree. by eapply list_elem_of_lookup_2.
Qed.

End Cooling.

(** X8. A record on which an attempt has just failed, and on which no
    other call is in flight at that moment, is left alone until its
    cooldown has run out: 15 minutes after a rate limit, 2 minutes
    after any other error.  Whatever the calls do in between, in any
    order, the record stays exactly as the failure has left it, no call
    takes hold of it, and no selection returns it, whatever the
    tried-set; from the end of the cooldown on it is no longer cooling
    down.  (A call in flight on the record when it fails, or a manual
    reset, can end the cooldown earlier.) *)
Theorem failed_record_is_skipped {T : Type} (s : System T) (cid : nat)
    (c : Call T) (now : Z) (idx : nat) (error : JsError) (k : KeyState)
    (schedule : list (Action T)) :
  calls s !! cid = Some c ->
  status c = Awaiting (OperationCall idx) ->
  keys (pool s) !! idx = Some k ->
  (forall j c', calls s !! j = Some c' -> j <> cid -> ~ holdsKey idx c') ->
  let cooldown := if isRateLimitError error then 15 * 60 * 1000
                  else 2 * 60 * 1000 in
  Forall (fun a => actionTime a < now + cooldown) schedule ->
  let s' := run (act s (Deliver cid now (Rejected error))) schedule in
  keys (pool s') !! idx = Some (noteFailure now error k) /\
  cooldownUntil (noteFailure now error k) = now + cooldown /\
  (forall c', c' ∈ calls s' -> ~ holdsKey idx c') /\
  (forall t tried k', t < now + cooldown ->
     fst (getNextAvailableKey t tried (pool s')) <> Some (idx, k')) /\
  (forall t, now + cooldown <= t ->
     isCoolingDown t (noteFailure now error k) = false).
Proof.
  intros Hcid Hc Hk Hothers cooldown Hsched s'.
  assert (Hcd : cooldownUntil (noteFailure now error k) = now + cooldown).
  { unfold noteFailure, cooldown, RATE_LIMIT_COOLDOWN_MS, ERROR_COOLDOWN_MS.
    destruct (isRateLimitError error); [done|]. cbn. by destruct (_ >=? _). }
  assert (Hpos : 0 < cooldown).
  { unfold cooldown. destruct (isRateLimitError error); lia. }
  assert (Hfirst : untouchedAndFree idx (noteFailure now error k)
                     (act s (Deliver cid now (Rejected error)))).
  { cbn [act]. rewrite Hcid. unfold resume. rewrite Hc. unfold onFailure.
    destruct (loopHead_skips (T := T) now
                (onKey idx (noteFailure now error) (pool s))
                (operationName c) (triedKeys c) idx (noteFailure now error k))
      as [Hk' Hnot].
    { by rewrite lookup_onKey, Hk. }
    { lia. }
    destruct (loopHead now _ _ _) as [p' c']. cbn [fst snd] in *.
    split; [done|]. cbn [calls].
    intros c0 Hc0. apply list_elem_of_lookup in Hc0 as [j Hj].
    destruct (decide (cid = j)) as [<-|Hne].
    - rewrite list_lookup_insert_eq in Hj by (by eapply lookup_lt_Some).
      by injection Hj as <-.
    - rewrite list_lookup_insert_ne in Hj by done.
      by apply (Hothers j). }
  assert (H : untouchedAndFree idx (noteFailure now error k) s').
  { apply (run_invariant
             (fun a => actionTime a < cooldownUntil (noteFailure now error k)));
      [| by rewrite Hcd | done].
    intros s0 a. apply untouchedAndFree_step. }
  destruct H as [Hk' Hfree]. split_and!; try done.
  - intros t tried k' Ht Hsel.
    destruct (getNextAvailableKey t tried (pool s')) as [o p2] eqn:E.
    simpl in Hsel. subst o.
    apply getNextAvailableKey_inv in E
      as (_ & _ & _ & _ & (_ & k2 & Hk2 & _ & Hcool) & _).
    assert (k2 = noteFailure now error k) by congruence. subst. lia.
  - intros t Ht. apply isCoolingDown_false. lia.
Qed.

Lemma failed_record_is_skipped_witness :
  keys (pool (run (act firstInFlight (Deliver 0 1100 (Rejected genericError)))
                whileCooling)) !! 0%nat
  = Some (noteFailure 1100 genericError (noteRequest 1000 k1Record)) /\
  isCoolingDown 121100 (noteFailure 1100 genericError (noteRequest 1000 k1Record))
  = false.
Proof.
  destruct (failed_record_is_skipped firstInFlight 0 (snd firstAttempt) 1100 0
              genericError (noteRequest 1000 k1Record) whileCooling)
    as (H1 & _ & _ & _ & H5).
  - reflexivity.
  - reflexivity.
  - reflexivity.
  - intros [|j] c' Hj Hne; [done|]. by destruct j.
  - unfold whileCooling.
    repeat (constructor; [vm_compute; reflexivity|]). constructor.
  - split; [exact H1|]. apply H5. vm_compute. discriminate.
Defined.

(* ================================================================== *)
(** ** Further properties: parsing the configuration *)
(* ================================================================== *)

Section MoreParsing.

Lemma trim_empty_iff s : Js.trim s = EmptyString <-> allWhiteSpace s = true.
Proof.
  split; [|apply trim_allWhiteSpace].
  intros H. destruct (trim_spec s) as (l & r & Hs & Hl & Hr).
  rewrite H in Hs. simpl in Hs. rewrite Hs. clear Hs H.
  induction l as [|c l IH]; simpl in *; [done|].
  apply andb_true_iff in Hl as [-> Hl]. auto.
Qed.

Lemma split_allWhiteSpace_iff s :
  Forall (fun piece => allWhiteSpace piece = true) (Js.split "," s)
  <-> onlyCommasAndBlanks s = true.
Proof.
  induction s as [|c s IH]; cbn [Js.split onlyCommasAndBlanks].
  - split; [done | by repeat constructor].
  - destruct (split_cons "," s) as (piece & rest & E). rewrite E in *.
    destruct (Ascii.eqb_spec c ",") as [->|Hne]; cbn [orb andb].
    + rewrite <- IH. split; [by inversion 1 | by constructor].
    + rewrite andb_true_iff, <- IH, !Forall_cons. cbn [allWhiteSpace].
      rewrite andb_true_iff. tauto.
Qed.

Lemma parseKeyList_nil_iff s :
  parseKeyList s = [] <-> onlyCommasAndBlanks s = true.
Proof.
  rewrite <- split_allWhiteSpace_iff. unfold parseKeyList.
  induction (Js.split "," s) as [|piece l IH]; [done|].
  cbn [map List.filter]. rewrite Forall_cons, <- IH, <- trim_empty_iff.
  destruct (Js.trim piece); cbn; [tauto|].
  split; [discriminate | by intros [? _]].
Qed.

(** No piece of a split contains the separator. *)
Lemma split_no_sep sep s piece :
  piece ∈ Js.split sep s -> Js.includes (String sep EmptyString) piece = false.
Proof.
  revert piece. induction s as [|c s IH]; intros piece; cbn [Js.split].
  - by intros ->%list_elem_of_singleton.
  - destruct (split_cons sep s) as (first & rest & E). rewrite E in *.
    destruct (Ascii.eqb_spec c sep) as [->|Hne].
    + intros [->|H]%elem_of_cons; [done | by apply IH].
    + intros [->|H]%elem_of_cons.
      * cbn. destruct (Ascii.eqb_spec sep c) as [->|_]; [done|].
        apply IH. apply elem_of_cons. by left.
      * apply IH. apply elem_of_cons. by right.
Qed.

Lemma includes_append pat l s r :
  Js.includes pat s = true -> Js.includes pat (l +:+ s +:+ r) = true.
Proof.
  rewrite !includes_spec. intros (pre & post & ->).
  exists (l +:+ pre), (post +:+ r). by rewrite !append_assoc.
Qed.

Lemma trim_no_sep pat s :
  Js.includes pat s = false -> Js.includes pat (Js.trim s) = false.
Proof.
  intros H. destruct (Js.includes pat (Js.trim s)) eqn:E; [|done].
  destruct (trim_spec s) as (l & r & Hs & _).
  apply (includes_append pat l _ r) in E. rewrite <- Hs in E. congruence.
Qed.

Lemma trimEnd_idempotent s : Js.trimEnd (Js.trimEnd s) = Js.trimEnd s.
Proof.
  induction s as [|c s IH]; [done|]. cbn [Js.trimEnd].
  destruct (Js.trimEnd s) as [|d t] eqn:E.
  - destruct (Js.isWhiteSpace c) eqn:Hc; [done|]. cbn. by rewrite Hc.
  - cbn [Js.trimEnd]. cbn [Js.trimEnd] in IH.
    destruct (match Js.trimEnd t with
              | EmptyString => if Js.isWhiteSpace d then EmptyString
                               else String d EmptyString
              | String a s0 => String d (String a s0) end); [done|].
    by rewrite IH.
Qed.

Lemma trimStart_trimEnd s :
  Js.trimStart (Js.trimEnd (Js.trimStart s)) = Js.trimEnd (Js.trimStart s).
Proof.
  assert (H : forall x, Js.trimStart x = x -> Js.trimStart (Js.trimEnd x) = Js.trimEnd x).
  { intros [|c x] Hx; [done|]. cbn [Js.trimStart] in Hx.
    destruct (Js.isWhiteSpace c) eqn:Hc.
    - exfalso. destruct (trimStart_spec x) as (ws & Hws & _).
      apply (f_equal String.length) in Hx. apply (f_equal String.length) in Hws.
      rewrite length_append in Hws. simpl in Hx. lia.
    - cbn [Js.trimEnd]. destruct (Js.trimEnd x); rewrite ?Hc; cbn; by rewrite Hc. }
  apply H. induction s as [|c s IH]; [done|]. cbn [Js.trimStart].
  destruct (Js.isWhiteSpace c) eqn:Hc; [done|]. cbn. by rewrite Hc.
Qed.

Lemma trim_idempotent s : Js.trim (Js.trim s) = Js.trim s.
Proof. unfold Js.trim. by rewrite trimStart_trimEnd, trimEnd_idempotent. Qed.

Lemma parseKeyList_clean apiKeys entry :
  entry ∈ parseKeyList apiKeys ->
  entry <> EmptyString /\ Js.includes "," entry = false /\
  noSurroundingBlanks entry.
Proof.
  unfold parseKeyList. rewrite list_elem_of_In, List.filter_In, in_map_iff.
  intros [(piece & <- & Hpiece) Hne]. split_and!.
  - intros E. by rewrite E in Hne.
  - apply trim_no_sep, (split_no_sep "," apiKeys). by apply list_elem_of_In.
  - apply trim_idempotent.
Qed.

End MoreParsing.

(** X9. On a manager that is not initialized, [initialize] returns
    normally exactly when the text holds a character other than commas
    and white space and the constructor of the client accepts every
    entry.  On a text of nothing but commas and white space (the empty
    text included) it throws the configuration error and leaves the
    manager as it was; on any other text, what it throws is what the
    constructor has thrown on one of the entries.  So the
    initialization done when the service is imported throws the
    configuration error when [RETTIWT_API_KEYS] is not set. *)
Theorem initialize_throws_iff {lib : RettiwtLibrary} (apiKeys : string)
    (p : KeyPoolManager) :
  initialized p = false ->
  (onlyCommasAndBlanks apiKeys = true ->
   initialize apiKeys p = (Abrupt noKeysError, p)) /\
  (fst (initialize apiKeys p) = Normal tt
   <-> onlyCommasAndBlanks apiKeys = false /\
       forall entry, entry ∈ parseKeyList apiKeys ->
         constructorThrows entry = None) /\
  (onlyCommasAndBlanks apiKeys = false ->
   forall e, fst (initialize apiKeys p) = Abrupt e ->
     snd (initialize apiKeys p) = p /\
     exists entry, entry ∈ parseKeyList apiKeys /\
       constructorThrows entry = Some e) /\
  initializeFromEnv None p = (Abrupt noKeysError, p).
Proof.
  intros Hinit.
  assert (Henv : initializeFromEnv None p = (Abrupt noKeysError, p)).
  { unfold initializeFromEnv, initialize. by rewrite Hinit. }
  pose proof (parseKeyList_nil_iff apiKeys) as H.
  unfold initialize. rewrite Hinit.
  destruct (parseKeyList apiKeys) as [|x l] eqn:E.
  - rewrite (proj1 H eq_refl). cbn. split_and!; try done.
    split; [done | by intros [? _]].
  - destruct (onlyCommasAndBlanks apiKeys); [discriminate (proj2 H eq_refl)|].
    cbn [length Nat.eqb].
    destruct (mapKeys_cases (x :: l))
      as [Hall|(before & y & after & e & Hl & Hb & Hy)].
    + rewrite (mapKeys_accepted _ 0 Hall). cbn [fst snd].
      split_and!; try done.
      split; [|done]. intros _. split; [done|]. by apply Forall_forall.
    + rewrite Hl, (mapKeys_refused _ _ _ _ 0 Hb Hy). cbn [fst snd].
      assert (Hin : y ∈ (before ++ y :: after)%list).
      { apply elem_of_app. right. apply elem_of_cons. by left. }
      split_and!; try done.
      * split; [done|]. intros [_ Hall]. specialize (Hall y Hin). congruence.
      * intros _ e' [= <-]. split; [done|]. by exists y.
Qed.

Lemma initialize_throws_iff_witness :
  initialize (lib := refusingLibrary) " , ,, " newKeyPoolManager
  = (Abrupt noKeysError, newKeyPoolManager) /\
  fst (initialize (lib := acceptingLibrary) " , ,x, " newKeyPoolManager)
  = Normal tt /\
  exists entry, entry ∈ parseKeyList " , ,x, " /\
    constructorThrows (RettiwtLibrary := refusingLibrary) entry
    = Some invalidAuthenticationData.
Proof.
  split_and!.
  - destruct (initialize_throws_iff (lib := refusingLibrary) " , ,, "
                newKeyPoolManager eq_refl) as (H & _).
    apply H. reflexivity.
  - destruct (initialize_throws_iff (lib := acceptingLibrary) " , ,x, "
                newKeyPoolManager eq_refl) as (_ & H & _).
    apply H. split; [reflexivity | done].
  - destruct (initialize_throws_iff (lib := refusingLibrary) " , ,x, "
                newKeyPoolManager eq_refl) as (_ & _ & H & _).
    destruct (H eq_refl invalidAuthenticationData eq_refl) as [_ Hentry].
    exact Hentry.
Defined.

(** X10. Every key stored by a successful [initialize] is non-empty,
    contains no comma and has no white space at either end, and the
    client created for it is bound to that very key. *)
Theorem initialize_keys_clean {lib : RettiwtLibrary} (apiKeys : string)
    (p : KeyPoolManager) (k : KeyState) :
  initialized p = false ->
  fst (initialize apiKeys p) = Normal tt ->
  k ∈ keys (snd (initialize apiKeys p)) ->
  key k <> EmptyString /\ Js.includes "," (key k) = false /\
  noSurroundingBlanks (key k) /\ apiKey (instance k) = key k.
Proof.
  intros Hinit.
  destruct (initialize_cases apiKeys p)
    as [[Hi _]|[(_ & e & ->)|(_ & _ & _ & ->)]]; [congruence | done |].
  intros _. cbn.
  intros (i & Hi)%list_elem_of_lookup. rewrite list_lookup_imap in Hi.
  destruct (parseKeyList apiKeys !! i) as [entry|] eqn:E; [|done].
  injection Hi as <-. cbn.
  destruct (parseKeyList_clean apiKeys entry) as (H1 & H2 & H3);
    [by eapply list_elem_of_lookup_2|].
  by split_and!.
Qed.

Lemma initialize_keys_clean_witness :
  let k := keyStateOf 1 "k2" (mkRettiwt "k2" false) in
  key k <> EmptyString /\
  Js.includes "," (key k) = false /\
  noSurroundingBlanks (key k) /\
  apiKey (instance k) = key k.
Proof.
  apply (initialize_keys_clean (lib := acceptingLibrary) " k1 ,, k2 "
           newKeyPoolManager (keyStateOf 1 "k2" (mkRettiwt "k2" false))
           eq_refl eq_refl).
  apply (list_elem_of_lookup_2 _ 1%nat). reflexivity.
Defined.

(** Splitting distributes over a separator. *)
Lemma split_app sep s1 s2 :
  Js.split sep (s1 +:+ String sep s2)
  = (Js.split sep s1 ++ Js.split sep s2)%list.
Proof.
  induction s1 as [|c s1 IH]; cbn [String.append Js.split].
  - by rewrite Ascii.eqb_refl.
  - rewrite IH. destruct (split_cons sep s1) as (piece & rest & ->).
    by destruct (Ascii.eqb c sep).
Qed.

(** A text without the separator is one piece. *)
Lemma split_one_piece sep s :
  Js.includes (String sep EmptyString) s = false -> Js.split sep s = [s].
Proof.
  induction s as [|c s IH]; [done|]. cbn [Js.includes Js.startsWith Js.split].
  rewrite (Ascii.eqb_sym c sep).
  destruct (Ascii.eqb sep c); [by destruct s|].
  intros H. by rewrite (IH H).
Qed.

(** X11. [config.twitterListIds] holds the non-empty pieces between the
    commas of [TWITTER_LIST_IDS], all of them, in order and untrimmed.
    No id is empty or contains a comma, and the list is empty exactly
    when the variable is unset, empty or made of commas only.  A text
    without commas is, unless empty, one id as it stands; the ids of a
    text with a comma are those before the comma followed by those
    after it; so a list of non-empty ids without commas, joined with
    commas, is read back as it is. *)
Theorem twitterListIds_spec (env : option string) :
  (forall id, id ∈ twitterListIds env ->
     id <> EmptyString /\ Js.includes "," id = false) /\
  (twitterListIds env = [] <-> onlyCommas (envOrEmpty env) = true) /\
  twitterListIds env = twitterListIds (Some (envOrEmpty env)) /\
  twitterListIds None = [] /\
  (forall s, Js.includes "," s = false ->
     twitterListIds (Some s) = if String.eqb s EmptyString then [] else [s]) /\
  (forall s1 s2,
     twitterListIds (Some (s1 +:+ "," +:+ s2))
     = (twitterListIds (Some s1) ++ twitterListIds (Some s2))%list) /\
  (forall ids,
     Forall (fun id => id <> EmptyString /\ Js.includes "," id = false) ids ->
     twitterListIds (Some (String.concat "," ids)) = ids).
Proof.
  assert (Hsome : forall s, envOrEmpty (Some s) = s) by (by intros [|c s]).
  assert (Hone : forall s, Js.includes "," s = false ->
            twitterListIds (Some s)
            = if String.eqb s EmptyString then [] else [s]).
  { intros s Hs. unfold twitterListIds. rewrite Hsome.
    rewrite (split_one_piece "," s Hs). cbn [List.filter].
    by destruct (String.eqb s EmptyString). }
  assert (Happ : forall s1 s2,
            twitterListIds (Some (s1 +:+ "," +:+ s2))
            = (twitterListIds (Some s1) ++ twitterListIds (Some s2))%list).
  { intros s1 s2. unfold twitterListIds. rewrite !Hsome.
    change ("," +:+ s2) with (String "," s2).
    by rewrite split_app, List.filter_app. }
  split_and!.
  - unfold twitterListIds. intros id. rewrite list_elem_of_In, List.filter_In.
    intros [Hid Hne]. split.
    + intros ->. done.
    + apply (split_no_sep "," (envOrEmpty env)). by apply list_elem_of_In.
  - unfold twitterListIds. induction (envOrEmpty env) as [|c s IH]; [done|].
    cbn [Js.split onlyCommas].
    destruct (split_cons "," s) as (piece & rest & E). rewrite E in *.
    destruct (Ascii.eqb_spec c ",") as [->|Hne]; cbn [List.filter andb].
    + exact IH.
    + cbn. split; done.
  - unfold twitterListIds. by rewrite Hsome.
  - done.
  - exact Hone.
  - exact Happ.
  - induction ids as [|id ids IH]; [done|].
    intros [[Hne Hid] Hids]%Forall_cons. specialize (IH Hids).
    destruct ids as [|id' ids].
    + cbn [String.concat]. rewrite (Hone id Hid).
      destruct (String.eqb_spec id EmptyString); done.
    + change (String.concat "," (id :: id' :: ids))
        with (id +:+ "," +:+ String.concat "," (id' :: ids)).
      rewrite Happ, IH, (Hone id Hid).
      destruct (String.eqb_spec id EmptyString); done.
Qed.

Lemma twitterListIds_spec_witness :
  twitterListIds (Some "12,34 ") = ["12"; "34 "].
Proof.
  destruct (twitterListIds_spec None) as (_ & _ & _ & _ & _ & _ & H).
  apply (H ["12"; "34 "]).
  repeat (constructor; [by split|]). constructor.
Defined.

(* ================================================================== *)
(** ** Further properties: what holds in every reachable state *)
(* ================================================================== *)

Section Soundness.
Context {T : Type} {lib : RettiwtLibrary}.
Implicit Types (p : KeyPoolManager) (c : Call T) (s : System T)
  (a : Action T) (r : Request T).

Lemma recordSound_noteRequest t k : recordSound k -> recordSound (noteRequest t k).
Proof. done. Qed.

Lemma recordSound_noteSuccess k : recordSound k -> recordSound (noteSuccess k).
Proof.
  intros (_ & _ & Hs & Hr & H1 & H2 & H3 & H4). unfold recordSound. cbn.
  split_and!; try done; try lia.
Qed.

Lemma recordSound_noteFailure t e k :
  recordSound k -> recordSound (noteFailure t e k).
Proof.
  intros (Hf & Hh & Hs & Hr & H1 & H2 & H3 & H4).
  unfold recordSound, noteFailure.
  destruct (isRateLimitError e); cbn.
  - split_and!; try done; lia.
  - unfold MAX_CONSECUTIVE_FAILS. rewrite Z.geb_leb.
    destruct (Z.leb_spec 5 (failCount k + 1)); cbn;
      (split_and!; try done; try lia);
      split; intros Hu; solve [ lia | exfalso; lia | apply Hh in Hu; lia ].
Qed.

Lemma recordSound_manualReset k : recordSound k -> recordSound (manualReset k).
Proof.
  intros (_ & _ & Hs & Hr & H1 & H2 & H3 & H4). unfold recordSound. cbn.
  split_and!; try done; try lia.
Qed.

Lemma recordSound_keyStateOf apiKeys i entry :
  entry ∈ parseKeyList apiKeys ->
  recordSound (keyStateOf i entry (mkRettiwt entry false)).
Proof.
  intros (H1 & H2 & H3)%parseKeyList_clean. unfold recordSound. cbn.
  split_and!; try done; try lia.
Qed.

Lemma Forall_onKey (P : KeyState -> Prop) idx f p :
  (forall k, P k -> P (f k)) -> Forall P (keys p) -> Forall P (keys (onKey idx f p)).
Proof. intros Hf Hp. cbn. apply Forall_alter; [done|]. intros k _. by apply Hf. Qed.

Lemma act_recordSound s a :
  Forall recordSound (keys (pool s)) -> Forall recordSound (keys (pool (act s a))).
Proof.
  intros Hs. destruct a as [now name|cid now ev]; simpl.
  - destruct (execute now name (pool s)) as [p' c'] eqn:E. cbn.
    replace p' with (fst (execute (T := T) now name (pool s)))
      by (by rewrite E).
    unfold execute. destruct (_ || _); [done|].
    by apply loopHead_Forall.
  - destruct (calls s !! cid) as [c0|]; [|done].
    destruct (resume now ev (pool s) c0) as [p' c'] eqn:E. cbn.
    replace p' with (fst (resume now ev (pool s) c0)) by (by rewrite E).
    unfold resume.
    destruct (status c0) as [[w|idx ms|idx]|o]; destruct ev as [|res|err];
      try done.
    + by apply loopHead_Forall.
    + by apply Forall_onKey.
    + apply (Forall_onKey _ idx noteSuccess); [|done].
      apply recordSound_noteSuccess.
    + apply loopHead_Forall; [done|]. apply Forall_onKey; [|done].
      apply recordSound_noteFailure.
Qed.

Lemma serve_recordSound s r :
  Forall recordSound (keys (pool s)) ->
  Forall recordSound (keys (pool (serve s r))).
Proof.
  intros Hs. destruct r as [a|apiKeys|index|]; cbn [serve pool].
  - by apply act_recordSound.
  - destruct (initialize_cases apiKeys (pool s))
      as [[_ ->]|[(_ & e & ->)|(_ & _ & _ & ->)]]; [done | done |]. cbn.
    apply Forall_forall. intros k (i & Hi)%list_elem_of_lookup.
    rewrite list_lookup_imap in Hi.
    destruct (parseKeyList apiKeys !! i) as [entry|] eqn:E; [|done].
    injection Hi as <-. eapply recordSound_keyStateOf.
    by eapply list_elem_of_lookup_2.
  - unfold resetKey. destruct (index <? 0); [done|].
    destruct (keys (pool s) !! Z.to_nat index); [|done].
    apply Forall_onKey; [|done]. apply recordSound_manualReset.
  - cbn. apply Forall_forall. intros k Hk.
    apply list_elem_of_In, in_map_iff in Hk as (k0 & <- & Hk0).
    apply recordSound_manualReset.
    rewrite Forall_forall in Hs. by apply Hs, list_elem_of_In.
Qed.

Lemma loopHead_cursor now p name (tried : gset nat) :
  let p' := fst (loopHead (T := T) now p name tried) in
  currentIndex p' = currentIndex p \/
  (currentIndex p' < length (keys p))%nat.
Proof.
  destruct (loopHead_cases (T := T) now p name tried)
    as [[_ ->]|[(_ & _ & _ & ->)|[(_ & _ & d & _ & _ & ->)
       |(_ & a & idx & k & Ha & _ & _ & _ & _ & [(_ & _ & ->)|(_ & ->)])]]];
    cbn; try (by left); right; apply Nat.mod_upper_bound; lia.
Qed.

Lemma act_structure s a :
  let p := pool s in
  let p' := pool (act s a) in
  length (keys p') = length (keys p) /\ initialized p' = initialized p /\
  (currentIndex p' = currentIndex p \/
   (currentIndex p' < length (keys p))%nat).
Proof.
  destruct a as [now name|cid now ev]; simpl.
  - destruct (execute now name (pool s)) as [p' c'] eqn:E. cbn.
    pose proof (execute_inv _ _ _ _ _ E) as (Hlen & Hinit & _).
    split_and!; try done.
    replace p' with (fst (execute (T := T) now name (pool s)))
      by (by rewrite E).
    unfold execute. destruct (_ || _); [by left|]. apply loopHead_cursor.
  - destruct (calls s !! cid) as [c0|]; [|split_and!; try done; by left].
    destruct (resume now ev (pool s) c0) as [p' c'] eqn:E. cbn.
    pose proof (resume_inv _ _ _ _ _ _ E) as (Hlen & Hinit & _).
    split_and!; try done.
    replace p' with (fst (resume now ev (pool s) c0)) by (by rewrite E).
    unfold resume.
    destruct (status c0) as [[w|idx ms|idx]|o]; destruct ev as [|res|err];
      try (by left).
    + apply loopHead_cursor.
    + destruct (loopHead_cursor now (onKey idx (noteFailure now err) (pool s))
                  (operationName c0) (triedKeys c0)) as [H|H].
      * left. exact H.
      * right. by rewrite length_onKey in H.
Qed.

(** On a manager without keys, a call settles at once and nothing
    reaches the pool. *)
Lemma act_uninitialized s a :
  initialized (pool s) = false ->
  (forall c, c ∈ calls s -> exists o, status c = Settled o) ->
  pool (act s a) = pool s /\
  forall c, c ∈ calls (act s a) -> exists o, status c = Settled o.
Proof.
  intros Hinit Hset. destruct a as [now name|cid now ev]; simpl.
  - unfold execute. rewrite Hinit. cbn. split; [done|].
    intros c [Hc|Hc%list_elem_of_singleton]%elem_of_app; [by apply Hset|].
    subst c. by eexists.
  - destruct (calls s !! cid) as [c0|] eqn:Hc0; [|done].
    destruct (Hset c0) as [o Ho]; [by eapply list_elem_of_lookup_2|].
    unfold resume. rewrite Ho. cbn. split; [done|].
    rewrite list_insert_id by done. exact Hset.
Qed.

Lemma serve_wellIndexed s r :
  wellIndexed (pool s) -> wellIndexed (pool (serve s r)).
Proof.
  intros Hs. destruct r as [a|apiKeys|index|]; cbn [serve pool].
  - by apply act_wellIndexed.
  - by apply initialize_wellIndexed.
  - unfold resetKey. destruct (index <? 0); [done|].
    destruct (keys (pool s) !! Z.to_nat index); [|done].
    by apply wellIndexed_onKey.
  - intros i k. cbn. rewrite list_lookup_fmap.
    destruct (keys (pool s) !! i) as [k0|] eqn:E; [|done].
    intros [= <-]. cbn. by apply Hs.
Qed.

(** *** Requests sent, answered and in flight *)

Lemma inFlight_app i (cs : list (Call T)) c :
  inFlight i (cs ++ [c]) = (inFlight i cs + Nat.b2n (awaitsOperation i c))%nat.
Proof.
  unfold inFlight. rewrite List.filter_app, length_app. cbn.
  by destruct (awaitsOperation i c).
Qed.

Lemma inFlight_insert i (cs : list (Call T)) cid c0 c' :
  cs !! cid = Some c0 ->
  (inFlight i (<[cid := c']> cs) + Nat.b2n (awaitsOperation i c0)
   = inFlight i cs + Nat.b2n (awaitsOperation i c'))%nat.
Proof.
  intros Hc0. pose proof (lookup_lt_Some _ _ _ Hc0) as Hlt.
  rewrite insert_take_drop by done.
  rewrite <- (take_drop_middle cs cid c0 Hc0) at 3.
  unfold inFlight. rewrite !List.filter_app, !length_app. cbn.
  destruct (awaitsOperation i c0), (awaitsOperation i c'); cbn; lia.
Qed.

Lemma loopHead_counters now p name (tried : gset nat) p' c' i k :
  loopHead (T := T) now p name tried = (p', c') ->
  keys p !! i = Some k ->
  exists k', keys p' !! i = Some k' /\
    successCount k' = successCount k /\
    rateLimitHits k' = rateLimitHits k /\
    totalRequests k' = totalRequests k + Z.b2z (awaitsOperation i c').
Proof.
  intros Hres Hk.
  destruct (loopHead_cases (T := T) now p name tried)
    as [[_ E]|[(_ & _ & _ & E)|[(_ & _ & d & _ & _ & E)
       |(_ & a & idx & k0 & _ & _ & _ & _ & _ & [(_ & _ & E)|(_ & E)])]]];
    rewrite E in Hres; injection Hres as <- <-;
    try (exists k; cbn; split_and!; try done; lia).
  destruct (decide (idx = i)) as [->|Hne].
  - exists (noteRequest now k). rewrite lookup_onKey. cbn [keys set_currentIndex].
    rewrite Hk. unfold awaitsOperation. cbn.
    rewrite bool_decide_eq_true_2 by done. by split_and!.
  - exists k. rewrite lookup_onKey_ne by done. unfold awaitsOperation. cbn.
    rewrite bool_decide_eq_false_2 by done. split_and!; try done; cbn; lia.
Qed.

Lemma act_accounted s a : accounted s -> accounted (act s a).
Proof.
  intros Hs. pose proof (act_structure s a) as (Hlen & _).
  intros i k' Hk'.
  assert (Hold : exists k, keys (pool s) !! i = Some k).
  { apply lookup_lt_is_Some. rewrite <- Hlen. by eapply lookup_lt_Some. }
  destruct Hold as [k Hk]. specialize (Hs i k Hk).
  revert Hk'. clear Hlen.
  destruct a as [now name|cid now ev]; cbn -[inFlight execute resume].
  - unfold execute. destruct (_ || _).
    + cbn -[inFlight]. rewrite inFlight_app. cbn -[inFlight]. rewrite Hk. intros [= <-].
      unfold awaitsOperation. cbn -[inFlight]. lia.
    + destruct (loopHead now (pool s) (default "request" name) ∅)
        as [p' c'] eqn:E. cbn -[inFlight].
      destruct (loopHead_counters _ _ _ _ _ _ _ _ E Hk) as (k1 & Hk1 & H1 & H2 & H3).
      rewrite Hk1, inFlight_app. intros [= <-].
      destruct (awaitsOperation i c'); cbn -[inFlight] in *; lia.
  - destruct (calls s !! cid) as [c0|] eqn:Hc0; [|rewrite Hk; intros [= <-]; done].
    destruct (resume now ev (pool s) c0) as [p' c'] eqn:E. cbn -[inFlight].
    pose proof (inFlight_insert i (calls s) cid c0 c' Hc0) as Hin.
    revert E. unfold resume.
    destruct (status c0) as [[w|idx ms|idx]|o] eqn:Hst;
      destruct ev as [|res|err];
      try (intros [= <- <-]; rewrite Hk; intros [= <-]; lia).
    + intros E.
      destruct (loopHead_counters _ _ _ _ _ _ _ _ E Hk) as (k1 & Hk1 & H1 & H2 & H3).
      rewrite Hk1. intros [= <-]. unfold awaitsOperation in Hin at 1.
      rewrite Hst in Hin. destruct (awaitsOperation i c'); cbn -[inFlight] in *; lia.
    + unfold sendRequest. intros [= <- <-].
      unfold awaitsOperation in Hin. rewrite Hst in Hin. cbn -[inFlight] in Hin.
      destruct (decide (idx = i)) as [->|Hne].
      * rewrite lookup_onKey, Hk. intros [= <-].
        rewrite bool_decide_eq_true_2 in Hin by done. cbn -[inFlight] in *. lia.
      * rewrite lookup_onKey_ne, Hk by done. intros [= <-].
        rewrite bool_decide_eq_false_2 in Hin by done. cbn -[inFlight] in *. lia.
    + unfold onSuccess. intros [= <- <-].
      unfold awaitsOperation in Hin. rewrite Hst in Hin. cbn -[inFlight] in Hin.
      cbn [keys set_consecutiveAllExhausted].
      destruct (decide (idx = i)) as [->|Hne].
      * rewrite lookup_onKey, Hk. intros [= <-].
        rewrite bool_decide_eq_true_2 in Hin by done. cbn -[inFlight] in *. lia.
      * rewrite lookup_onKey_ne, Hk by done. intros [= <-].
        rewrite bool_decide_eq_false_2 in Hin by done. cbn -[inFlight] in *. lia.
    + unfold onFailure. intros E.
      assert (Hmid : exists k1,
        keys (onKey idx (noteFailure now err) (pool s)) !! i = Some k1 /\
        successCount k1 = successCount k /\
        rateLimitHits k1 <= rateLimitHits k + Z.b2z (bool_decide (idx = i)) /\
        totalRequests k1 = totalRequests k).
      { destruct (decide (idx = i)) as [->|Hne].
        - exists (noteFailure now err k). rewrite lookup_onKey, Hk.
          rewrite bool_decide_eq_true_2 by done.
          unfold noteFailure. destruct (isRateLimitError err); cbn -[inFlight].
          + split_and!; try done; lia.
          + destruct (_ >=? _); cbn -[inFlight]; split_and!; try done; lia.
        - exists k. rewrite lookup_onKey_ne by done.
          split_and!; try done. rewrite bool_decide_eq_false_2 by done.
          cbn -[inFlight]. lia. }
      destruct Hmid as (k1 & Hk1 & G1 & G2 & G3).
      destruct (loopHead_counters _ _ _ _ _ _ _ _ E Hk1) as (k2 & Hk2 & H1 & H2 & H3).
      rewrite Hk2. intros [= <-]. unfold awaitsOperation in Hin at 1.
      rewrite Hst in Hin. cbn -[inFlight] in Hin.
      destruct (bool_decide (idx = i)), (awaitsOperation i c'); cbn -[inFlight] in *; lia.
Qed.

(** *** The tried-sets *)

Lemma loopHead_tried now p name (tried : gset nat) :
  wellIndexed p ->
  (forall j, j ∈ tried -> (j < length (keys p))%nat) ->
  triedWithin (length (keys p)) (snd (loopHead (T := T) now p name tried)).
Proof.
  intros Hwf Htried.
  destruct (loopHead_cases (T := T) now p name tried)
    as [[_ ->]|[(_ & _ & _ & ->)|[(_ & _ & d & _ & _ & ->)
       |(_ & a & idx & k & Ha & _ & Hk & _ & _ & Hres)]]];
    try (split; [exact Htried | intros idx []]).
  assert (Hidx : index k = idx) by (by apply Hwf).
  assert (Hlt : (idx < length (keys p))%nat) by (by eapply lookup_lt_Some).
  destruct Hres as [(_ & _ & ->)|(_ & ->)]; (split; cbn).
  - intros j [->%elem_of_singleton|Hj]%elem_of_union; [lia | by apply Htried].
  - intros i <-. apply elem_of_union. left. by apply elem_of_singleton.
  - intros j [->%elem_of_singleton|Hj]%elem_of_union; [lia | by apply Htried].
  - intros i <-. apply elem_of_union. left. by apply elem_of_singleton.
Qed.

Lemma act_tried s a :
  wellIndexed (pool s) ->
  (forall c, c ∈ calls s -> triedWithin (length (keys (pool s))) c) ->
  forall c, c ∈ calls (act s a) -> triedWithin (length (keys (pool s))) c.
Proof.
  intros Hwf Hs. destruct a as [now name|cid now ev]; simpl.
  - destruct (execute now name (pool s)) as [p' c'] eqn:E. cbn.
    intros c [Hc|Hc%list_elem_of_singleton]%elem_of_app; [by apply Hs|].
    subst c. replace c' with (snd (execute (T := T) now name (pool s)))
      by (by rewrite E).
    unfold execute. destruct (_ || _).
    + split; cbn; [intros j Hj; by apply not_elem_of_empty in Hj | intros idx []].
    + apply loopHead_tried; [done|]. intros j Hj. by apply not_elem_of_empty in Hj.
  - destruct (calls s !! cid) as [c0|] eqn:Hc0; [|done].
    destruct (resume now ev (pool s) c0) as [p' c'] eqn:E. cbn.
    assert (H0 : triedWithin (length (keys (pool s))) c0)
      by (apply Hs; by eapply list_elem_of_lookup_2).
    assert (H' : triedWithin (length (keys (pool s))) c').
    { replace c' with (snd (resume now ev (pool s) c0)) by (by rewrite E).
      unfold resume.
      destruct (status c0) as [[w|idx ms|idx]|o] eqn:Hst;
        destruct ev as [|res|err]; try done.
      - apply loopHead_tried; [done|]. intros j Hj.
        by apply not_elem_of_empty in Hj.
      - split; cbn; [apply H0|]. intros i <-. apply H0.
        unfold holdsKey. by rewrite Hst.
      - split; cbn; [apply H0 | intros i []].
      - unfold onFailure.
        rewrite <- (length_onKey idx (noteFailure now err) (pool s)).
        apply loopHead_tried.
        + apply wellIndexed_onKey; [apply index_noteFailure | done].
        + rewrite length_onKey. apply H0. }
    intros c Hc. apply list_elem_of_lookup in Hc as [j Hj].
    destruct (decide (cid = j)) as [<-|Hne].
    + rewrite list_lookup_insert_eq in Hj by (by eapply lookup_lt_Some).
      by injection Hj as <-.
    + rewrite list_lookup_insert_ne in Hj by done.
      apply Hs. by eapply list_elem_of_lookup_2.
Qed.

(** *** All together *)

Lemma inFlight_settled i (cs : list (Call T)) :
  (forall c, c ∈ cs -> exists o, status c = Settled o) -> inFlight i cs = 0%nat.
Proof.
  intros H. unfold inFlight. apply filter_length_zero. intros c Hc.
  destruct (H c Hc) as [o Ho]. unfold awaitsOperation. by rewrite Ho.
Qed.

Lemma reset_frame p p' :
  (exists idx, p' = resetKey idx p) \/ p' = resetAll p ->
  length (keys p') = length (keys p) /\ initialized p' = initialized p /\
  currentIndex p' = currentIndex p /\
  forall i k', keys p' !! i = Some k' ->
    exists k, keys p !! i = Some k /\ successCount k' = successCount k /\
      rateLimitHits k' = rateLimitHits k /\ totalRequests k' = totalRequests k.
Proof.
  assert (Hsame : forall i k', keys p !! i = Some k' ->
    exists k, keys p !! i = Some k /\ successCount k' = successCount k /\
      rateLimitHits k' = rateLimitHits k /\ totalRequests k' = totalRequests k)
    by (intros i k' Hk'; by exists k').
  intros [[idx ->]| ->].
  - unfold resetKey. destruct (idx <? 0); [done|].
    destruct (keys p !! Z.to_nat idx) as [k0|] eqn:E; [|done].
    split_and!; try done.
    + apply length_onKey.
    + intros i k'. destruct (decide (Z.to_nat idx = i)) as [<-|Hne].
      * rewrite lookup_onKey, E. intros [= <-]. by exists k0.
      * rewrite lookup_onKey_ne by done. eauto.
  - split_and!; try done.
    + cbn. by rewrite length_map.
    + intros i k'. cbn. rewrite list_lookup_fmap.
      destruct (keys p !! i) as [k|]; [|done]. intros [= <-]. by exists k.
Qed.

Lemma sound_fresh : sound (mkSystem (T := T) newKeyPoolManager []).
Proof.
  unfold sound. cbn -[inFlight]. split_and!; try done.
  - intros _. split_and!; try done. intros c Hc. by apply elem_of_nil in Hc.
  - intros c Hc. by apply elem_of_nil in Hc.
Qed.

Lemma reset_sound s p' :
  (exists idx, p' = resetKey idx (pool s)) \/ p' = resetAll (pool s) ->
  Forall recordSound (keys p') -> wellIndexed p' ->
  sound s -> sound (mkSystem p' (calls s)).
Proof.
  intros Hp' Hrec Hwf (_ & _ & Hi & Hu & Hcur & Hacc & Htried).
  destruct (reset_frame _ _ Hp') as (Hlen & Hinit & Hc & Hcount).
  assert (Hnil : keys p' = [] <-> keys (pool s) = []).
  { split; intros E; apply length_zero_iff_nil;
      apply (f_equal length) in E; simpl in E; lia. }
  unfold sound. cbn [pool calls]. split_and!; try done.
  - rewrite Hinit, Hnil. exact Hi.
  - rewrite Hinit, Hnil, Hc. exact Hu.
  - rewrite Hnil, Hc, Hlen. exact Hcur.
  - intros i k' Hk'. destruct (Hcount i k' Hk') as (k & Hk & -> & -> & ->).
    by apply Hacc.
  - by rewrite Hlen.
Qed.

Lemma serve_sound s r : sound s -> sound (serve s r).
Proof.
  intros Hs. pose proof Hs as (Hrec & Hwf & Hi & Hu & Hcur & Hacc & Htried).
  pose proof (serve_recordSound s r Hrec) as Hrec'.
  pose proof (serve_wellIndexed s r Hwf) as Hwf'.
  destruct r as [a|apiKeys|index|].
  - cbn [serve] in *.
    pose proof (act_structure s a) as (Hlen & Hinit & Hc).
    pose proof (act_accounted s a Hacc) as Hacc'.
    pose proof (act_tried s a Hwf Htried) as Htried'.
    assert (Hnil : keys (pool (act s a)) = [] <-> keys (pool s) = []).
    { split; intros E; apply length_zero_iff_nil;
        apply (f_equal length) in E; simpl in E; lia. }
    unfold sound. rewrite Hlen. split_and!; try done.
    + rewrite Hinit, Hnil. exact Hi.
    + rewrite Hinit. intros Hf. destruct (Hu Hf) as (Hk & Hc0 & Hset).
      destruct (act_uninitialized s a Hf Hset) as [Hp Hset'].
      rewrite Hp. by split_and!.
    + rewrite Hnil. intros Hne. specialize (Hcur Hne). destruct Hc; lia.
  - cbn [serve] in *. cbn [pool] in Hrec', Hwf'. revert Hrec' Hwf'.
    destruct (initialize_cases apiKeys (pool s))
      as [[_ ->]|[(_ & e0 & ->)|(Hinit & Hne & _ & ->)]].
    { intros _ _. by destruct s. }
    { intros _ _. by destruct s. }
    destruct (Hu Hinit) as (Hk & Hc0 & Hset).
    destruct (parseKeyList apiKeys) as [|e l] eqn:E; [done|]. cbn [snd].
    intros Hrec' Hwf'. unfold sound. cbn -[inFlight imap].
    split_and!; try done.
    + rewrite length_imap. cbn. lia.
    + unfold accounted. cbn [pool calls keys set_initialized set_keys].
      intros i k. rewrite (inFlight_settled i _ Hset), list_lookup_imap.
      destruct ((e :: l) !! i); [|done]. intros [= <-]. cbn. lia.
    + intros c Hc. destruct (Htried c Hc) as [H1 H2]. split; [|done].
      intros j Hj. specialize (H1 j Hj). rewrite Hk in H1. simpl in H1. lia.
  - apply reset_sound; try done. left. by eexists.
  - apply reset_sound; try done. by right.
Qed.

Lemma reachable_sound s : reachable s -> sound s.
Proof.
  intros [requests ->]. revert requests.
  apply (rev_ind (fun rs => sound (serveAll _ rs))).
  - apply sound_fresh.
  - intros r rs IH. unfold serveAll. rewrite foldl_app. cbn.
    by apply serve_sound.
Qed.

End Soundness.

Section Identity.
Context {T : Type} {lib : RettiwtLibrary}.

Lemma fmap_onKey_same {A} (g : KeyState -> A) idx f p :
  (forall k, g (f k) = g k) -> map g (keys (onKey idx f p)) = map g (keys p).
Proof.
  intros Hg. cbn. rewrite (list_fmap_alter g f id).
  - by rewrite list_alter_id.
  - apply Forall_forall. intros k _. apply Hg.
Qed.

(** A view of the records that no assignment of [execute] changes is
    the same after every step of every call. *)
Lemma act_fmap {A} (g : KeyState -> A) (s : System T) (a : Action T) :
  (forall t k, g (noteRequest t k) = g k) ->
  (forall k, g (noteSuccess k) = g k) ->
  (forall t e k, g (noteFailure t e k) = g k) ->
  map g (keys (pool (act s a))) = map g (keys (pool s)).
Proof.
  intros H1 H2 H3. destruct a as [now name|cid now ev]; simpl.
  - destruct (execute now name (pool s)) as [p' c'] eqn:E. cbn.
    replace p' with (fst (execute (T := T) now name (pool s)))
      by (by rewrite E).
    unfold execute. destruct (_ || _); [done|]. by apply loopHead_fmap.
  - destruct (calls s !! cid) as [c0|]; [|done].
    destruct (resume now ev (pool s) c0) as [p' c'] eqn:E. cbn.
    replace p' with (fst (resume now ev (pool s) c0)) by (by rewrite E).
    unfold resume.
    destruct (status c0) as [[w|idx ms|idx]|o]; destruct ev as [|res|err];
      try done.
    + by apply loopHead_fmap.
    + by apply fmap_onKey_same.
    + by apply (fmap_onKey_same g idx noteSuccess).
    + unfold onFailure. rewrite loopHead_fmap by done.
      by apply fmap_onKey_same.
Qed.

Lemma identity_noteFailure t e k :
  (key (noteFailure t e k), index (noteFailure t e k),
   instance (noteFailure t e k)) = (key k, index k, instance k).
Proof.
  unfold noteFailure. destruct (isRateLimitError e); [done|].
  cbn. by destruct (_ >=? _).
Qed.

Lemma serve_identity (s : System T) (r : Request T) :
  initialized (pool s) = true ->
  initialized (pool (serve s r)) = true /\
  map (fun k => (key k, index k, instance k)) (keys (pool (serve s r)))
  = map (fun k => (key k, index k, instance k)) (keys (pool s)).
Proof.
  intros Hinit. destruct r as [a|apiKeys|idx|]; cbn [serve pool].
  - split.
    + pose proof (act_structure s a) as (_ & Hi & _). congruence.
    + apply (act_fmap (fun k => (key k, index k, instance k))); try done.
      apply identity_noteFailure.
  - unfold initialize. by rewrite Hinit.
  - unfold resetKey. destruct (idx <? 0); [done|].
    destruct (keys (pool s) !! Z.to_nat idx); [|done].
    split; [done|]. by apply fmap_onKey_same.
  - split; [done|]. cbn. by rewrite map_map.
Qed.

End Identity.

(** X12. In every state the process can reach, the manager is
    initialized exactly when it has keys, every record carries its own
    position as index, and the cursor is a position of the array (0 when
    there is none). *)
Theorem reachable_pool_well_formed {T : Type} {lib : RettiwtLibrary}
    (s : System T) :
  reachable s ->
  let p := pool s in
  (initialized p = true <-> keys p <> []) /\
  (forall i k, keys p !! i = Some k -> index k = i) /\
  (keys p <> [] -> (currentIndex p < length (keys p))%nat) /\
  (keys p = [] -> currentIndex p = 0%nat).
Proof.
  intros (_ & Hwf & Hi & Hu & Hcur & _)%reachable_sound p.
  split_and!; try done.
  - split; [done|]. intros Hne. destruct (initialized (pool s)) eqn:E; [done|].
    by destruct (Hu eq_refl) as (Hk & _).
  - intros Hk. destruct (initialized (pool s)) eqn:E.
    + by destruct (Hi eq_refl).
    + by destruct (Hu eq_refl) as (_ & Hc & _).
Qed.

Lemma reachable_pool_well_formed_witness :
  let s := serveAll (T := string) (lib := acceptingLibrary)
             (mkSystem newKeyPoolManager [])
             [Initialize "a,b"; FromCall (Invoke 1000 None);
              FromCall (Invoke 1000 None)] in
  (initialized (pool s) = true <-> keys (pool s) <> []) /\
  (currentIndex (pool s) < length (keys (pool s)))%nat.
Proof.
  intros s.
  destruct (reachable_pool_well_formed (lib := acceptingLibrary) s)
    as (H1 & _ & H3 & _).
  - eexists. reflexivity.
  - split; [exact H1|]. apply H3. vm_compute. discriminate.
Defined.

(** X13. Once the manager is initialized, nothing can change its
    credentials: after any sequence of calls, resets and further
    [initialize] requests, with whatever keys, it is still initialized
    and holds the same keys, indices and clients in the same order. *)
Theorem stored_credentials_never_change {T : Type} {lib : RettiwtLibrary}
    (s : System T)
    (requests : list (Request T)) :
  initialized (pool s) = true ->
  let s' := serveAll s requests in
  initialized (pool s') = true /\
  map (fun k => (key k, index k, instance k)) (keys (pool s'))
  = map (fun k => (key k, index k, instance k)) (keys (pool s)).
Proof.
  revert s. induction requests as [|r rs IH]; intros s Hinit; [done|].
  cbn [serveAll foldl]. destruct (serve_identity s r Hinit) as [Hi Hm].
  destruct (IH (serve s r) Hi) as [Hi' Hm']. split; [exact Hi'|].
  unfold serveAll in Hm'. by rewrite Hm'.
Qed.

Lemma stored_credentials_never_change_witness :
  map key (keys (pool (serveAll (T := string) (lib := acceptingLibrary)
                         (mkSystem oneKeyPool [])
                         [Initialize "other"; ResetAll;
                          FromCall (Invoke 1000 None)])))
  = ["k1"].
Proof.
  destruct (stored_credentials_never_change (T := string)
              (lib := acceptingLibrary) (mkSystem oneKeyPool [])
              [Initialize "other"; ResetAll; FromCall (Invoke 1000 None)]
              eq_refl) as [_ H].
  apply (f_equal (map (fun x => fst (fst x)))) in H.
  rewrite !map_map in H. exact H.
Defined.

(** X14. In every reachable state the healthy flag of a record is
    determined by its count of consecutive failures: the record is
    unhealthy exactly when the count has reached 5, and the count is
    never negative. *)
Theorem unhealthy_iff_five_failures {T : Type} {lib : RettiwtLibrary}
    (s : System T) (k : KeyState) :
  reachable s ->
  k ∈ keys (pool s) ->
  0 <= failCount k /\ (isHealthy k = false <-> 5 <= failCount k).
Proof.
  intros (Hrec & _)%reachable_sound Hk.
  rewrite Forall_forall in Hrec. destruct (Hrec k Hk) as (H1 & H2 & _).
  by split.
Qed.

Lemma unhealthy_iff_five_failures_witness :
  0 <= failCount unhealthyKey /\
  (isHealthy unhealthyKey = false <-> 5 <= failCount unhealthyKey).
Proof.
  apply (unhealthy_iff_five_failures (lib := acceptingLibrary)
           afterFiveFailures unhealthyKey).
  - eexists. reflexivity.
  - apply (list_elem_of_lookup_2 _ 0%nat). vm_compute. reflexivity.
Defined.

(** X15. In every reachable state, for every record, the successes, the
    rate-limit hits and the operations still in flight together never
    exceed the requests counted; in particular there are never more
    successes than requests, and no counter is negative. *)
Theorem requests_are_accounted {T : Type} {lib : RettiwtLibrary}
    (s : System T) (i : nat)
    (k : KeyState) :
  reachable s ->
  keys (pool s) !! i = Some k ->
  0 <= successCount k /\ 0 <= rateLimitHits k /\
  successCount k + rateLimitHits k + Z.of_nat (inFlight i (calls s))
  <= totalRequests k /\
  successCount k <= totalRequests k.
Proof.
  intros (Hrec & _ & _ & _ & _ & Hacc & _)%reachable_sound Hk.
  rewrite Forall_forall in Hrec.
  destruct (Hrec k (list_elem_of_lookup_2 _ _ _ Hk)) as (_ & _ & H1 & H2 & _).
  specialize (Hacc i k Hk). split_and!; try done. lia.
Qed.

Lemma requests_are_accounted_witness :
  0 <= successCount overlappedKey /\ 0 <= rateLimitHits overlappedKey /\
  successCount overlappedKey + rateLimitHits overlappedKey
  + Z.of_nat (inFlight 0 (calls afterOverlappingCalls))
  <= totalRequests overlappedKey /\
  successCount overlappedKey <= totalRequests overlappedKey.
Proof.
  apply (requests_are_accounted (lib := acceptingLibrary)
           afterOverlappingCalls 0 overlappedKey).
  - eexists. reflexivity.
  - vm_compute. reflexivity.
Defined.

(** X16. In every reachable state the tried-set of a call holds only
    positions of the pool, the position of the record the call holds
    among them, so that it never has more elements than the pool has
    keys. *)
Theorem tried_sets_are_bounded {T : Type} {lib : RettiwtLibrary}
    (s : System T) (c : Call T) :
  reachable s ->
  c ∈ calls s ->
  (forall j, j ∈ triedKeys c -> (j < length (keys (pool s)))%nat) /\
  (forall idx, holdsKey idx c -> idx ∈ triedKeys c) /\
  (size (triedKeys c) <= length (keys (pool s)))%nat.
Proof.
  intros (_ & _ & _ & _ & _ & _ & Htried)%reachable_sound Hc.
  destruct (Htried c Hc) as [H1 H2]. split_and!; try done.
  rewrite <- (size_set_seq (C := gset nat) 0 (length (keys (pool s)))).
  apply subseteq_size. intros j Hj. apply elem_of_set_seq.
  specialize (H1 j Hj). lia.
Qed.

Lemma tried_sets_are_bounded_witness :
  let c := mkCall (T := string) "first" {[0%nat]}
             (Awaiting (OperationCall 0)) in
  (forall j, j ∈ triedKeys c ->
     (j < length (keys (pool afterOverlappingCalls)))%nat) /\
  (forall idx, holdsKey idx c -> idx ∈ triedKeys c) /\
  (size (triedKeys c) <= length (keys (pool afterOverlappingCalls)))%nat.
Proof.
  apply (tried_sets_are_bounded (lib := acceptingLibrary)
           afterOverlappingCalls).
  - eexists. reflexivity.
  - apply (list_elem_of_lookup_2 _ 4%nat). vm_compute. reflexivity.
Defined.

(* ================================================================== *)
(** ** Further properties: round robin *)
(* ================================================================== *)

Section Landings.

Lemma circular_offsets_injective (N c j j' : nat) :
  (j < N)%nat -> (j' < N)%nat ->
  ((c + j) mod N = (c + j') mod N)%nat -> j = j'.
Proof.
  intros Hj Hj' E.
  pose proof (Nat.div_mod_eq (c + j) N) as H1.
  pose proof (Nat.div_mod_eq (c + j') N) as H2.
  rewrite E in H1.
  destruct (Nat.lt_trichotomy ((c + j) / N) ((c + j') / N)) as [Hq|[Hq|Hq]]; nia.
Qed.

Lemma filter_unique_length {A} (f : A -> bool) (l : list A) (b : A) :
  NoDup l -> b ∈ l -> (forall x, x ∈ l -> f x = true <-> x = b) ->
  length (List.filter f l) = 1%nat.
Proof.
  induction 1 as [|a l Ha Hl IH]; intros Hb Hf.
  - by apply elem_of_nil in Hb.
  - cbn [List.filter]. destruct (f a) eqn:Hfa.
    + assert (a = b) by (apply Hf; [apply elem_of_cons; by left | done]).
      subst a. cbn [length]. f_equal. apply filter_length_zero.
      intros x Hx. destruct (f x) eqn:Hfx; [|done].
      assert (x = b) by (apply Hf; [apply elem_of_cons; by right | done]).
      subst x. by destruct Ha.
    + apply elem_of_cons in Hb as [->|Hb].
      * assert (f a = true) by (apply Hf; [apply elem_of_cons; by left | done]).
        congruence.
      * apply IH; [done|]. intros x Hx. apply Hf, elem_of_cons. by right.
Qed.

Lemma landings_0 N c i : landings N c 0 i = 0%nat.
Proof. reflexivity. Qed.

Lemma landings_S N c m i :
  landings N c (S m) i
  = (Nat.b2n (c mod N =? i) + landings N ((c + 1) mod N) m i)%nat.
Proof.
  unfold landings. cbn [seq List.filter]. rewrite Nat.add_0_r.
  assert (Hrest : length (List.filter (fun j => ((c + j) mod N =? i)%nat) (seq 1 m))
    = length (List.filter (fun j => (((c + 1) mod N + j) mod N =? i)%nat)
               (seq 0 m))).
  { rewrite <- seq_shift, List.filter_map_swap, length_map.
    f_equal. apply List.filter_ext. intros j. unfold compose.
    rewrite Nat.Div0.add_mod_idemp_l. f_equal. f_equal. lia. }
  destruct (c mod N =? i)%nat; cbn [length Nat.b2n]; rewrite Hrest; lia.
Qed.

(** A full turn lands once on every position. *)
Lemma landings_full N c i : (i < N)%nat -> landings N c N i = 1%nat.
Proof.
  intros Hi. destruct (circular_scan_covers N c i Hi) as (b & Hb & Hbi).
  unfold landings. apply (filter_unique_length _ _ b).
  - apply NoDup_seq.
  - apply elem_of_seq. lia.
  - intros j Hj%elem_of_seq. rewrite Nat.eqb_eq. split.
    + intros E. apply (circular_offsets_injective N c); [lia | lia | congruence].
    + by intros ->.
Qed.

End Landings.

Section RoundRobin.
Context {T : Type}.
Implicit Types (p : KeyPoolManager) (c : Call T) (s : System T)
  (d : CallData T).

Lemma act_invoke s now name :
  act s (Invoke now name)
  = mkSystem (fst (execute (T := T) now name (pool s)))
      (calls s ++ [snd (execute (T := T) now name (pool s))]).
Proof. simpl. by destruct (execute now name (pool s)). Qed.

Lemma act_deliver_last p (cs : list (Call T)) c now ev :
  act (mkSystem p (cs ++ [c])) (Deliver (length cs) now ev)
  = mkSystem (fst (resume now ev p c)) (cs ++ [snd (resume now ev p c)]).
Proof.
  cbn [act pool calls]. rewrite list_lookup_middle by done.
  destruct (resume now ev p c) as [p' c']. cbn [fst snd]. f_equal.
  rewrite insert_app_r_alt by done. by rewrite Nat.sub_diag.
Qed.

Lemma one_successful_call p cs d k :
  let N := length (keys p) in
  let idx := (currentIndex p mod N)%nat in
  initialized p = true ->
  keys p !! idx = Some k ->
  isHealthy k = true ->
  cooldownUntil k <= cd_start d ->
  exists t,
    run (mkSystem p cs) (successfulCall (length cs) d)
    = mkSystem (served t p)
        (cs ++ [mkCall (default "request" (cd_name d)) {[index k]}
                  (Settled (Normal (cd_result d)))])%list.
Proof.
  intros N idx Hinit Hk Hh Hc.
  assert (Hkeys : keys p <> []) by (intros E; by rewrite E in Hk).
  assert (Hel : eligible (cd_start d) ∅ (keys p) idx).
  { split; [apply not_elem_of_empty|]. by exists k. }
  assert (Hsize : (size (∅ : gset nat) < N)%nat).
  { rewrite size_empty. subst N. destruct (keys p); [done | simpl; lia]. }
  unfold successfulCall, run. cbn [foldl]. rewrite act_invoke. cbn [pool calls].
  rewrite (execute_initialized (cd_start d) (cd_name d) p) by done.
  destruct (loopHead_at_cursor (T := T) (cd_start d) p
              (default "request" (cd_name d)) ∅ k Hsize Hk Hel)
    as [(_ & _ & ->)|(_ & ->)]; cbn [fst snd];
    rewrite (right_id_L ∅ (∪)).
  - exists (cd_wake d). rewrite act_deliver_last. unfold resume at 1 2.
    cbn [status operationName triedKeys sendRequest fst snd].
    rewrite act_deliver_last. by unfold resume, onSuccess.
  - exists (cd_start d). rewrite act_deliver_last. unfold resume at 1 2.
    cbn [status fst snd].
    rewrite act_deliver_last. by unfold resume, onSuccess.
Qed.

Lemma served_lookup t p i k :
  (currentIndex p < length (keys p))%nat ->
  keys p !! i = Some k ->
  exists k', keys (served t p) !! i = Some k' /\
    isHealthy k' = (if decide (currentIndex p = i) then true else isHealthy k) /\
    cooldownUntil k' = cooldownUntil k /\
    index k' = index k /\
    totalRequests k'
    = totalRequests k + Z.of_nat (Nat.b2n (currentIndex p mod length (keys p) =? i)%nat) /\
    successCount k'
    = successCount k + Z.of_nat (Nat.b2n (currentIndex p mod length (keys p) =? i)%nat).
Proof.
  intros Hc Hk. unfold served. rewrite (Nat.mod_small _ _ Hc).
  cbn [keys set_consecutiveAllExhausted].
  destruct (decide (currentIndex p = i)) as [<-|Hne].
  - exists (noteSuccess (noteRequest t k)).
    rewrite !lookup_onKey. cbn [keys set_currentIndex]. rewrite Hk.
    rewrite Nat.eqb_refl. by split_and!.
  - exists k. rewrite !lookup_onKey_ne by done. cbn [keys set_currentIndex].
    rewrite (proj2 (Nat.eqb_neq _ _)) by done. cbn.
    split_and!; try done; lia.
Qed.

Lemma served_frame t p :
  (currentIndex p < length (keys p))%nat ->
  length (keys (served t p)) = length (keys p) /\
  initialized (served t p) = initialized p /\
  currentIndex (served t p) = ((currentIndex p + 1) mod length (keys p))%nat.
Proof.
  intros Hc. unfold served. rewrite (Nat.mod_small _ _ Hc).
  cbn. by rewrite !length_alter.
Qed.

(** Calls one after the other on a pool whose records are all available:
    each takes the record under the cursor and succeeds. *)
Lemma successfulCalls_run (ds : list (CallData T)) :
  forall p cs,
    let N := length (keys p) in
    initialized p = true ->
    (currentIndex p < N)%nat ->
    (forall k, k ∈ keys p -> isHealthy k = true) ->
    (forall k d, k ∈ keys p -> d ∈ ds -> cooldownUntil k <= cd_start d) ->
    let s' := run (mkSystem p cs) (successfulCalls (length cs) ds) in
    currentIndex (pool s') = ((currentIndex p + length ds) mod N)%nat /\
    (forall i k, keys p !! i = Some k ->
       exists k', keys (pool s') !! i = Some k' /\
         isHealthy k' = true /\
         totalRequests k'
         = totalRequests k + Z.of_nat (landings N (currentIndex p) (length ds) i) /\
         successCount k'
         = successCount k + Z.of_nat (landings N (currentIndex p) (length ds) i)) /\
    exists new, calls s' = (cs ++ new)%list /\
      forall j d, ds !! j = Some d ->
        exists k, keys p !! ((currentIndex p + j) mod N)%nat = Some k /\
          new !! j = Some (mkCall (default "request" (cd_name d)) {[index k]}
                             (Settled (Normal (cd_result d)))).
Proof.
  induction ds as [|d ds IH]; intros p cs N Hinit Hcur Hhealthy Hcool s';
    subst N.
  - subst s'. cbn. rewrite Nat.add_0_r, Nat.mod_small by done.
    split_and!; try done.
    + intros i k Hk. exists k. split_and!; try done; try lia.
      apply Hhealthy. by eapply list_elem_of_lookup_2.
    + exists []. by rewrite app_nil_r.
  - destruct (lookup_lt_is_Some_2 (keys p) (currentIndex p) Hcur) as [k0 Hk0].
    assert (Hk0' : keys p !! (currentIndex p mod length (keys p))%nat = Some k0)
      by (by rewrite Nat.mod_small).
    assert (Hin0 : k0 ∈ keys p) by (by eapply list_elem_of_lookup_2).
    destruct (one_successful_call p cs d k0 Hinit Hk0' (Hhealthy k0 Hin0))
      as [t Hrun].
    { apply Hcool; [done | apply elem_of_cons; by left]. }
    subst s'. cbn [successfulCalls]. unfold run in *. rewrite foldl_app, Hrun.
    destruct (served_frame t p Hcur) as (Hlen & Hinit' & Hcur').
    set (c0 := mkCall (default "request" (cd_name d)) {[index k0]}
                 (Settled (Normal (cd_result d)))).
    assert (Hold : forall i k', keys (served t p) !! i = Some k' ->
              exists k, keys p !! i = Some k).
    { intros i k' Hk'. apply lookup_lt_is_Some_2. rewrite <- Hlen.
      by eapply lookup_lt_Some. }
    specialize (IH (served t p) (cs ++ [c0])%list).
    rewrite length_app in IH. cbn [length] in IH. rewrite Nat.add_1_r in IH.
    destruct IH as (IH1 & IH2 & new & IH3 & IH4).
    + by rewrite Hinit'.
    + rewrite Hcur', Hlen. apply Nat.mod_upper_bound. lia.
    + intros k' (i & Hk')%list_elem_of_lookup.
      destruct (Hold i k' Hk') as [k Hk].
      destruct (served_lookup t p i k Hcur Hk) as (k'' & Hk'' & Hh & _).
      assert (k'' = k') by congruence. subst k''. rewrite Hh.
      case_decide; [done|]. apply Hhealthy. by eapply list_elem_of_lookup_2.
    + intros k' d' (i & Hk')%list_elem_of_lookup Hd'.
      destruct (Hold i k' Hk') as [k Hk].
      destruct (served_lookup t p i k Hcur Hk) as (k'' & Hk'' & _ & Hc & _).
      assert (k'' = k') by congruence. subst k''. rewrite Hc.
      apply Hcool; [by eapply list_elem_of_lookup_2 | apply elem_of_cons; by right].
    + rewrite Hlen, Hcur' in *. split_and!.
      * rewrite IH1, Nat.Div0.add_mod_idemp_l. f_equal. cbn [length]. lia.
      * intros i k Hk.
        destruct (served_lookup t p i k Hcur Hk)
          as (k1 & Hk1 & _ & _ & _ & Ht & Hs).
        destruct (IH2 i k1 Hk1) as (k2 & Hk2 & Hh2 & Ht2 & Hs2).
        exists k2. cbn [length]. rewrite landings_S.
        split_and!; try done; lia.
      * exists (c0 :: new). rewrite IH3, <- app_assoc. split; [done|].
        intros [|j] d' Hd'.
        -- injection Hd' as <-. exists k0. rewrite Nat.add_0_r. by split.
        -- cbn in Hd'. destruct (IH4 j d' Hd') as (k1 & Hk1 & Hnew).
           rewrite Nat.Div0.add_mod_idemp_l in Hk1.
           replace (currentIndex p + 1 + j)%nat with (currentIndex p + S j)%nat
             in Hk1 by lia.
           destruct (Hold _ _ Hk1) as [k Hk].
           destruct (served_lookup t p _ k Hcur Hk) as (k'' & Hk'' & _ & _ & Hi & _).
           assert (k'' = k1) by congruence. subst k''.
           exists k. split; [done|].
           change ((c0 :: new) !! S j) with (new !! j). by rewrite Hnew, Hi.
Qed.

End RoundRobin.

(** X17. Round robin.  On an initialized pool of N keys, all healthy
    and none cooling down, N calls made one after the other, each
    succeeding on its first attempt, use the N records once each, in
    circular order from the cursor: call number j uses the record j
    positions after the cursor, every record ends with one request and
    one success more, and the cursor is back where it started. *)
Theorem round_robin {T : Type} (p : KeyPoolManager) (ds : list (CallData T)) :
  let N := length (keys p) in
  initialized p = true ->
  (currentIndex p < N)%nat ->
  length ds = N ->
  (forall k, k ∈ keys p -> isHealthy k = true) ->
  (forall k d, k ∈ keys p -> d ∈ ds -> cooldownUntil k <= cd_start d) ->
  let s' := run (mkSystem p []) (successfulCalls 0 ds) in
  currentIndex (pool s') = currentIndex p /\
  (forall i k, keys p !! i = Some k ->
     exists k', keys (pool s') !! i = Some k' /\
       isHealthy k' = true /\
       totalRequests k' = totalRequests k + 1 /\
       successCount k' = successCount k + 1) /\
  (forall j d, ds !! j = Some d ->
     exists k, keys p !! ((currentIndex p + j) mod N)%nat = Some k /\
       calls s' !! j
       = Some (mkCall (default "request" (cd_name d)) {[index k]}
                 (Settled (Normal (cd_result d))))).
Proof.
  intros N Hinit Hcur Hlen Hhealthy Hcool s'.
  destruct (successfulCalls_run ds p [] Hinit Hcur Hhealthy Hcool)
    as (H1 & H2 & new & H3 & H4).
  cbn [length app] in H1, H2, H3. subst s' N. split_and!.
  - rewrite H1, Hlen.
    replace (currentIndex p + length (keys p))%nat
      with (currentIndex p + 1 * length (keys p))%nat by lia.
    rewrite Nat.Div0.mod_add. by apply Nat.mod_small.
  - intros i k Hk. destruct (H2 i k Hk) as (k' & Hk' & Hh & Ht & Hs).
    exists k'. rewrite Hlen in Ht, Hs.
    rewrite landings_full in Ht, Hs by (by eapply lookup_lt_Some).
    split_and!; try done; lia.
  - intros j d Hd. destruct (H4 j d Hd) as (k & Hk & Hnew).
    exists k. split; [done|]. by rewrite H3.
Qed.

Lemma round_robin_witness :
  let s' := run (mkSystem threeKeyPool []) (successfulCalls 0 threeCalls) in
  currentIndex (pool s') = 0%nat /\
  (forall i k, keys threeKeyPool !! i = Some k ->
     exists k', keys (pool s') !! i = Some k' /\
       isHealthy k' = true /\
       totalRequests k' = totalRequests k + 1 /\
       successCount k' = successCount k + 1).
Proof.
  intros s'.
  destruct (round_robin threeKeyPool threeCalls) as (H1 & H2 & _).
  - reflexivity.
  - vm_compute. lia.
  - reflexivity.
  - intros k. set (l := keys threeKeyPool). vm_compute in l. subst l.
    intros Hk. repeat (apply elem_of_cons in Hk as [->|Hk]; [reflexivity|]).
    by apply elem_of_nil in Hk.
  - intros k d. set (l := keys threeKeyPool). vm_compute in l. subst l.
    unfold threeCalls. intros Hk Hd.
    repeat (apply elem_of_cons in Hk as [->|Hk];
            [repeat (apply elem_of_cons in Hd as [->|Hd]; [cbn; lia|]);
             by apply elem_of_nil in Hd|]).
    by apply elem_of_nil in Hk.
  - split; [exact H1 | exact H2].
Defined.

(* ------------------------------------------------------------------ *)
(** ** Failing over from key to key *)

Section Failover.
Context {T : Type}.
Implicit Types (p : KeyPoolManager) (c : Call T) (s : System T)
  (a : Attempt) (fs : list Attempt) (tried : gset nat).

Lemma run_app s (l1 l2 : list (Action T)) :
  run s (l1 ++ l2) = run (run s l1) l2.
Proof. apply foldl_app. Qed.

Lemma circular_succ (N c j : nat) :
  N <> 0%nat -> (((c + 1) mod N + j) mod N = (c + S j) mod N)%nat.
Proof.
  intros HN. rewrite Nat.Div0.add_mod_idemp_l. f_equal. lia.
Qed.

Lemma sentAt_delayed now wake k :
  now - lastUsedAt k < 1500 -> 0 < lastUsedAt k -> sentAt now wake k = wake.
Proof.
  intros H1 H2. unfold sentAt, REQUEST_DELAY_MS.
  destruct (Z.ltb_spec (now - lastUsedAt k) 1500); [|lia].
  destruct (Z.gtb_spec (lastUsedAt k) 0); [done | lia].
Qed.

Lemma sentAt_at_once now wake k :
  ~ (now - lastUsedAt k < 1500 /\ 0 < lastUsedAt k) -> sentAt now wake k = now.
Proof.
  intros H. unfold sentAt, REQUEST_DELAY_MS.
  destruct (Z.ltb_spec (now - lastUsedAt k) 1500); [|done].
  destruct (Z.gtb_spec (lastUsedAt k) 0); [|done]. lia.
Qed.

Lemma failedOn_frame now a p k :
  let N := length (keys p) in
  let c := currentIndex p in
  (c < N)%nat ->
  keys p !! c = Some k ->
  let p1 := failedOn now a p in
  length (keys p1) = N /\
  currentIndex p1 = ((c + 1) mod N)%nat /\
  consecutiveAllExhausted p1 = consecutiveAllExhausted p /\
  initialized p1 = initialized p /\
  (wellIndexed p -> wellIndexed p1) /\
  keys p1 !! c
  = Some (noteFailure (at_finish a) (at_error a)
            (noteRequest (sentAt now (at_wake a) k) k)) /\
  (forall pos, pos <> c -> keys p1 !! pos = keys p !! pos).
Proof.
  intros N c Hc Hk p1. subst p1. unfold failedOn. fold N c.
  rewrite (Nat.mod_small c N Hc), Hk.
  split_and!.
  - by rewrite !length_onKey.
  - done.
  - done.
  - done.
  - intros Hwf. apply wellIndexed_onKey; [apply index_noteFailure|].
    apply wellIndexed_onKey; [done|]. exact Hwf.
  - rewrite !lookup_onKey. cbn [keys set_currentIndex]. by rewrite Hk.
  - intros pos Hpos. by rewrite !lookup_onKey_ne.
Qed.

(** One failed attempt, from loop test to loop test. *)
Lemma failed_attempt_step p (cs : list (Call T)) name tried now a k :
  let N := length (keys p) in
  let c := currentIndex p in
  (c < N)%nat ->
  wellIndexed p ->
  (size tried < N)%nat ->
  keys p !! c = Some k ->
  c ∉ tried ->
  isHealthy k = true ->
  cooldownUntil k <= now ->
  run (mkSystem (fst (loopHead (T := T) now p name tried))
         (cs ++ [snd (loopHead (T := T) now p name tried)]))
      (failedAttempt (length cs) a)
  = mkSystem
      (fst (loopHead (T := T) (at_finish a) (failedOn now a p) name
              ({[c]} ∪ tried)))
      (cs ++ [snd (loopHead (T := T) (at_finish a) (failedOn now a p) name
                     ({[c]} ∪ tried))]).
Proof.
  intros N c Hc Hwf Hsize Hk Hnot Hh Hcool.
  assert (Hk' : keys p !! (c mod N)%nat = Some k) by (by rewrite Nat.mod_small).
  assert (Hel : eligible now tried (keys p) (c mod N)%nat).
  { rewrite Nat.mod_small by done. split; [done|]. by exists k. }
  assert (Hidx : index k = c) by (by apply Hwf).
  unfold failedOn. fold N c. rewrite Hk'.
  unfold failedAttempt, run. cbn [foldl].
  destruct (loopHead_at_cursor (T := T) now p name tried k Hsize Hk' Hel)
    as [(Hd1 & Hd2 & ->)|(Hnd & ->)]; cbn [fst snd]; rewrite Hidx.
  - rewrite (sentAt_delayed _ _ _ Hd1 Hd2).
    rewrite act_deliver_last. unfold resume at 1 2.
    cbn [status operationName triedKeys sendRequest fst snd].
    rewrite act_deliver_last. unfold resume at 1 2.
    cbn [status operationName triedKeys fst snd]. by unfold onFailure.
  - rewrite (sentAt_at_once _ _ _ Hnd).
    rewrite act_deliver_last. unfold resume at 1 2.
    cbn [status fst snd].
    rewrite act_deliver_last. unfold resume at 1 2.
    cbn [status operationName triedKeys fst snd]. by unfold onFailure.
Qed.

(** The attempt that succeeds, from the loop test to [return]. *)
Lemma succeeding_attempt_step p (cs : list (Call T)) name tried now wake
    finish (result : T) k :
  let N := length (keys p) in
  let c := currentIndex p in
  (c < N)%nat ->
  wellIndexed p ->
  (size tried < N)%nat ->
  keys p !! c = Some k ->
  c ∉ tried ->
  isHealthy k = true ->
  cooldownUntil k <= now ->
  run (mkSystem (fst (loopHead (T := T) now p name tried))
         (cs ++ [snd (loopHead (T := T) now p name tried)]))
      (succeedingAttempt (length cs) wake finish result)
  = mkSystem
      (set_consecutiveAllExhausted 0
         (onKey c noteSuccess
            (onKey c (noteRequest (sentAt now wake k))
               (set_currentIndex ((c + 1) mod N)%nat p))))
      (cs ++ [mkCall name ({[c]} ∪ tried) (Settled (Normal result))]).
Proof.
  intros N c Hc Hwf Hsize Hk Hnot Hh Hcool.
  assert (Hk' : keys p !! (c mod N)%nat = Some k) by (by rewrite Nat.mod_small).
  assert (Hel : eligible now tried (keys p) (c mod N)%nat).
  { rewrite Nat.mod_small by done. split; [done|]. by exists k. }
  assert (Hidx : index k = c) by (by apply Hwf).
  unfold succeedingAttempt, run. cbn [foldl].
  destruct (loopHead_at_cursor (T := T) now p name tried k Hsize Hk' Hel)
    as [(Hd1 & Hd2 & ->)|(Hnd & ->)]; cbn [fst snd]; rewrite Hidx;
    fold N c; rewrite (Nat.mod_small c N Hc).
  - rewrite (sentAt_delayed _ _ _ Hd1 Hd2).
    rewrite act_deliver_last. unfold resume at 1 2.
    cbn [status operationName triedKeys sendRequest fst snd].
    rewrite act_deliver_last. by unfold resume, onSuccess.
  - rewrite (sentAt_at_once _ _ _ Hnd).
    rewrite act_deliver_last. unfold resume at 1 2.
    cbn [status fst snd].
    rewrite act_deliver_last. by unfold resume, onSuccess.
Qed.

Lemma afterFailures_spec fs :
  forall now p tried,
    let N := length (keys p) in
    let c := currentIndex p in
    (c < N)%nat ->
    (length fs <= N)%nat ->
    let r := afterFailures now p tried fs in
    length (keys (snd (fst r))) = N /\
    currentIndex (snd (fst r)) = ((c + length fs) mod N)%nat /\
    consecutiveAllExhausted (snd (fst r)) = consecutiveAllExhausted p /\
    initialized (snd (fst r)) = initialized p /\
    (wellIndexed p -> wellIndexed (snd (fst r))) /\
    (forall x, x ∈ snd r
       <-> x ∈ tried \/ exists j, (j < length fs)%nat /\ x = ((c + j) mod N)%nat) /\
    ((forall j, (j < length fs)%nat -> ((c + j) mod N)%nat ∉ tried) ->
     size (snd r) = (size tried + length fs)%nat) /\
    (fst (fst r) = now \/ exists a, a ∈ fs /\ fst (fst r) = at_finish a) /\
    (forall pos, (forall j, (j < length fs)%nat -> pos <> ((c + j) mod N)%nat) ->
       keys (snd (fst r)) !! pos = keys p !! pos) /\
    (forall j a k, fs !! j = Some a ->
       keys p !! ((c + j) mod N)%nat = Some k ->
       exists t, keys (snd (fst r)) !! ((c + j) mod N)%nat
                 = Some (noteFailure (at_finish a) (at_error a)
                           (noteRequest t k))).
Proof.
  induction fs as [|a fs IH]; intros now p tried N c Hc Hlen r; subst r.
  - cbn. rewrite Nat.add_0_r, (Nat.mod_small c N Hc).
    split_and!; try done.
    + intros x. split; [by left|]. intros [H|(j & Hj & _)]; [done | lia].
    + by left.
  - cbn [afterFailures length] in *. fold c.
    assert (HN : N <> 0%nat) by lia.
    destruct (lookup_lt_is_Some_2 (keys p) c Hc) as [k0 Hk0].
    destruct (failedOn_frame now a p k0 Hc Hk0)
      as (Hlen1 & Hcur1 & Hex1 & Hin1 & Hwf1 & Hat1 & Hoff1).
    fold N c in Hlen1, Hcur1.
    specialize (IH (at_finish a) (failedOn now a p) ({[c]} ∪ tried)).
    cbn zeta in IH. rewrite Hlen1, Hcur1 in IH.
    destruct IH as (I1 & I2 & I3 & I4 & I5 & I6 & Isz & I7 & I8 & I9).
    { by apply Nat.mod_upper_bound. }
    { lia. }
    assert (Hne : forall j, (j < length fs)%nat ->
              ((c + S j) mod N)%nat <> c).
    { intros j Hj E. rewrite <- (Nat.mod_small c N Hc) in E at 2.
      rewrite <- (Nat.add_0_r c) in E at 2.
      apply circular_offsets_injective in E; lia. }
    split_and!.
    + exact I1.
    + by rewrite I2, circular_succ.
    + by rewrite I3.
    + by rewrite I4.
    + intros Hwf. by apply I5, Hwf1.
    + intros x. rewrite I6, elem_of_union, elem_of_singleton. split.
      * intros [[->|Hx]|(j & Hj & ->)].
        -- right. exists 0%nat. split; [lia|].
           by rewrite Nat.add_0_r, Nat.mod_small.
        -- by left.
        -- right. exists (S j). split; [lia|]. by apply circular_succ.
      * intros [Hx|(j & Hj & ->)]; [by left; right|].
        destruct j as [|j].
        -- left; left. by rewrite Nat.add_0_r, Nat.mod_small.
        -- right. exists j. split; [lia|]. by rewrite circular_succ.
    + intros Hnot. rewrite Isz.
      * rewrite size_union, size_singleton; [lia|].
        apply disjoint_singleton_l. specialize (Hnot 0%nat ltac:(lia)).
        by rewrite Nat.add_0_r, Nat.mod_small in Hnot.
      * intros j Hj. rewrite circular_succ by done.
        rewrite elem_of_union, elem_of_singleton. intros [E|Hin].
        -- by apply (Hne j Hj).
        -- apply (Hnot (S j)); [lia | done].
    + right. destruct I7 as [->|(a' & Ha' & ->)].
      * exists a. split; [apply elem_of_cons; by left | done].
      * exists a'. split; [apply elem_of_cons; by right | done].
    + intros pos Hpos. rewrite I8.
      * apply Hoff1. intros ->. apply (Hpos 0%nat); [lia|].
        by rewrite Nat.add_0_r, Nat.mod_small.
      * intros j Hj. rewrite circular_succ by done. apply Hpos. lia.
    + intros j a' k Ha' Hk. destruct j as [|j].
      * cbn in Ha'. injection Ha' as <-.
        rewrite Nat.add_0_r, (Nat.mod_small c N Hc) in Hk |- *.
        assert (k = k0) as -> by congruence.
        exists (sentAt now (at_wake a) k0). rewrite I8; [done|].
        intros j Hj. rewrite circular_succ by done.
        intros E. by apply (Hne j Hj).
      * cbn in Ha'. assert (Hj : (j < length fs)%nat) by (by eapply lookup_lt_Some).
        rewrite <- (circular_succ N c j HN). apply I9; [done|].
        rewrite circular_succ by done. rewrite Hoff1; [done|]. by apply Hne.
Qed.

(** The attempts [fs] failing in turn take the call from the loop test
    to the loop test. *)
Lemma failedAttempts_run fs :
  forall now p tried (cs : list (Call T)) name,
    let N := length (keys p) in
    let c := currentIndex p in
    wellIndexed p ->
    (c < N)%nat ->
    (size tried + length fs <= N)%nat ->
    (forall j, (j < length fs)%nat -> ((c + j) mod N)%nat ∉ tried) ->
    (forall j k, (j < length fs)%nat ->
       keys p !! ((c + j) mod N)%nat = Some k ->
       isHealthy k = true /\ cooldownUntil k <= now /\
       forall a, a ∈ fs -> cooldownUntil k <= at_finish a) ->
    let r := afterFailures now p tried fs in
    run (mkSystem (fst (loopHead (T := T) now p name tried))
           (cs ++ [snd (loopHead (T := T) now p name tried)]))
        (failedAttempts (length cs) fs)
    = mkSystem
        (fst (loopHead (T := T) (fst (fst r)) (snd (fst r)) name (snd r)))
        (cs ++ [snd (loopHead (T := T) (fst (fst r)) (snd (fst r)) name
                       (snd r))]).
Proof.
  induction fs as [|a fs IH]; intros now p tried cs name N c Hwf Hc Hsize
    Hnot Hgood r; subst r; [done|].
  cbn [afterFailures failedAttempts length] in *.
  assert (HN : N <> 0%nat) by lia.
  destruct (lookup_lt_is_Some_2 (keys p) c Hc) as [k0 Hk0].
  assert (Hk0' : keys p !! ((c + 0) mod N)%nat = Some k0).
  { by rewrite Nat.add_0_r, Nat.mod_small. }
  destruct (Hgood 0%nat k0 ltac:(lia) Hk0') as (Hh0 & Hc0 & Hlater0).
  assert (Hnot0 : c ∉ tried).
  { specialize (Hnot 0%nat ltac:(lia)).
    by rewrite Nat.add_0_r, Nat.mod_small in Hnot. }
  rewrite run_app.
  rewrite (failed_attempt_step p cs name tried now a k0); try done.
  2:{ fold N. lia. }
  destruct (failedOn_frame now a p k0 Hc Hk0)
    as (Hlen1 & Hcur1 & _ & _ & Hwf1 & _ & Hoff1).
  fold N c in Hlen1, Hcur1. fold c.
  assert (Hne : forall j, (j < length fs)%nat ->
            ((c + S j) mod N)%nat <> c).
  { intros j Hj E. rewrite <- (Nat.mod_small c N Hc) in E at 2.
    rewrite <- (Nat.add_0_r c) in E at 2.
    apply circular_offsets_injective in E; lia. }
  apply IH.
  - by apply Hwf1.
  - rewrite Hlen1, Hcur1. by apply Nat.mod_upper_bound.
  - rewrite Hlen1, size_union, size_singleton by (by apply disjoint_singleton_l).
    lia.
  - intros j Hj. rewrite Hlen1, Hcur1, circular_succ by done.
    rewrite elem_of_union, elem_of_singleton. intros [E|Hin].
    + by apply (Hne j Hj).
    + apply (Hnot (S j)); [lia | done].
  - intros j k Hj. rewrite Hlen1, Hcur1, circular_succ by done.
    rewrite Hoff1 by (by apply Hne). intros Hk.
    destruct (Hgood (S j) k ltac:(lia) Hk) as (Hh & _ & Hlater).
    split_and!; [done| |].
    + apply Hlater, elem_of_cons. by left.
    + intros a' Ha'. apply Hlater, elem_of_cons. by right.
Qed.

(** X18. A call that fails on every key.  On an initialized pool of N
    keys, all healthy and none cooling down, a call whose attempts are
    all rejected tries the N records once each, in circular order from
    the cursor, never sleeping for a cooldown, and then throws the
    exhaustion error, which names N and the operation.  Each record has
    had exactly one request and the bookkeeping of its own failure, the
    cursor is back where it started and the exhaustion counter is
    untouched. *)
Theorem every_key_fails (p : KeyPoolManager) (cs : list (Call T))
    (start : Z) (name : option string) (fs : list Attempt) :
  let N := length (keys p) in
  let c := currentIndex p in
  initialized p = true ->
  wellIndexed p ->
  (c < N)%nat ->
  length fs = N ->
  (forall k, k ∈ keys p -> isHealthy k = true /\ cooldownUntil k <= start) ->
  (forall k a, k ∈ keys p -> a ∈ fs -> cooldownUntil k <= at_finish a) ->
  let s' := run (mkSystem p cs)
              (Invoke start name :: failedAttempts (length cs) fs) in
  (exists c', calls s' = (cs ++ [c'])%list /\
     status c'
     = Settled (Abrupt (allKeysExhaustedError p (default "request" name))) /\
     forall i, i ∈ triedKeys c' <-> (i < N)%nat) /\
  currentIndex (pool s') = c /\
  consecutiveAllExhausted (pool s') = consecutiveAllExhausted p /\
  length (keys (pool s')) = N /\
  (forall j a k, fs !! j = Some a ->
     keys p !! ((c + j) mod N)%nat = Some k ->
     exists t, keys (pool s') !! ((c + j) mod N)%nat
               = Some (noteFailure (at_finish a) (at_error a)
                         (noteRequest t k))).
Proof.
  intros N c Hinit Hwf Hc Hlen Hgood Hlater s'. subst s'.
  assert (Hkeys : keys p <> []).
  { intros E. subst N. rewrite E in Hc. cbn in Hc. lia. }
  assert (HN : N <> 0%nat) by lia.
  rewrite run_cons, act_invoke. cbn [pool calls].
  rewrite (execute_initialized start name p Hinit Hkeys).
  rewrite (failedAttempts_run fs start p ∅ cs (default "request" name));
    try done.
  2:{ rewrite size_empty. fold N. lia. }
  2:{ intros j k _ Hk. apply list_elem_of_lookup_2 in Hk.
      destruct (Hgood k Hk). split_and!; try done.
      intros a Ha. by apply Hlater. }
  destruct (afterFailures_spec fs start p ∅ Hc ltac:(fold N; lia))
    as (I1 & I2 & I3 & I4 & _ & I6 & Isz & _ & _ & I9).
  fold N c in I1, I2, I6, Isz, I9.
  destruct (afterFailures start p ∅ fs) as [[now' p'] tried'].
  cbn [fst snd] in *.
  rewrite size_empty in Isz. specialize (Isz ltac:(done)).
  unfold loopHead. rewrite bool_decide_eq_false_2 by lia. cbn [fst snd pool calls].
  split_and!.
  - eexists. split; [done|]. cbn [status triedKeys]. split.
    + unfold allKeysExhaustedError. by rewrite I1.
    + intros i. rewrite I6. split.
      * intros [H|(j & _ & ->)]; [done|]. by apply Nat.mod_upper_bound.
      * intros Hi. right. destruct (circular_scan_covers N c i Hi) as (b & Hb & <-).
        exists b. split; [lia | done].
  - rewrite I2, Hlen. fold N.
    rewrite <- (Nat.mul_1_l N) at 1. rewrite Nat.Div0.mod_add.
    by apply Nat.mod_small.
  - done.
  - done.
  - exact I9.
Qed.

(** X19. Failing over to the next key.  On an initialized pool whose
    first m+1 records from the cursor are healthy and not cooling down,
    a call whose first m attempts are rejected and whose next attempt
    is fulfilled returns that result: it has used exactly the m+1
    records from the cursor on, in circular order, the first m carry
    the bookkeeping of their failure and the last that of a success,
    the other records are untouched, the cursor stands behind the
    record that succeeded and the exhaustion counter is 0. *)
Theorem failover_to_next_key (p : KeyPoolManager) (cs : list (Call T))
    (start : Z) (name : option string) (fs : list Attempt)
    (wake finish : Z) (result : T) :
  let N := length (keys p) in
  let c := currentIndex p in
  let m := length fs in
  initialized p = true ->
  wellIndexed p ->
  (c < N)%nat ->
  (m < N)%nat ->
  (forall j k, (j <= m)%nat -> keys p !! ((c + j) mod N)%nat = Some k ->
     isHealthy k = true /\ cooldownUntil k <= start /\
     forall a, a ∈ fs -> cooldownUntil k <= at_finish a) ->
  let s' := run (mkSystem p cs)
              (Invoke start name
               :: failedAttempts (length cs) fs
                  ++ succeedingAttempt (length cs) wake finish result) in
  (exists c', calls s' = (cs ++ [c'])%list /\
     status c' = Settled (Normal result) /\
     forall i, i ∈ triedKeys c'
               <-> exists j, (j <= m)%nat /\ i = ((c + j) mod N)%nat) /\
  currentIndex (pool s') = ((c + m + 1) mod N)%nat /\
  consecutiveAllExhausted (pool s') = 0 /\
  (forall j a k, fs !! j = Some a ->
     keys p !! ((c + j) mod N)%nat = Some k ->
     exists t, keys (pool s') !! ((c + j) mod N)%nat
               = Some (noteFailure (at_finish a) (at_error a)
                         (noteRequest t k))) /\
  (forall k, keys p !! ((c + m) mod N)%nat = Some k ->
     exists t, keys (pool s') !! ((c + m) mod N)%nat
               = Some (noteSuccess (noteRequest t k))) /\
  (forall pos, (forall j, (j <= m)%nat -> pos <> ((c + j) mod N)%nat) ->
     keys (pool s') !! pos = keys p !! pos).
Proof.
  intros N c m Hinit Hwf Hc Hm Hgood s'. subst s'.
  assert (Hkeys : keys p <> []).
  { intros E. subst N. rewrite E in Hc. cbn in Hc. lia. }
  assert (HN : N <> 0%nat) by lia.
  assert (Hinj : forall j, (j < m)%nat ->
            ((c + m) mod N)%nat <> ((c + j) mod N)%nat).
  { intros j Hj E. apply circular_offsets_injective in E; lia. }
  rewrite run_cons, act_invoke. cbn [pool calls].
  rewrite (execute_initialized start name p Hinit Hkeys), run_app.
  rewrite (failedAttempts_run fs start p ∅ cs (default "request" name));
    try done.
  2:{ rewrite size_empty. fold N m. lia. }
  2:{ intros j k Hj. apply Hgood. fold m in Hj. lia. }
  destruct (afterFailures_spec fs start p ∅ Hc ltac:(fold N m; lia))
    as (I1 & I2 & _ & _ & I5 & I6 & Isz & I7 & I8 & I9).
  fold N c m in I1, I2, I6, Isz, I8, I9.
  destruct (afterFailures start p ∅ fs) as [[now' p'] tried'].
  cbn [fst snd] in *.
  rewrite size_empty in Isz. specialize (Isz ltac:(done)).
  specialize (I5 Hwf).
  assert (Hcm : ((c + m) mod N < N)%nat) by (by apply Nat.mod_upper_bound).
  destruct (lookup_lt_is_Some_2 (keys p) ((c + m) mod N)%nat Hcm) as [k Hk].
  assert (Hk' : keys p' !! currentIndex p' = Some k).
  { rewrite I2, I8; [done|]. intros j Hj. by apply Hinj. }
  destruct (Hgood m k ltac:(lia) Hk) as (Hh & Hstart & Hlater).
  rewrite (succeeding_attempt_step p' cs (default "request" name) tried' now'
             wake finish result k); try done.
  2:{ rewrite I1, I2. done. }
  2:{ rewrite I1. lia. }
  2:{ rewrite I2, I6. intros [H|(j & Hj & E)]; [done|]. by apply (Hinj j Hj). }
  2:{ destruct I7 as [->|(a & Ha & ->)]; [done | by apply Hlater]. }
  cbn [pool calls]. rewrite I1, I2.
  split_and!.
  - eexists. split; [done|]. cbn [status triedKeys]. split; [done|].
    intros i. rewrite elem_of_union, elem_of_singleton, I6. split.
    + intros [->|[H|(j & Hj & ->)]]; [|done|].
      * exists m. split; [lia | done].
      * exists j. split; [lia | done].
    + intros (j & Hj & ->). destruct (decide (j = m)) as [->|Hne].
      * by left.
      * right; right. exists j. split; [lia | done].
  - cbn. rewrite Nat.Div0.add_mod_idemp_l. done.
  - done.
  - intros j a k0 Ha Hk0.
    assert (Hj : (j < m)%nat) by (by eapply lookup_lt_Some).
    destruct (I9 j a k0 Ha Hk0) as [t Ht]. exists t.
    cbn [keys set_consecutiveAllExhausted].
    rewrite !lookup_onKey_ne by (by apply Hinj). exact Ht.
  - intros k0 Hk0. assert (k0 = k) as -> by congruence.
    exists (sentAt now' wake k).
    cbn [keys set_consecutiveAllExhausted].
    rewrite !lookup_onKey. cbn [keys set_currentIndex].
    rewrite I2 in Hk'. by rewrite Hk'.
  - intros pos Hpos. cbn [keys set_consecutiveAllExhausted].
    rewrite !lookup_onKey_ne by (intros E; by apply (Hpos m)).
    cbn [keys set_currentIndex]. apply I8. intros j Hj. apply Hpos. lia.
Qed.

End Failover.

Section StartUp.
Context {T : Type} {lib : RettiwtLibrary}.
Implicit Types (p : KeyPoolManager) (c : Call T) (s : System T).

Lemma serve_pristine s (r : Request T) : pristine s -> pristine (serve s r).
Proof.
  intros IH Hafter.
  destruct (initialized (pool s)) eqn:Hinit.
  { destruct (serve_identity s r Hinit) as [H _]. congruence. }
  destruct (IH Hinit) as [Hpool Hcalls].
  destruct s as [p cs]. cbn [pool calls] in *. subst p.
  destruct r as [[now name|cid now ev]|apiKeys|idx|]; cbn [serve act pool calls].
  - cbn. split; [done|].
    intros c [Hc|Hc%list_elem_of_singleton]%elem_of_app; [by apply Hcalls|].
    by subst c.
  - destruct (cs !! cid) as [c0|] eqn:Hc0; [|by split].
    destruct (Hcalls c0) as [Hst Htr]; [by eapply list_elem_of_lookup_2|].
    unfold resume. rewrite Hst. cbn [pool calls].
    rewrite list_insert_id by done. by split.
  - cbn [serve pool] in Hafter.
    destruct (initialize_cases apiKeys newKeyPoolManager)
      as [[Hi _]|[(_ & e & E)|(_ & _ & _ & E)]]; [done | |];
      rewrite E in *; [by split | done].
  - split; [|done]. unfold resetKey. destruct (idx <? 0); [done|].
    cbn [keys newKeyPoolManager]. by rewrite lookup_nil.
  - by split.
Qed.

(** X20. As long as no [initialize] has succeeded, the manager is
    exactly as it was constructed, whatever has been asked of it: a
    failed [initialize] leaves nothing behind, the resets do nothing,
    and every [execute] call has thrown the not-initialized error
    without trying a key. *)
Theorem uninitialized_manager_is_fresh s :
  reachable s ->
  initialized (pool s) = false ->
  pool s = newKeyPoolManager /\
  forall c, c ∈ calls s ->
    status c = Settled (Abrupt notInitializedError) /\ triedKeys c = ∅.
Proof.
  intros [requests ->]. revert requests.
  apply (rev_ind (fun rs => pristine (serveAll _ rs))).
  - intros _. split; [done|]. intros c Hc. by apply elem_of_nil in Hc.
  - intros r rs IH. unfold serveAll. rewrite foldl_app. cbn [foldl].
    by apply serve_pristine.
Qed.

(** X21. When the timer of a cooldown wait fires, the call goes on
    exactly as a call of the same name invoked at that moment would
    begin: what it had tried is forgotten, so that it may use again a
    record on which it has failed before. *)
Theorem wake_up_starts_afresh s c (w now : Z) :
  reachable s ->
  c ∈ calls s ->
  status c = Awaiting (SleepAllExhausted w) ->
  resume now TimerFired (pool s) c
  = execute now (Some (operationName c)) (pool s).
Proof.
  intros (_ & _ & Hi & Hu & _)%reachable_sound Hc Hst.
  destruct (initialized (pool s)) eqn:Hinit.
  - rewrite execute_initialized by (done || by apply Hi).
    unfold resume. by rewrite Hst.
  - destruct (Hu eq_refl) as (_ & _ & Hset).
    destruct (Hset c Hc) as [o Ho]. congruence.
Qed.

End StartUp.

Lemma uninitialized_manager_is_fresh_witness :
  pool neverInitialized = newKeyPoolManager /\
  forall c, c ∈ calls neverInitialized ->
    status c = Settled (Abrupt notInitializedError) /\ triedKeys c = ∅.
Proof.
  apply (uninitialized_manager_is_fresh (lib := acceptingLibrary)
           neverInitialized).
  - eexists. reflexivity.
  - vm_compute. reflexivity.
Defined.

Lemma wake_up_starts_afresh_witness :
  resume 31200 TimerFired (pool sleepingSystem) sleepingCall
  = execute 31200 (Some "timeline") (pool sleepingSystem).
Proof.
  apply (wake_up_starts_afresh (lib := acceptingLibrary) sleepingSystem
           sleepingCall 30000 31200).
  - eexists. reflexivity.
  - apply (list_elem_of_lookup_2 _ 1%nat). vm_compute. reflexivity.
  - reflexivity.
Defined.

Lemma every_key_fails_witness :
  exists call,
    calls (run (mkSystem threeKeyPool ([] : list (Call string)))
             (Invoke 900 None :: failedAttempts 0 threeFailures))
    = [call] /\
    status call
    = Settled (Abrupt (allKeysExhaustedError threeKeyPool "request")).
Proof.
  destruct (every_key_fails threeKeyPool ([] : list (Call string)) 900 None
              threeFailures)
    as ((call & Hcalls & Hstatus & _) & _).
  - reflexivity.
  - intros i k Hk. apply lookup_lt_Some in Hk as Hi.
    change (length (keys threeKeyPool)) with 3%nat in Hi.
    destruct i as [|[|[|i]]]; [| | |lia];
      cbn in Hk; injection Hk as <-; reflexivity.
  - vm_compute. lia.
  - reflexivity.
  - intros k (i & Hk)%list_elem_of_lookup. apply lookup_lt_Some in Hk as Hi.
    change (length (keys threeKeyPool)) with 3%nat in Hi.
    destruct i as [|[|[|i]]]; [| | |lia];
      cbn in Hk; injection Hk as <-; cbn; lia.
  - intros k a (i & Hk)%list_elem_of_lookup Ha.
    apply lookup_lt_Some in Hk as Hi.
    change (length (keys threeKeyPool)) with 3%nat in Hi.
    unfold threeFailures in Ha. rewrite !elem_of_cons in Ha.
    destruct Ha as [->|[->|[->|Ha]]]; [| | |by apply elem_of_nil in Ha];
      (destruct i as [|[|[|i]]]; [| | |lia]);
      cbn in Hk; injection Hk as <-; cbn; lia.
  - exists call. split; [exact Hcalls | exact Hstatus].
Defined.

Lemma failover_to_next_key_witness :
  exists call,
    calls (run (mkSystem threeKeyPool ([] : list (Call string)))
             (Invoke 900 None
              :: failedAttempts 0 twoFailures
                 ++ succeedingAttempt 0 1400 1500 "tweets"))
    = [call] /\
    status call = Settled (Normal "tweets").
Proof.
  destruct (failover_to_next_key threeKeyPool ([] : list (Call string)) 900
              None twoFailures 1400 1500 "tweets")
    as ((call & Hcalls & Hstatus & _) & _).
  - reflexivity.
  - intros i k Hk. apply lookup_lt_Some in Hk as Hi.
    change (length (keys threeKeyPool)) with 3%nat in Hi.
    destruct i as [|[|[|i]]]; [| | |lia];
      cbn in Hk; injection Hk as <-; reflexivity.
  - vm_compute. lia.
  - vm_compute. lia.
  - intros j k Hj. change (length twoFailures) with 2%nat in Hj.
    change (length (keys threeKeyPool)) with 3%nat.
    change (currentIndex threeKeyPool) with 0%nat.
    unfold twoFailures.
    destruct j as [|[|[|j]]]; [| | |lia];
      intros Hk; cbn in Hk; injection Hk as <-;
      (split_and!; [reflexivity | cbn; lia |]);
      intros a Ha; rewrite !elem_of_cons in Ha;
      (destruct Ha as [->|[->|Ha]]; [| |by apply elem_of_nil in Ha]);
      cbn; lia.
  - exists call. split; [exact Hcalls | exact Hstatus].
Defined.

(* ================================================================== *)
(** ** The model on small inputs *)
(* ================================================================== *)

Example toLowerCase_example :
  Js.toLowerCase "429: Rate LIMIT Exceeded" = "429: rate limit exceeded".
Proof. reflexivity. Qed.

Example split_example :
  Js.split "," ",a,,b," = [EmptyString; "a"; EmptyString; "b"; EmptyString].
Proof. reflexivity. Qed.

Example trim_example : Js.trim "  k 1  " = "k 1".
Proof. reflexivity. Qed.

Example parseKeyList_example : parseKeyList " k1 , ,k2," = ["k1"; "k2"].
Proof. reflexivity. Qed.

Example maskKey_example :
  map maskKey ["0123456789"; "012345678912"; "0123456789abc"]
  = ["***"; "***"; "012345...789abc"].
Proof. reflexivity. Qed.

Example isRateLimitError_string_code :
  isRateLimitError (mkJsError (Some "bad gateway") (CodeString "429") "Error")
  = false.
Proof. reflexivity. Qed.

Example isRateLimitError_no_message :
  isRateLimitError (mkJsError None (CodeNumber 88) "[object Object]") = true.
Proof. reflexivity. Qed.

Example initialize_second_key_refused :
  initialize
    (lib := {| constructorThrows key :=
                 if String.eqb key "b" then Some invalidAuthenticationData
                 else None |})
    "a,b,c" newKeyPoolManager
  = (Abrupt invalidAuthenticationData, newKeyPoolManager).
Proof. reflexivity. Qed.

(** Round robin on three fresh keys: three calls in a row, each
    succeeding at once, use the positions 0, 1 and 2, and the cursor is
    back at 0. *)
Example round_robin_example :
  let s := run (mkSystem threeKeyPool [])
             [Invoke 1000 None; Deliver 0 1100 (Resolved "r0");
              Invoke 2000 None; Deliver 1 2100 (Resolved "r1");
              Invoke 3000 None; Deliver 2 3100 (Resolved "r2")] in
  map successCount (keys (pool s)) = [1; 1; 1] /\
  currentIndex (pool s) = 0%nat /\
  map status (calls s)
  = [Settled (Normal "r0"); Settled (Normal "r1"); Settled (Normal "r2")].
Proof. vm_compute. done. Qed.
